(** * Research pipeline: JSON extraction, provider fallback, rate limiting,
      row worker and map-reduce aggregation

    A shallow embedding of the backend utilities
    [utils/jsonExtractor.ts], [utils/mapReduce.ts], [utils/rateLimiter.ts],
    [clients/llmOrchestrator.ts] and [workers/researchWorker.ts].

    JavaScript strings are sequences of UTF-16 code units; numbers are
    IEEE-754 binary64 values ([spec_float] at precision 53); promises that
    settle are modelled by their outcome (a value or a thrown [Error]). *)

From Stdlib Require Import ZArith NArith List Bool Lia String Ascii.
From Stdlib Require Import Floats.SpecFloat.
From stdpp Require Import base option list gmap.

Local Open Scope N_scope.

(* ================================================================== *)
(** * JavaScript strings *)
(* ================================================================== *)

Module Js.

(** A code unit and a string of code units. *)
Definition char := N.
Abbreviation str := (list N).

(** Literals of the source are written as Rocq strings. *)
Fixpoint lit (s : string) : str :=
  match s with
  | EmptyString => []
  | String a s' => N_of_ascii a :: lit s'
  end.

Fixpoint str_eqb (a b : str) : bool :=
  match a, b with
  | [], [] => true
  | x :: a', y :: b' => (x =? y) && str_eqb a' b'
  | _, _ => false
  end.

(** [WhiteSpace] and [LineTerminator] of ECMAScript: the characters
    removed by [String.prototype.trim] and matched by the class [\s]. *)
Definition is_space (c : char) : bool :=
  (c =? 9) || (c =? 10) || (c =? 11) || (c =? 12) || (c =? 13)
  || (c =? 32) || (c =? 160) || (c =? 5760)
  || ((8192 <=? c) && (c <=? 8202))
  || (c =? 8232) || (c =? 8233) || (c =? 8239) || (c =? 8287)
  || (c =? 12288) || (c =? 65279).

Fixpoint trimStart (s : str) : str :=
  match s with
  | c :: s' => if is_space c then trimStart s' else s
  | [] => []
  end.

Definition trimEnd (s : str) : str := rev (trimStart (rev s)).

(** [s.trim()] *)
Definition trim (s : str) : str := trimEnd (trimStart s).

(** A string between double quotes. *)
Definition quoted (s : str) : str := [34] ++ s ++ [34].

(** [s.startsWith(p)] *)
Fixpoint startsWith (p s : str) : bool :=
  match p, s with
  | [], _ => true
  | a :: p', b :: s' => (a =? b) && startsWith p' s'
  | _ :: _, [] => false
  end.

(** [s.endsWith(p)] *)
Definition endsWith (p s : str) : bool := startsWith (rev p) (rev s).

(** [s.includes(p)] *)
Fixpoint includes (p s : str) : bool :=
  startsWith p s ||
  match s with
  | [] => false
  | _ :: s' => includes p s'
  end.

(** [s.indexOf(c)] for a one-character needle; [None] stands for -1. *)
Fixpoint indexOf (c : char) (s : str) : option nat :=
  match s with
  | [] => None
  | x :: s' => if x =? c then Some 0%nat else S <$> indexOf c s'
  end.

(** [s.slice(i, j)] for [0 <= i <= j]. *)
Definition slice (i j : nat) (s : str) : str := take (j - i) (drop i s).

(** [parts.join(sep)] on strings. *)
Fixpoint join (sep : str) (parts : list str) : str :=
  match parts with
  | [] => []
  | [p] => p
  | p :: rest => p ++ sep ++ join sep rest
  end.

(** [s.split(/\s+/)]: the pieces between maximal runs of white space.
    [in_sep] tells that the previous character belonged to a separator,
    [cur] is the piece being read.  A leading or trailing separator
    yields an empty first or last piece, and the empty string yields
    one empty piece. *)
Fixpoint split_spaces_from (in_sep : bool) (cur : str) (s : str) : list str :=
  match s with
  | [] => [cur]
  | c :: s' =>
      if is_space c then
        if in_sep then split_spaces_from true cur s'
        else cur :: split_spaces_from true [] s'
      else split_spaces_from false (cur ++ [c]) s'
  end.

Definition split_spaces (s : str) : list str := split_spaces_from false [] s.

(** ** Notions used in the statements *)

(** The white-space characters of a text. *)
Fixpoint spaces_in (s : str) : nat :=
  match s with
  | [] => 0
  | c :: s' => (if is_space c then 1 else 0) + spaces_in s'
  end%nat.

Definition space_free (s : str) : Prop := Forall (fun c => is_space c = false) s.

(** [c] is a piece of [w]. *)
Definition infix (c w : str) : Prop := exists a b, w = a ++ c ++ b.

End Js.

Import Js.

(* ================================================================== *)
(** * A backtracking matcher for the regular expressions of the source *)
(* ================================================================== *)

Module Regex.

(** The fragment of ECMAScript patterns used by [jsonExtractor.ts].
    Quantified atoms are always single-character classes there, so the
    star constructors take a class. *)
Inductive regex : Type :=
| Chr (c : char)                  (* a literal character *)
| Cls (p : char -> bool)          (* a character class *)
| Eps                             (* the empty pattern *)
| Seq (a b : regex)               (* ab *)
| Alt (a b : regex)               (* a|b, left first *)
| Opt (a : regex)                 (* a?, greedy *)
| Star (p : char -> bool)         (* [p]*, greedy *)
| StarLazy (p : char -> bool)     (* [p]*?, lazy *)
| Group (a : regex)               (* the capture group number 1 *)
| Bol                             (* ^ without the m flag *)
| Eol.                            (* $ without the m flag *)

(** [Canonicalize] of ECMA-262 for a pattern without the [u]
    flag, restricted to what it does to the ASCII letters: with the [i]
    flag a lower-case ASCII letter is compared as its upper-case form; a
    character outside ASCII is never mapped into ASCII. *)
Definition canonicalize (ignoreCase : bool) (c : char) : char :=
  if ignoreCase && (97 <=? c) && (c <=? 122) then c - 32 else c.

(** A literal string as a pattern. *)
Fixpoint Lit (s : str) : regex :=
  match s with
  | [] => Eps
  | c :: s' => Seq (Chr c) (Lit s')
  end.

Definition any (_ : char) : bool := true.

Section Matcher.
Variable ignoreCase : bool.
(** The length of the whole input, to recognise its start. *)
Variable total : nat.

(** The state of a match: the input still to read and the text
    captured by group 1, if it took part. *)
Abbreviation cont := (str -> option str -> option (option str)).

Fixpoint star_greedy (p : char -> bool) (rest : str) (cap : option str)
    (k : cont) : option (option str) :=
  match rest with
  | c :: rest' =>
      if p c then
        match star_greedy p rest' cap k with
        | Some r => Some r
        | None => k rest cap
        end
      else k rest cap
  | [] => k rest cap
  end.

Fixpoint star_lazy (p : char -> bool) (rest : str) (cap : option str)
    (k : cont) : option (option str) :=
  match k rest cap with
  | Some r => Some r
  | None =>
      match rest with
      | c :: rest' => if p c then star_lazy p rest' cap k else None
      | [] => None
      end
  end.

(** [run r rest cap k]: match [r] at the front of [rest], then hand
    over to the continuation [k]; alternatives are tried in the order
    of a backtracking engine. *)
Fixpoint run (r : regex) (rest : str) (cap : option str) (k : cont)
    : option (option str) :=
  match r with
  | Chr c =>
      match rest with
      | x :: rest' =>
          if canonicalize ignoreCase x =? canonicalize ignoreCase c
          then k rest' cap else None
      | [] => None
      end
  | Cls p =>
      match rest with
      | x :: rest' => if p x then k rest' cap else None
      | [] => None
      end
  | Eps => k rest cap
  | Seq a b => run a rest cap (fun rest' cap' => run b rest' cap' k)
  | Alt a b =>
      match run a rest cap k with
      | Some r => Some r
      | None => run b rest cap k
      end
  | Opt a =>
      match run a rest cap k with
      | Some r => Some r
      | None => k rest cap
      end
  | Star p => star_greedy p rest cap k
  | StarLazy p => star_lazy p rest cap k
  | Group a =>
      run a rest cap
        (fun rest' _ => k rest' (Some (take (length rest - length rest') rest)))
  | Bol => if Nat.eqb (length rest) total then k rest cap else None
  | Eol => match rest with [] => k rest cap | _ => None end
  end.

(** Try the pattern at every start position, leftmost first. *)
Fixpoint search (r : regex) (s : str) : option (option str) :=
  match run r s None (fun _ cap => Some cap) with
  | Some m => Some m
  | None =>
      match s with
      | [] => None
      | _ :: s' => search r s'
      end
  end.
End Matcher.

(** [text.match(pattern)] for a pattern without the [g] flag: [None] when
    there is no match, otherwise [match[1]] ([None] there stands for
    [undefined]). *)
Definition match1 (ignoreCase : bool) (r : regex) (text : str) : option (option str) :=
  search ignoreCase (length text) r text.

(** ** Notions used in the proofs *)

Section Faithful.
Variable whole : str.

(** A capture that is a piece of the input. *)
Definition capture_ok (cap : option str) : Prop :=
  forall c, cap = Some c -> infix c whole.

(** A continuation that only hands back pieces of the input. *)
Definition faithful (k : str -> option str -> option (option str)) : Prop :=
  forall rest cap c,
    rest `suffix_of` whole -> capture_ok cap ->
    k rest cap = Some (Some c) -> infix c whole.
End Faithful.

(** Group 1 takes part in every match of the pattern. *)
Fixpoint captures (r : regex) : bool :=
  match r with
  | Group _ => true
  | Seq a b => captures a || captures b
  | Alt a b => captures a && captures b
  | _ => false
  end.

End Regex.

(* ================================================================== *)
(** * JSON values and [JSON.parse] *)
(* ================================================================== *)

Module Json.

(** ** Numbers: IEEE-754 binary64 *)

Definition prec : Z := 53.
Definition emax : Z := 1024.

(** The Number value of the decimal [(-1)^neg * mant * 10^e10], rounded
    to nearest, ties to even. *)
Definition number_of_decimal (neg : bool) (mant : N) (e10 : Z) : spec_float :=
  match mant with
  | N0 => S754_zero neg
  | Npos m =>
      match e10 with
      | Zneg k =>
          SFdiv prec emax (S754_finite neg m 0)
                (S754_finite false (Pos.pow 10 k) 0)
      | _ =>
          binary_round prec emax neg (m * Z.to_pos (10 ^ e10))%positive 0
      end
  end.

(** [x <= y] and [x < y] on numbers. *)
Definition num_leb (x y : spec_float) : bool := SFleb x y.
Definition num_ltb (x y : spec_float) : bool := SFltb x y.

(** ** Values *)

Inductive value : Type :=
| JNull
| JBool (b : bool)
| JNum (n : spec_float)
| JStr (s : str)
| JArr (items : list value)
| JObj (members : list (str * value)).

(** [CreateDataProperty] on the object being built: a repeated key
    keeps its place and takes the new value. *)
Fixpoint obj_set (k : str) (v : value) (m : list (str * value)) : list (str * value) :=
  match m with
  | [] => [(k, v)]
  | (k', v') :: m' =>
      if str_eqb k k' then (k, v) :: m' else (k', v') :: obj_set k v m'
  end.

Fixpoint obj_get (k : str) (m : list (str * value)) : option value :=
  match m with
  | [] => None
  | (k', v') :: m' => if str_eqb k k' then Some v' else obj_get k m'
  end.

(** ** The grammar of ECMA-404 *)

Definition is_json_ws (c : char) : bool :=
  (c =? 32) || (c =? 9) || (c =? 10) || (c =? 13).

Definition is_digit (c : char) : bool := (48 <=? c) && (c <=? 57).

Fixpoint skip_ws (s : str) : str :=
  match s with
  | c :: s' => if is_json_ws c then skip_ws s' else s
  | [] => []
  end.

(** The longest prefix of digits and what follows it. *)
Fixpoint span_digits (s : str) : str * str :=
  match s with
  | c :: s' =>
      if is_digit c then let '(ds, r) := span_digits s' in (c :: ds, r)
      else ([], s)
  | [] => ([], [])
  end.

Definition digits_value (ds : str) : N :=
  fold_left (fun acc d => acc * 10 + (d - 48)) ds 0.

Definition hex_value (c : char) : option N :=
  if is_digit c then Some (c - 48)
  else if (97 <=? c) && (c <=? 102) then Some (c - 87)
  else if (65 <=? c) && (c <=? 70) then Some (c - 55)
  else None.

(** The characters of a string after its opening quote, up to and
    including the closing quote. *)
Fixpoint parse_string_body (s : str) : option (str * str) :=
  match s with
  | [] => None
  | c :: s1 =>
      if c =? 34 then Some ([], s1)
      else if c =? 92 then
        match s1 with
        | [] => None
        | e :: s2 =>
            if e =? 117 then
              match s2 with
              | h1 :: h2 :: h3 :: h4 :: s3 =>
                  match hex_value h1, hex_value h2, hex_value h3, hex_value h4 with
                  | Some a, Some b, Some c', Some d =>
                      match parse_string_body s3 with
                      | Some (body, rest) =>
                          Some (((a * 16 + b) * 16 + c') * 16 + d :: body, rest)
                      | None => None
                      end
                  | _, _, _, _ => None
                  end
              | _ => None
              end
            else
              let unescaped :=
                if e =? 34 then Some 34
                else if e =? 92 then Some 92
                else if e =? 47 then Some 47
                else if e =? 98 then Some 8
                else if e =? 102 then Some 12
                else if e =? 110 then Some 10
                else if e =? 114 then Some 13
                else if e =? 116 then Some 9
                else None in
              match unescaped with
              | Some u =>
                  match parse_string_body s2 with
                  | Some (body, rest) => Some (u :: body, rest)
                  | None => None
                  end
              | None => None
              end
        end
      else if c <? 32 then None
      else
        match parse_string_body s1 with
        | Some (body, rest) => Some (c :: body, rest)
        | None => None
        end
  end.

(** A number: an optional minus sign, an integer part without a
    superfluous leading zero, an optional fraction and an optional
    exponent. *)
Definition parse_number (s : str) : option (spec_float * str) :=
  let '(neg, s1) :=
    match s with
    | c :: s' => if c =? 45 then (true, s') else (false, s)
    | [] => (false, s)
    end in
  let int_part :=
    match s1 with
    | c :: s2 =>
        if c =? 48 then Some ([c], s2)
        else if is_digit c then Some (span_digits s1)
        else None
    | [] => None
    end in
  match int_part with
  | None => None
  | Some (ids, s2) =>
      let frac_part :=
        match s2 with
        | c :: s3 =>
            if c =? 46 then
              match span_digits s3 with
              | ([], _) => None
              | (fds, s4) => Some (fds, s4)
              end
            else Some ([], s2)
        | [] => Some ([], s2)
        end in
      match frac_part with
      | None => None
      | Some (fds, s4) =>
          let exp_part :=
            match s4 with
            | c :: s5 =>
                if (c =? 101) || (c =? 69) then
                  let '(eneg, s6) :=
                    match s5 with
                    | g :: s5' =>
                        if g =? 45 then (true, s5')
                        else if g =? 43 then (false, s5')
                        else (false, s5)
                    | [] => (false, s5)
                    end in
                  match span_digits s6 with
                  | ([], _) => None
                  | (eds, s7) =>
                      let e := Z.of_N (digits_value eds) in
                      Some (if eneg then (- e)%Z else e, s7)
                  end
                else Some (0%Z, s4)
            | [] => Some (0%Z, s4)
            end in
          match exp_part with
          | None => None
          | Some (e, s7) =>
              Some (number_of_decimal neg (digits_value (ids ++ fds))
                      (e - Z.of_nat (length fds))%Z, s7)
          end
      end
  end.

(** The recursive descent over values.  The callers have skipped the
    white space before the value; [fuel] bounds the number of nested
    and successive values, each of which reads at least one character. *)
Fixpoint parse_value (fuel : nat) (s : str) {struct fuel} : option (value * str) :=
  match fuel with
  | O => None
  | S fuel' =>
      match s with
      | [] => None
      | c :: s1 =>
          if c =? 123 then
            match skip_ws s1 with
            | d :: s2 =>
                if d =? 125 then Some (JObj [], s2)
                else parse_members fuel' [] (d :: s2)
            | [] => None
            end
          else if c =? 91 then
            match skip_ws s1 with
            | d :: s2 =>
                if d =? 93 then Some (JArr [], s2)
                else parse_elements fuel' [] (d :: s2)
            | [] => None
            end
          else if c =? 34 then
            match parse_string_body s1 with
            | Some (body, rest) => Some (JStr body, rest)
            | None => None
            end
          else if startsWith (lit "true") s then Some (JBool true, drop 4 s)
          else if startsWith (lit "false") s then Some (JBool false, drop 5 s)
          else if startsWith (lit "null") s then Some (JNull, drop 4 s)
          else
            match parse_number s with
            | Some (n, rest) => Some (JNum n, rest)
            | None => None
            end
      end
  end
with parse_elements (fuel : nat) (acc : list value) (s : str) {struct fuel}
    : option (value * str) :=
  match fuel with
  | O => None
  | S fuel' =>
      match parse_value fuel' s with
      | Some (v, rest) =>
          match skip_ws rest with
          | d :: s2 =>
              if d =? 44 then parse_elements fuel' (acc ++ [v]) (skip_ws s2)
              else if d =? 93 then Some (JArr (acc ++ [v]), s2)
              else None
          | [] => None
          end
      | None => None
      end
  end
with parse_members (fuel : nat) (acc : list (str * value)) (s : str) {struct fuel}
    : option (value * str) :=
  match fuel with
  | O => None
  | S fuel' =>
      match s with
      | q :: s1 =>
          if q =? 34 then
            match parse_string_body s1 with
            | Some (key, rest) =>
                match skip_ws rest with
                | d :: s2 =>
                    if d =? 58 then
                      match parse_value fuel' (skip_ws s2) with
                      | Some (v, rest') =>
                          match skip_ws rest' with
                          | g :: s3 =>
                              if g =? 44
                              then parse_members fuel' (obj_set key v acc) (skip_ws s3)
                              else if g =? 125
                              then Some (JObj (obj_set key v acc), s3)
                              else None
                          | [] => None
                          end
                      | None => None
                      end
                    else None
                | [] => None
                end
            | None => None
            end
          else None
      | [] => None
      end
  end.

(** [JSON.parse(text)]: [None] when it throws a [SyntaxError]. *)
Definition parse (text : str) : option value :=
  match parse_value (3 * S (length text)) (skip_ws text) with
  | Some (v, rest) =>
      match skip_ws rest with
      | [] => Some v
      | _ => None
      end
  | None => None
  end.

(** ** Conversions of the language *)

(** [ToBoolean] *)
Definition truthy (v : value) : bool :=
  match v with
  | JNull => false
  | JBool b => b
  | JNum n => match n with S754_zero _ | S754_nan => false | _ => true end
  | JStr s => match s with [] => false | _ => true end
  | JArr _ | JObj _ => true
  end.

(** [v[k]] for a value that is neither [null] nor [undefined] and a key
    that no prototype defines ([summary], [details], [sources],
    [confidence], [key_findings]): an own member of an object, and
    [undefined] ([None]) otherwise. *)
Definition get (k : str) (v : value) : option value :=
  match v with
  | JObj m => obj_get k m
  | _ => None
  end.

(** [a || b] where [a] may be [undefined]. *)
Definition or_else (a : option value) (b : value) : value :=
  match a with
  | Some v => if truthy v then v else b
  | None => b
  end.

(** *** [Number::toString] *)

(** The decimal digits of a natural number. *)
Fixpoint dec_digits_from (fuel : nat) (n : N) (acc : str) : str :=
  let acc' := (48 + n mod 10) :: acc in
  match fuel with
  | O => acc'
  | S fuel' => if n / 10 =? 0 then acc' else dec_digits_from fuel' (n / 10) acc'
  end.

Definition dec_digits (n : N) : str := dec_digits_from (N.size_nat n) n [].

Definition sf_eqb (x y : spec_float) : bool :=
  match x, y with
  | S754_zero a, S754_zero b => Bool.eqb a b
  | S754_infinity a, S754_infinity b => Bool.eqb a b
  | S754_nan, S754_nan => true
  | S754_finite a m e, S754_finite b m' e' =>
      Bool.eqb a b && Pos.eqb m m' && Z.eqb e e'
  | _, _ => false
  end.

Section ShortestDecimal.
Local Open Scope Z_scope.
(** The positive rational [num / den]. *)
Variables num den : Z.

(** [10^n <= num / den] *)
Definition pow10_le (n : Z) : bool :=
  if 0 <=? n then den * 10 ^ n <=? num else den <=? num * 10 ^ (- n).

(** The [n] with [10^(n-1) <= num/den < 10^n], searched from [n]. *)
Fixpoint magnitude (fuel : nat) (n : Z) : Z :=
  match fuel with
  | O => n
  | S fuel' =>
      if negb (pow10_le (n - 1)) then magnitude fuel' (n - 1)
      else if pow10_le n then magnitude fuel' (n + 1)
      else n
  end.

(** [floor (num / den / 10^p)] *)
Definition scaled_floor (p : Z) : Z :=
  if 0 <=? p then num / (den * 10 ^ p) else (num * 10 ^ (- p)) / den.

(** How [num/den] compares with [(2 s + 1) / 2 * 10^p], the middle of
    the two candidates [s] and [s + 1]. *)
Definition compare_middle (s p : Z) : comparison :=
  if 0 <=? p then (2 * num ?= (2 * s + 1) * 10 ^ p * den)
  else (2 * num * 10 ^ (- p) ?= (2 * s + 1) * den).

(** The digits [s] of [k] figures and the exponent [p] such that
    [s * 10^p] reads back as [x], for the least [k] from [k] on;
    of two such [s] the nearer one, the even one when tied. *)
Fixpoint shortest (x : spec_float) (n0 : Z) (tries : nat) (k : Z) : Z * Z :=
  let p := n0 - k in
  let lo := scaled_floor p in
  let ok s := sf_eqb (number_of_decimal false (Z.to_N s) p) x in
  match tries with
  | O => (lo, p)
  | S tries' =>
      match ok lo, ok (lo + 1) with
      | true, true =>
          match compare_middle lo p with
          | Lt => (lo, p)
          | Gt => (lo + 1, p)
          | Eq => if Z.even lo then (lo, p) else (lo + 1, p)
          end
      | true, false => (lo, p)
      | false, true => (lo + 1, p)
      | false, false => shortest x n0 tries' (k + 1)
      end
  end.
End ShortestDecimal.

Fixpoint strip_zeros_rev (r : str) : str :=
  match r with
  | c :: r' => if c =? 48 then strip_zeros_rev r' else r
  | [] => []
  end.

Definition zeros (n : Z) : str := repeat 48 (Z.to_nat n).

(** The text of a positive finite number from its digits [ds] and the
    position [n] of the decimal point, as [Number::toString] lays it
    out. *)
Definition layout (ds : str) (n : Z) : str :=
  let k := Z.of_nat (length ds) in
  if ((k <=? n) && (n <=? 21))%Z then ds ++ zeros (n - k)
  else if ((0 <? n) && (n <=? 21))%Z then
    take (Z.to_nat n) ds ++ [46] ++ drop (Z.to_nat n) ds
  else if ((-6 <? n) && (n <=? 0))%Z then
    lit "0." ++ zeros (- n) ++ ds
  else
    let e := (n - 1)%Z in
    let sign := if (0 <=? e)%Z then 43 else 45 in
    let mant := match ds with
                | [d] => [d]
                | d :: ds' => d :: 46 :: ds'
                | [] => []
                end in
    mant ++ [101; sign] ++ dec_digits (Z.to_N (Z.abs e)).

Definition number_toString (x : spec_float) : str :=
  match x with
  | S754_nan => lit "NaN"
  | S754_zero _ => lit "0"
  | S754_infinity neg => (if neg then [45] else []) ++ lit "Infinity"
  | S754_finite neg m e =>
      let num := if (0 <=? e)%Z then (Zpos m * 2 ^ e)%Z else Zpos m in
      let den := if (0 <=? e)%Z then 1%Z else (2 ^ (- e))%Z in
      let n0 := magnitude num den 800 0 in
      let '(s, p) := shortest num den (S754_finite false m e) n0 17 1 in
      let all := dec_digits (Z.to_N s) in
      let ds := rev (strip_zeros_rev (rev all)) in
      (if neg then [45] else []) ++ layout ds (p + Z.of_nat (length all))
  end.

(** *** [ToString] on the values that [JSON.parse] builds *)

(** An error object with its [message]. *)
Record Error : Type := mkError { message : str }.

(** The outcome of an evaluation that may throw. *)
Inductive outcome (A : Type) : Type :=
| Returns (a : A)
| Throws (e : Error).
Arguments Returns {A} a.
Arguments Throws {A} e.

Definition bind {A B} (m : outcome A) (f : A -> outcome B) : outcome B :=
  match m with
  | Returns a => f a
  | Throws e => Throws e
  end.

(** A value that is thrown, or that a promise is rejected with, as
    the [catch] blocks of this program look at it: they read its
    [message].  An [Error] has a string there; [NoMessage] stands for
    the values whose [message] is [undefined] (a string, a number, an
    object without that member); [undefined] and [null] have no members
    at all.  A value whose [message] is neither a string nor
    [undefined] is not modelled. *)
Inductive thrown : Type :=
| AnError (e : Error)
| NoMessage
| ThrownUndefined
| ThrownNull.

(** How a promise settles when it may be rejected with any value. *)
Inductive settled (A : Type) : Type :=
| Fulfilled (a : A)
| Rejected (x : thrown).
Arguments Fulfilled {A} a.
Arguments Rejected {A} x.

Definition no_message_of_undefined : Error :=
  mkError (lit "Cannot read properties of undefined (reading 'message')").
Definition no_message_of_null : Error :=
  mkError (lit "Cannot read properties of null (reading 'message')").
Definition no_includes_of_undefined : Error :=
  mkError (lit "Cannot read properties of undefined (reading 'includes')").

(** [(error as Error).message]: the cast does nothing, and [None] is
    [undefined]. *)
Definition message_of (x : thrown) : outcome (option str) :=
  match x with
  | AnError e => Returns (Some (message e))
  | NoMessage => Returns None
  | ThrownUndefined => Throws no_message_of_undefined
  | ThrownNull => Throws no_message_of_null
  end.

Definition cannot_convert : Error :=
  mkError (lit "Cannot convert object to primitive value").

(** [parts.join(sep)] where each part is converted by [elem]. *)
Definition join_with {A} (elem : A -> outcome str) (sep : str)
    : list A -> outcome str :=
  fix go (l : list A) : outcome str :=
    match l with
    | [] => Returns []
    | [x] => elem x
    | x :: l' =>
        bind (elem x) (fun s => bind (go l') (fun r => Returns (s ++ sep ++ r)))
    end.

(** [String(v)].  An array is joined with commas, [null] elements
    giving the empty string.  A plain object gives ["[object Object]"]
    through [Object.prototype.toString], unless it has an own member
    [toString]: that member, never callable in parsed JSON, hides the
    inherited method, and [valueOf] returns the object itself, so the
    conversion throws a [TypeError]. *)
Fixpoint to_string (v : value) : outcome str :=
  match v with
  | JNull => Returns (lit "null")
  | JBool b => Returns (if b then lit "true" else lit "false")
  | JNum n => Returns (number_toString n)
  | JStr s => Returns s
  | JArr items =>
      join_with
        (fun x => match x with JNull => Returns [] | _ => to_string x end)
        [44] items
  | JObj m =>
      match obj_get (lit "toString") m with
      | Some _ => Throws cannot_convert
      | None => Returns (lit "[object Object]")
      end
  end.

(** [items.map(String)] *)
Fixpoint map_String (items : list value) : outcome (list str) :=
  match items with
  | [] => Returns []
  | x :: items' =>
      bind (to_string x) (fun s =>
      bind (map_String items') (fun r => Returns (s :: r)))
  end.

(** The deep equality of two values: members compared by key,
    whatever their order. *)
Fixpoint deep_equal (a b : value) : bool :=
  match a, b with
  | JNull, JNull => true
  | JBool x, JBool y => Bool.eqb x y
  | JNum x, JNum y => sf_eqb x y
  | JStr x, JStr y => str_eqb x y
  | JArr xs, JArr ys =>
      (fix go (xs : list value) (ys : list value) : bool :=
         match xs, ys with
         | [], [] => true
         | x :: xs', y :: ys' => deep_equal x y && go xs' ys'
         | _, _ => false
         end) xs ys
  | JObj ma, JObj mb =>
      Nat.eqb (length ma) (length mb) &&
      (fix go (ma : list (str * value)) : bool :=
         match ma with
         | [] => true
         | (k, x) :: ma' =>
             match obj_get k mb with
             | Some y => deep_equal x y && go ma'
             | None => false
             end
         end) ma
  | _, _ => false
  end.

Definition is_array (v : value) : Prop := exists l, v = JArr l.
Definition is_object (v : value) : Prop := exists m, v = JObj m.

End Json.

Import Json.

(* ================================================================== *)
(** * utils/jsonExtractor.ts *)
(* ================================================================== *)

Module JsonExtractor.
Import Regex.

(** [z.infer<typeof ResearchResultSchema>].  The salvage branch of
    [extractResearchResult] stores whatever [details] the model wrote
    under a type assertion, so [details] is any value here. *)
Record ExtractedResearch : Type := mkExtracted {
  summary : str;
  details : value;
  sources : option (list str);
  confidence : spec_float
}.

Definition num_0 : spec_float := S754_zero false.
Definition num_1 : spec_float := number_of_decimal false 1 0.
Definition num_0_5 : spec_float := number_of_decimal false 5 (-1).
Definition num_0_3 : spec_float := number_of_decimal false 3 (-1).
Definition num_0_1 : spec_float := number_of_decimal false 1 (-1).

(** The object that [z.record(z.unknown())] returns for the members
    [d]: the same members in the same order, but for [__proto__]. *)
Fixpoint record_of (d : list (str * value)) : list (str * value) :=
  match d with
  | [] => []
  | (k, v) :: d' =>
      if str_eqb k (lit "__proto__") then record_of d' else (k, v) :: record_of d'
  end.

(** The strings of an array all of whose items are strings. *)
Fixpoint all_strings (items : list value) : option (list str) :=
  match items with
  | [] => Some []
  | JStr s :: items' => cons s <$> all_strings items'
  | _ :: _ => None
  end.

(** [ResearchResultSchema.safeParse(v)]: [Some data] on success, [None]
    when [success] is false.  The schema is
    [z.object({ summary: z.string().min(1),
                details: z.record(z.unknown()).default({}),
                sources: z.array(z.string()).optional(),
                confidence: z.number().min(0).max(1).default(0.5) })]:
    the input must be a plain object, [min(0)] rejects a number below 0,
    [max(1)] a number above 1.  [z.record] builds a new object from the
    members of [details], and leaves the member [__proto__] out. *)
Definition safeParse (v : value) : option ExtractedResearch :=
  match v with
  | JObj m =>
      let summary_field :=
        match obj_get (lit "summary") m with
        | Some (JStr s) => if Nat.leb 1 (length s) then Some s else None
        | _ => None
        end in
      let details_field :=
        match obj_get (lit "details") m with
        | None => Some (JObj [])
        | Some (JObj d) => Some (JObj (record_of d))
        | Some _ => None
        end in
      let sources_field :=
        match obj_get (lit "sources") m with
        | None => Some None
        | Some (JArr items) => Some <$> all_strings items
        | Some _ => None
        end in
      let confidence_field :=
        match obj_get (lit "confidence") m with
        | None => Some num_0_5
        | Some (JNum n) =>
            match n with
            | S754_nan => None
            | _ => if num_ltb n num_0 || num_ltb num_1 n then None else Some n
            end
        | Some _ => None
        end in
      match summary_field, details_field, sources_field, confidence_field with
      | Some s, Some d, Some src, Some c => Some (mkExtracted s d src c)
      | _, _, _, _ => None
      end
  | _ => None
  end.

Definition seqs (rs : list regex) : regex := foldr Seq Eps rs.

Definition fence : regex := Lit (lit "```").

(** [/^```(?:json|javascript|js)?\s*\n?([\s\S]*?)\n?```$/] and
    [/^```\s*\n?([\s\S]*?)\n?```$/] *)
Definition fencePatterns : list regex :=
  [ seqs [Bol; fence;
          Opt (Alt (Lit (lit "json")) (Alt (Lit (lit "javascript")) (Lit (lit "js"))));
          Star is_space; Opt (Chr 10); Group (StarLazy any);
          Opt (Chr 10); fence; Eol];
    seqs [Bol; fence; Star is_space; Opt (Chr 10); Group (StarLazy any);
          Opt (Chr 10); fence; Eol] ].

(** The loop over [fencePatterns]: the first pattern that matches
    replaces [cleaned] by its trimmed group.  Group 1 takes part in
    every match of these patterns, so [match[1]] is never [undefined]. *)
Fixpoint strip_fence (patterns : list regex) (cleaned : str) : str :=
  match patterns with
  | [] => cleaned
  | pattern :: patterns' =>
      match match1 false pattern cleaned with
      | Some (Some m1) => trim m1
      | Some None => cleaned
      | None => strip_fence patterns' cleaned
      end
  end.

(** The walk of [findJSONObject] from index [i] on: the index after
    the brace that brings [depth] back to zero. *)
Fixpoint scan (s : str) (i : nat) (depth : Z) (inString escape : bool)
    : option nat :=
  match s with
  | [] => None
  | c :: s' =>
      if escape then scan s' (S i) depth inString false
      else if (c =? 92) && inString then scan s' (S i) depth inString true
      else if c =? 34 then scan s' (S i) depth (negb inString) false
      else if negb inString then
        if c =? 123 then scan s' (S i) (depth + 1)%Z inString false
        else if c =? 125 then
          if (depth - 1 =? 0)%Z then Some (S i)
          else scan s' (S i) (depth - 1)%Z inString false
        else scan s' (S i) depth inString false
      else scan s' (S i) depth inString false
  end.

Definition findJSONObject (text : str) : option str :=
  match indexOf 123 text with
  | None => None
  | Some start =>
      match scan (drop start text) start 0 false false with
      | Some stop => Some (slice start stop text)
      | None => None
      end
  end.

Definition braces : regex := seqs [Chr 123; Star any; Chr 125].

(** [/(?:json|result|response|output|data)\s*[:=]?\s*(\{[\s\S]*\})/i],
    [/(\{[\s\S]*"summary"[\s\S]*"confidence"[\s\S]*\})/i] and
    [/(\{[\s\S]*\})\s*$/], each with its [i] flag. *)
Definition textPatterns : list (bool * regex) :=
  [ (true,
     seqs [Alt (Lit (lit "json")) (Alt (Lit (lit "result"))
             (Alt (Lit (lit "response")) (Alt (Lit (lit "output")) (Lit (lit "data")))));
           Star is_space;
           Opt (Cls (fun c => (c =? 58) || (c =? 61)));
           Star is_space;
           Group braces]);
    (true,
     Group (seqs [Chr 123; Star any; Lit (34 :: lit "summary" ++ [34]); Star any;
                  Lit (34 :: lit "confidence" ++ [34]); Star any; Chr 125]));
    (false, seqs [Group braces; Star is_space; Eol]) ].

Fixpoint first_potential (patterns : list (bool * regex)) (text : str) : option str :=
  match patterns with
  | [] => None
  | (flag, pattern) :: patterns' =>
      match match1 flag pattern text with
      | Some (Some (c :: m1)) =>
          let potential := trim (c :: m1) in
          if startsWith [123] potential && endsWith [125] potential
          then Some potential
          else first_potential patterns' text
      | _ => first_potential patterns' text
      end
  end.

Definition extractJSONFromText (text : str) : option str :=
  first_potential textPatterns text.

(** [cleaned] after step 1. *)
Definition clean (text : str) : str := strip_fence fencePatterns (trim text).

(** [extractJSON]; each [JSON.parse] stands inside
    [try { return ... } catch { }], and [JNull] is the [null] result. *)
Definition extractJSON (text : str) : value :=
  match text with
  | [] => JNull
  | _ =>
      let cleaned := clean text in
      match parse cleaned with
      | Some v => v
      | None =>
          let step4 :=
            match extractJSONFromText cleaned with
            | Some jsonInText =>
                match parse jsonInText with
                | Some v => v
                | None => JNull
                end
            | None => JNull
            end in
          match findJSONObject cleaned with
          | Some jsonMatch =>
              match parse jsonMatch with
              | Some v => v
              | None => step4
              end
          | None => step4
          end
      end
  end.

Definition placeholder : str := lit "Research completed but output was malformed".

(** [extractResearchResult]: [Returns None] is the [null] result, and
    [Throws] a [TypeError] raised by [String] in the salvage branch. *)
Definition extractResearchResult (text : str) : outcome (option ExtractedResearch) :=
  let extracted := extractJSON text in
  if negb (truthy extracted) then Returns None
  else
    match safeParse extracted with
    | Some data => Returns (Some data)
    | None =>
        bind (to_string (or_else (get (lit "summary") extracted) (JStr placeholder)))
          (fun summary' =>
        let details' := or_else (get (lit "details") extracted) (JObj []) in
        bind (match get (lit "sources") extracted with
              | Some (JArr items) => bind (map_String items) (fun l => Returns (Some l))
              | _ => Returns None
              end)
          (fun sources' =>
        let confidence' :=
          match get (lit "confidence") extracted with
          | Some (JNum n) => n
          | _ => num_0_3
          end in
        Returns (Some (mkExtracted summary' details' sources' confidence'))))
    end.

(** [createRepairPrompt] *)
Definition createRepairPrompt (originalPrompt malformedResponse : str) : str :=
  lit "The previous response was not valid JSON. Here was the malformed response:" ++
  [10; 10] ++ slice 0 500 malformedResponse ++
  (if Nat.ltb 500 (length malformedResponse) then lit "..." else []) ++
  [10; 10] ++ lit "Please provide ONLY a valid JSON object with no additional text." ++
  [10] ++ lit "Original request: " ++ originalPrompt ++
  [10; 10] ++ lit "Remember: Output ONLY the JSON object, nothing else.".

(** ** Notions used in the statements *)

(** The language tags of the first fence pattern, and no tag. *)
Definition tags : list str := [[]; lit "json"; lit "javascript"; lit "js"].

(** The closed interval from 0 to 1. *)
Definition in_unit (n : spec_float) : bool := num_leb num_0 n && num_leb n num_1.

(** A balanced region: some [{] of [s] from which the walk of
    [findJSONObject], counting braces outside string literals, comes
    back to depth zero. *)
Fixpoint has_region (s : str) : bool :=
  match s with
  | [] => false
  | c :: s' =>
      ((c =? 123) && bool_decide (is_Some (scan s 0 0 false false))) || has_region s'
  end.

(** ** The walk of [findJSONObject] over a JSON text *)

(** The walk passes over [u] at a depth of one or more, outside a string,
    and comes out as it went in. *)
Definition neutral (u : str) : Prop :=
  forall tail i d, (1 <= d)%Z ->
    scan (u ++ tail) i d false false = scan tail (length u + i)%nat d false false.

(** [u] ends with the brace that closes the object entered before it. *)
Definition closes (u : str) : Prop :=
  forall tail i d, (0 <= d)%Z ->
    scan (u ++ tail) i (d + 1) false false
    = if (d =? 0)%Z then Some (length u + i)%nat
      else scan tail (length u + i)%nat d false false.

(** The walk from the start of [u], at depth zero, stops at its end. *)
Definition object_text (u : str) : Prop :=
  forall tail i, scan (u ++ tail) i 0 false false = Some (length u + i)%nat.

(** [u] runs from inside a string literal to its closing quote. *)
Definition string_tail (u : str) : Prop :=
  forall tail i d,
    scan (u ++ tail) i d true false = scan tail (length u + i)%nat d false false.

(** A character that is neither a quote nor a brace. *)
Definition plain (c : char) : Prop := c <> 34 /\ c <> 123 /\ c <> 125.

(** [x] is [rest] after some plain characters. *)
Definition plain_before (rest x : str) : Prop :=
  exists u, x = u ++ rest /\ Forall plain u.

(** [s] is [rest] after a text [u] that satisfies [P]. *)
Definition consumes (P : str -> Prop) (s rest : str) : Prop :=
  exists u, s = u ++ rest /\ P u.

(** What the walk does on the text of a value: it passes over it at a
    depth of one or more, and stops at the end of an object entered at
    depth zero. *)
Definition value_text (v : value) (u : str) : Prop :=
  neutral u /\
  match v with
  | JObj _ => head u = Some 123 /\ object_text u
  | _ => head u <> Some 123
  end.

End JsonExtractor.

Import JsonExtractor.

(* ================================================================== *)
(** * utils/mapReduce.ts *)
(* ================================================================== *)

Module MapReduce.

Definition MAX_SUMMARY_WORDS : nat := 200.
Definition AGGREGATION_CHUNK_SIZE : nat := 5.

(** [truncateToWords] *)
Definition truncateToWords (text : str) (maxWords : nat) : str :=
  let words := split_spaces text in
  if Nat.leb (length words) maxWords then text
  else join [32] (take maxWords words) ++ lit "...".

(** The callback of [mapSummarize] up to the truncation: [summary],
    followed by the first three findings when [details.key_findings] is
    a non-empty array.  [Array.prototype.join] converts the findings with
    [ToString], [null] giving the empty string, and may throw like
    [String]. *)
Definition with_findings (result : ExtractedResearch) : outcome str :=
  let details' := details result in
  if truthy details' && match details' with JObj _ | JArr _ => true | _ => false end
  then
    match get (lit "key_findings") details' with
    | Some (JArr (f :: findings)) =>
        bind (join_with
                (fun x => match x with JNull => Returns [] | _ => to_string x end)
                (lit "; ") (take 3 (f :: findings)))
          (fun joined => Returns (summary result ++ lit " Key findings: " ++ joined))
    | _ => Returns (summary result)
    end
  else Returns (summary result).

Definition summarize_one (result : ExtractedResearch) : outcome str :=
  bind (with_findings result)
    (fun summary' => Returns (truncateToWords summary' MAX_SUMMARY_WORDS)).

(** [mapSummarize] *)
Fixpoint mapSummarize (results : list ExtractedResearch) : outcome (list str) :=
  match results with
  | [] => Returns []
  | r :: results' =>
      bind (summarize_one r) (fun s =>
      bind (mapSummarize results') (fun rest => Returns (s :: rest)))
  end.

(** ** The reduce phase

    Every call of [geminiSimpleCompletion] is recorded with its prompt.
    The provider is an oracle of the number of calls issued before and
    of the prompt; it answers with a text or throws. *)
Section Reduce.
Variable geminiSimpleCompletion : nat -> str -> outcome str.

(** A computation that issues provider calls: from the prompts issued
    so far to a result and the prompts issued in the end. *)
Definition Calls (A : Type) : Type := list str -> A * list str.

Definition ret {A} (a : A) : Calls A := fun log => (a, log).
Definition seq {A B} (m : Calls A) (f : A -> Calls B) : Calls B :=
  fun log => let '(a, log') := m log in f a log'.

Fixpoint numbered (i : nat) (summaries : list str) : list str :=
  match summaries with
  | [] => []
  | s :: rest => (dec_digits (N.of_nat (i + 1)) ++ lit ". " ++ s) :: numbered (S i) rest
  end.

Definition aggregation_prompt (summaries : list str) (originalQuery : str) : str :=
  lit "You are aggregating research summaries. The original query was: " ++
  quoted originalQuery ++ [10; 10] ++
  lit "Here are the individual research summaries:" ++ [10; 10] ++
  join [10; 10] (numbered 0 summaries) ++ [10; 10] ++
  lit "Create a cohesive 3-5 sentence summary that:" ++ [10] ++
  lit "1. Captures the key themes and patterns across all results" ++ [10] ++
  lit "2. Highlights the most important findings" ++ [10] ++
  lit "3. Notes any significant differences or outliers" ++ [10] ++
  lit "4. Provides actionable insights" ++ [10; 10] ++
  lit "Keep your response concise and directly useful. Do not use bullet points, write in flowing prose.".

(** [aggregateSummaries]: one provider call; on failure the first
    three summaries joined by a space. *)
Definition aggregateSummaries (summaries : list str) (originalQuery : str)
    : Calls str :=
  fun log =>
    let prompt := aggregation_prompt summaries originalQuery in
    match geminiSimpleCompletion (length log) prompt with
    | Returns text => (text, log ++ [prompt])
    | Throws _ => (join [32] (take 3 summaries), log ++ [prompt])
    end.

(** The loop that cuts [summaries] into chunks; [fuel] bounds the
    number of chunks. *)
Fixpoint chunks_of (fuel : nat) (summaries : list str) : list (list str) :=
  match fuel, summaries with
  | S fuel', _ :: _ =>
      take AGGREGATION_CHUNK_SIZE summaries
      :: chunks_of fuel' (drop AGGREGATION_CHUNK_SIZE summaries)
  | _, _ => []
  end.

(** [Promise.all(chunks.map(chunk => aggregateSummaries(chunk, q)))]:
    the calls are issued in the order of the chunks. *)
Fixpoint aggregate_each (chunks : list (list str)) (originalQuery : str)
    : Calls (list str) :=
  match chunks with
  | [] => ret []
  | chunk :: chunks' =>
      seq (aggregateSummaries chunk originalQuery) (fun s =>
      seq (aggregate_each chunks' originalQuery) (fun rest => ret (s :: rest)))
  end.

(** [reduceAggregate] *)
Definition reduceAggregate (summaries : list str) (originalQuery : str)
    : Calls str :=
  if Nat.leb (length summaries) AGGREGATION_CHUNK_SIZE
  then aggregateSummaries summaries originalQuery
  else
    let chunks := chunks_of (length summaries) summaries in
    seq (aggregate_each chunks originalQuery) (fun firstLevelSummaries =>
    aggregateSummaries firstLevelSummaries originalQuery).
End Reduce.

(** A summary of a thousand words. *)
Definition words1000 : str := join [32] (replicate 1000 (lit "word")).

(** The text that [mapSummarize] cuts for a result whose findings are
    strings. *)
Definition with_string_findings (r : ExtractedResearch) : str :=
  match get (lit "key_findings") (details r) with
  | Some (JArr (f :: findings)) =>
      match all_strings (take 3 (f :: findings)) with
      | Some ss => summary r ++ lit " Key findings: " ++ join (lit "; ") ss
      | None => summary r
      end
  | _ => summary r
  end.

End MapReduce.

(* ================================================================== *)
(** * clients/llmOrchestrator.ts *)
(* ================================================================== *)

Module Orchestrator.

Definition MAX_REPAIR_ATTEMPTS : nat := 2.

Inductive LLMProvider : Type := openrouter | gemini.

Inductive role : Type := system | user | assistant.
Record LLMMessage : Type := mkMessage { msg_role : role; content_of : str }.
Record LLMResponse : Type := mkResponse { content : str; model : str }.

(** What [withTimeout(openrouterCompletion(options), TIMEOUT_MS, ...)]
    races against: the primary call settles in time, or not before the
    timer. *)
Inductive timed (A : Type) : Type :=
| InTime (o : outcome A)
| TooLate.
Arguments InTime {A} o.
Arguments TooLate {A}.

(** The provider backends as seen by one research call. *)
Record Providers : Type := mkProviders {
  openrouterCompletion : list LLMMessage -> timed LLMResponse;
  geminiCompletion : list LLMMessage -> outcome LLMResponse;
  (** the repair call of a given attempt, for a given prompt *)
  geminiSimpleCompletion : nat -> str -> outcome str
}.

Record OrchestrationResult : Type := mkOrchestration {
  response : LLMResponse;
  provider : LLMProvider;
  fallbackUsed : bool
}.

Definition withTimeout {A} (p : timed A) (errorMessage : str) : outcome A :=
  match p with
  | InTime o => o
  | TooLate => Throws (mkError errorMessage)
  end.

(** [llmCompletion] *)
Definition llmCompletion (w : Providers) (messages : list LLMMessage)
    : outcome OrchestrationResult :=
  match withTimeout (openrouterCompletion w messages) (lit "OpenRouter timeout") with
  | Returns response' => Returns (mkOrchestration response' openrouter false)
  | Throws error =>
      match geminiCompletion w messages with
      | Returns response' => Returns (mkOrchestration response' gemini true)
      | Throws geminiError =>
          Throws (mkError (lit "All LLM providers failed. OpenRouter: " ++
                           message error ++ lit ", Gemini: " ++ message geminiError))
      end
  end.

(** [createResearchPrompt] of [clients/openrouter.ts]; [entityData] is
    given by its entries. *)
Definition createResearchPrompt (query : str) (entityData : list (str * str))
    : list LLMMessage :=
  let entityInfo :=
    join [10] (map (fun '(key, v) => key ++ lit ": " ++ v) entityData) in
  [ mkMessage user
      (lit "Research the following entity based on this query: " ++
       quoted query ++ [10; 10] ++
       lit "Entity Information:" ++ [10] ++ entityInfo ++ [10; 10] ++
       lit "Respond with a JSON object in this exact format:" ++ [10] ++
     lit "{" ++ [10] ++
     lit "  " ++ quoted (lit "summary") ++ lit ": " ++
       quoted (lit "A concise 2-3 sentence summary of the research findings") ++
       lit "," ++ [10] ++
     lit "  " ++ quoted (lit "details") ++ lit ": {" ++ [10] ++
     lit "    " ++ quoted (lit "key_findings") ++ lit ": [" ++
       quoted (lit "finding 1") ++ lit ", " ++ quoted (lit "finding 2") ++
       lit "]," ++ [10] ++
     lit "    " ++ quoted (lit "relevant_data") ++ lit ": {}" ++ [10] ++
     lit "  }," ++ [10] ++
     lit "  " ++ quoted (lit "sources") ++ lit ": [" ++
       quoted (lit "source1.com") ++ lit ", " ++ quoted (lit "source2.com") ++
       lit "]," ++ [10] ++
     lit "  " ++ quoted (lit "confidence") ++ lit ": 0.85" ++ [10] ++
     lit "}" ++ [10; 10] ++
     lit "The confidence score should be between 0 and 1 based on how reliable the information is." ++ [10] ++
       lit "Remember: Output ONLY the JSON object, nothing else.") ].

Record Research : Type := mkResearch {
  result : ExtractedResearch;
  research_provider : LLMProvider;
  attempts : nat
}.

Definition fallback_result : ExtractedResearch :=
  mkExtracted (lit "Research could not be completed due to processing errors.")
              (JObj []) None num_0_1.

(** The [while] loop of [researchCompletion].  [fuel] counts the
    iterations left: every iteration increments [attempts], so
    [MAX_REPAIR_ATTEMPTS + 1] of them reach the exit of the loop. *)
Fixpoint research_loop (w : Providers) (query : str) (messages : list LLMMessage)
    (fuel attempts : nat) (lastResponse : str) (lastProvider : LLMProvider)
    : Research :=
  match fuel with
  | O => mkResearch fallback_result lastProvider attempts
  | S fuel' =>
      if Nat.ltb attempts (MAX_REPAIR_ATTEMPTS + 1) then
        let attempts := S attempts in
        (* the [try] block up to the extraction *)
        let called : outcome (str * LLMProvider) :=
          if Nat.eqb attempts 1 then
            bind (llmCompletion w messages) (fun r =>
              Returns (content (response r), provider r))
          else
            bind (geminiSimpleCompletion w attempts
                    (createRepairPrompt query lastResponse))
              (fun text => Returns (text, gemini)) in
        match called with
        | Throws _ => research_loop w query messages fuel' attempts lastResponse lastProvider
        | Returns (lastResponse', lastProvider') =>
            match extractResearchResult lastResponse' with
            | Returns (Some extracted) => mkResearch extracted lastProvider' attempts
            | Returns None | Throws _ =>
                research_loop w query messages fuel' attempts lastResponse' lastProvider'
            end
        end
      else mkResearch fallback_result lastProvider attempts
  end.

(** [researchCompletion]: the promise it returns settles with
    [Returns] (fulfilled) or [Throws] (rejected). *)
Definition researchCompletion (w : Providers) (query : str)
    (entityData : list (str * str)) : outcome Research :=
  let messages := createResearchPrompt query entityData in
  Returns (research_loop w query messages (MAX_REPAIR_ATTEMPTS + 1) 0 [] openrouter).

(** ** Notions used in the statements *)

(** Both backends fail at every call: the primary throws or does not
    answer before the timer, the secondary throws. *)
Definition outage (w : Providers) : Prop :=
  (forall m, exists e,
     withTimeout (openrouterCompletion w m) (lit "OpenRouter timeout") = Throws e) /\
  (forall m, exists e, geminiCompletion w m = Throws e) /\
  (forall n p, exists e, geminiSimpleCompletion w n p = Throws e).

(** The research call for an entity, as [researchCompletion] runs it. *)
Definition research (w : Providers) (query : str) (entityData : list (str * str))
    : Research :=
  research_loop w query (createResearchPrompt query entityData)
                (MAX_REPAIR_ATTEMPTS + 1) 0 [] openrouter.

(** ** [batchResearchCompletion] *)

Record Entity : Type := mkEntity {
  entity_id : str;
  entity_data : list (str * str)
}.

(** A call [onProgress(id, result, error)]. *)
Record BatchProgress : Type := mkBatchProgress {
  progress_id : str;
  progress_result : option ExtractedResearch;
  progress_error : option str
}.

Section Batch.
(** The backends as seen by the research call of the entity at an
    index. *)
Variable backends : nat -> Providers.
Variable query : str.

(** What the call number [n] of [onProgress] throws, counted from 0:
    [None] when it returns. *)
Variable onProgress : nat -> option thrown.

(** The [for] loop over the entities from the index [i] on, with the
    [results] map and the calls of [onProgress] so far.  The call of
    [onProgress] with the result stands inside the [try]: what it
    throws is caught, and the [catch] block calls [onProgress] again,
    with [null] and the [message] of what was caught.  What the [catch]
    block throws rejects the promise of [batchResearchCompletion]. *)
Fixpoint batch_loop (i : nat) (entities : list Entity)
    (results : gmap str ExtractedResearch) (reports : list BatchProgress)
    : settled (gmap str ExtractedResearch) * list BatchProgress :=
  match entities with
  | [] => (Fulfilled results, reports)
  | entity :: entities' =>
      (* the [try] block: the map and the calls after it, and what it threw *)
      let '(results', reports', caught) :=
        match researchCompletion (backends i) query (entity_data entity) with
        | Returns r =>
            (<[entity_id entity := result r]> results,
             reports ++ [mkBatchProgress (entity_id entity) (Some (result r)) None],
             onProgress (length reports))
        | Throws error => (results, reports, Some (AnError error))
        end in
      match caught with
      | None => batch_loop (S i) entities' results' reports'
      | Some error =>
          match message_of error with
          | Throws typeError => (Rejected (AnError typeError), reports')
          | Returns message' =>
              let reports'' :=
                reports' ++ [mkBatchProgress (entity_id entity) None message'] in
              match onProgress (length reports') with
              | None => batch_loop (S i) entities' results' reports''
              | Some thrown' => (Rejected thrown', reports'')
              end
          end
      end
  end.

Definition batchResearchCompletion (entities : list Entity)
    : settled (gmap str ExtractedResearch) * list BatchProgress :=
  batch_loop 0 entities ∅ [].
End Batch.

(** The identifier and the result of a report that carries a result. *)
Definition with_result (p : BatchProgress) : option (str * ExtractedResearch) :=
  (fun r => (progress_id p, r)) <$> progress_result p.

(** ** [llmStreamCompletion]: the sentences given to the speech *)

(** The class [[.!?]] *)
Definition is_sentence_end (c : char) : bool := (c =? 46) || (c =? 33) || (c =? 63).

(** [/[.!?]\s+/g] *)
Definition sentenceEndRegex : Regex.regex :=
  Regex.Seq (Regex.Cls is_sentence_end)
            (Regex.Seq (Regex.Cls is_space) (Regex.Star is_space)).

(** [sentenceEndRegex.exec(sentenceBuffer)] from the [lastIndex] at
    which [rest] begins, [skipped] characters further: the index of
    the match, counted from that [lastIndex], and what follows the
    match. *)
Fixpoint exec_from (skipped : nat) (rest : str) : option (nat * str) :=
  match Regex.run false 0 sentenceEndRegex rest None (fun rest' _ => Some (Some rest')) with
  | Some (Some after) => Some (skipped, after)
  | _ =>
      match rest with
      | [] => None
      | _ :: rest' => exec_from (S skipped) rest'
      end
  end.

(** The [while] loop of [onChunk] on what is left of the buffer from
    [lastIndex] on: the sentences given to [onSentence] and what is
    kept in the buffer.  [fuel] bounds the iterations. *)
Fixpoint sentence_loop (fuel : nat) (rest : str) : list str * str :=
  match fuel with
  | O => ([], rest)
  | S fuel' =>
      match exec_from 0 rest with
      | Some (index, after) =>
          let sentence := trim (take (index + 1) rest) in
          let '(sentences, kept) := sentence_loop fuel' after in
          ((if Nat.ltb 10 (length sentence) then [sentence] else []) ++ sentences, kept)
      | None => ([], rest)
      end
  end.

(** The calls of the callbacks given to [llmStreamCompletion]; these
    callbacks are taken to return. *)
Inductive stream_callback : Type :=
| OnChunk (chunk : str)
| OnSentence (sentence : str)
| OnComplete (fullContent : str)
| OnError (error : Error).

(** [wrappedCallbacks.onChunk]: every match moves [lastIndex] forward by
    two characters or more, so [length sentenceBuffer] iterations are
    enough. *)
Definition onChunk (sentenceBuffer chunk : str) : list stream_callback * str :=
  let sentenceBuffer := sentenceBuffer ++ chunk in
  let '(sentences, kept) := sentence_loop (length sentenceBuffer) sentenceBuffer in
  (OnChunk chunk :: map OnSentence sentences, kept).

(** [wrappedCallbacks.onComplete] *)
Definition onComplete (sentenceBuffer fullContent : str) : list stream_callback :=
  (if Nat.ltb 0 (length (trim sentenceBuffer))
   then [OnSentence (trim sentenceBuffer)] else [])
  ++ [OnComplete fullContent].

(** The calls of [wrappedCallbacks.onChunk] for the chunks of a stream,
    one after the other: they share [sentenceBuffer]. *)
Fixpoint stream_chunks (sentenceBuffer : str) (chunks : list str)
    : list stream_callback * str :=
  match chunks with
  | [] => ([], sentenceBuffer)
  | chunk :: chunks' =>
      let '(calls, kept) := onChunk sentenceBuffer chunk in
      let '(calls', kept') := stream_chunks kept chunks' in
      (calls ++ calls', kept')
  end.

(** ** More notions used in the statements *)

Definition sentence_of (c : stream_callback) : option str :=
  match c with OnSentence s => Some s | _ => None end.

Definition chunk_of (c : stream_callback) : option str :=
  match c with OnChunk s => Some s | _ => None end.

(** A sentence as [onChunk] gives it: more than 10 code units, no
    white space at its ends, a mark at its end. *)
Definition spoken (s : str) : Prop :=
  (10 < length s)%nat /\ trim s = s /\
  exists c, last s = Some c /\ is_sentence_end c = true.

End Orchestrator.

(* ================================================================== *)
(** * clients/gemini.ts *)
(* ================================================================== *)

Module Gemini.
Import Orchestrator.

Definition DEFAULT_MODEL : str := lit "gemini-1.5-pro".

Definition STRICT_JSON_SYSTEM : str :=
  lit "You are a research assistant that ONLY outputs valid JSON." ++ [10] ++
  lit "CRITICAL RULES:" ++ [10] ++
  lit "1. Output ONLY a JSON object - no markdown, no explanations, no prose" ++ [10] ++
  lit "2. Do not wrap JSON in code fences (```)" ++ [10] ++
  lit "3. Do not add any text before or after the JSON" ++ [10] ++
  lit "4. Ensure all strings are properly escaped" ++ [10] ++
  lit "5. Use double quotes for all keys and string values" ++ [10; 10] ++
  lit "Your response must be parseable by JSON.parse() without any preprocessing.".

(** The [role] of a message in the format of the provider: ['user'] or
    ['model']. *)
Inductive gemini_role : Type := g_user | g_model.

Record GeminiMessage : Type := mkGemini {
  g_role : gemini_role;
  (** the [text] of each part *)
  parts : list str
}.

(** The loop of [convertToGeminiMessages], with [systemContent]. *)
Fixpoint convert_from (systemContent : str) (messages : list LLMMessage)
    : list GeminiMessage :=
  match messages with
  | [] => []
  | msg :: messages' =>
      match msg_role msg with
      | system =>
          convert_from (systemContent ++ content_of msg ++ [10; 10]) messages'
      | user =>
          let content' :=
            match systemContent with
            | _ :: _ => systemContent ++ content_of msg
            | [] => content_of msg
            end in
          mkGemini g_user [content'] :: convert_from [] messages'
      | assistant =>
          mkGemini g_model [content_of msg] :: convert_from systemContent messages'
      end
  end.

Definition convertToGeminiMessages (messages : list LLMMessage) : list GeminiMessage :=
  convert_from [] messages.

Section Completion.
(** [chat.sendMessage(text)] on a chat started with a history, up to
    [response.text()]. *)
Variable sendMessage : list GeminiMessage -> str -> outcome str.
(** [geminiModel.generateContent(prompt)], up to [response.text()]. *)
Variable generateContent : str -> outcome str.

(** The [TypeError] of [lastMessage.parts] on [undefined]. *)
Definition no_last_message : Error :=
  mkError (lit "Cannot read properties of undefined (reading 'parts')").

(** [geminiCompletion] with the default model. *)
Definition geminiCompletion (messages : list LLMMessage) : outcome LLMResponse :=
  let enhancedMessages := mkMessage system STRICT_JSON_SYSTEM :: messages in
  let geminiMessages := convertToGeminiMessages enhancedMessages in
  let history := take (length geminiMessages - 1) geminiMessages in
  match geminiMessages !! (length geminiMessages - 1)%nat with
  | Some (mkGemini _ (text :: _)) =>
      bind (sendMessage history text) (fun content' =>
        Returns (mkResponse content' DEFAULT_MODEL))
  | _ => Throws no_last_message
  end.

(** [geminiSimpleCompletion] *)
Definition geminiSimpleCompletion (prompt : str) : outcome str :=
  generateContent (STRICT_JSON_SYSTEM ++ [10; 10] ++ prompt).
End Completion.

(** ** Notions used in the statements *)

(** [role] in the format of the provider, for a message that is kept. *)
Definition to_gemini_role (r : role) : option gemini_role :=
  match r with
  | system => None
  | user => Some g_user
  | assistant => Some g_model
  end.

Definition is_system (m : LLMMessage) : bool :=
  match msg_role m with system => true | _ => false end.

(** The system texts as they are put before a user message. *)
Fixpoint preamble (systems : list LLMMessage) : str :=
  match systems with
  | [] => []
  | m :: systems' => content_of m ++ [10; 10] ++ preamble systems'
  end.

End Gemini.

(* ================================================================== *)
(** * utils/rateLimiter.ts *)
(* ================================================================== *)

Module RateLimiter.

Definition DEFAULT_CONCURRENCY : nat := 5.
Definition MAX_RETRIES : nat := 3.
Definition INITIAL_BACKOFF_MS : Z := 1000.

Record RateLimiterOptions : Type := mkOptions {
  concurrency : nat;
  maxRetries : nat;
  initialBackoffMs : Z
}.

Definition default_options : RateLimiterOptions :=
  mkOptions DEFAULT_CONCURRENCY MAX_RETRIES INITIAL_BACKOFF_MS.

(** The test on [lastError.message] in the [catch] block. *)
Definition isRateLimit (lastError : Error) : bool :=
  includes (lit "429") (message lastError)
  || includes (lit "rate limit") (message lastError)
  || includes (lit "too many requests") (message lastError).

(** The argument of [sleep] after the failure [lastError] of the call
    number [attempt], when a retry remains. *)
Definition backoffMs (opts : RateLimiterOptions) (lastError : Error) (attempt : nat) : Z :=
  if isRateLimit lastError
  then (initialBackoffMs opts * 2 ^ Z.of_nat attempt)%Z
  else initialBackoffMs opts.

Section Process.
Context {T R : Type}.
Variable opts : RateLimiterOptions.
Variable items : list T.
(** [processor item index attempt]: how the promise returned by the
    call number [attempt] of [processor(item, index)] settles. *)
Variable processor : T -> nat -> nat -> outcome R.

(** An element of the array that [processWithRetry] resolves with. *)
Record Outcome : Type := mkOutcome {
  item : T;
  result : option R;
  error : option Error
}.

(** ** One task, run on its own

    The [for] loop of the function given to [limit], from the call
    number [attempt]; [fuel] is the number of iterations left. *)
Fixpoint attempt_loop (item' : T) (index fuel attempt : nat)
    (lastError : option Error) : Outcome :=
  match fuel with
  | O => mkOutcome item' None lastError
  | S fuel' =>
      match processor item' index attempt with
      | Returns r => mkOutcome item' (Some r) None
      | Throws e => attempt_loop item' index fuel' (S attempt) (Some e)
      end
  end.

Definition task_outcome (item' : T) (index : nat) : Outcome :=
  attempt_loop item' index (maxRetries opts) 0 None.

(** ** The tasks under the concurrency limit

    What [limit] and the event loop do to the tasks, one step at a
    time, in the runs in which the processor rejects with [Error]s
    only and [onProgress] returns; the module [Any] below has the
    other runs.  A task waits in the queue of [limit], or its processor call
    number [attempt] is in flight, or it sleeps after the failure of
    that call, or it has returned its outcome. *)
Inductive task : Type :=
| Queued
| Running (attempt : nat)
| Sleeping (attempt : nat)
| Done (o : Outcome).

(** What can be observed of a run, in the order in which it happens. *)
Inductive event : Type :=
| Call (item' : T) (index attempt : nat)
| Sleep (index attempt : nat) (ms : Z)
| Progress (completed total : nat) (o : Outcome).

Record state : Type := mkState {
  tasks : list task;
  completed : nat;
  trace : list event
}.

Definition init : state := mkState (replicate (length items) Queued) 0 [].

Definition is_active (t : task) : bool :=
  match t with
  | Running _ | Sleeping _ => true
  | _ => false
  end.

(** The tasks that hold a slot of [limit]. *)
Definition active (st : state) : nat := length (filter is_active (tasks st)).

(** A task returns: [completed++], then [onProgress]. *)
Definition finish (st : state) (i : nat) (o : Outcome) : state :=
  mkState (<[i := Done o]> (tasks st)) (S (completed st))
          (trace st ++ [Progress (S (completed st)) (length items) o]).

Inductive label : Type :=
| Start (i : nat)     (* [limit] takes task [i] from its queue *)
| Settle (i : nat)    (* the processor call of task [i] settles *)
| Wake (i : nat).     (* the timer of [sleep] of task [i] fires *)

(** One step.  The test of [Start] is the contract of [limit], which
    is not code of this repository: no more than [concurrency]
    functions run at a time. *)
Definition step (st : state) (l : label) : option state :=
  match l with
  | Start i =>
      match tasks st !! i, items !! i with
      | Some Queued, Some item' =>
          if Nat.ltb (active st) (concurrency opts) then
            if Nat.ltb 0 (maxRetries opts) then
              Some (mkState (<[i := Running 0]> (tasks st)) (completed st)
                            (trace st ++ [Call item' i 0]))
            else Some (finish st i (mkOutcome item' None None))
          else None
      | _, _ => None
      end
  | Settle i =>
      match tasks st !! i, items !! i with
      | Some (Running attempt), Some item' =>
          match processor item' i attempt with
          | Returns r => Some (finish st i (mkOutcome item' (Some r) None))
          | Throws lastError =>
              if Nat.ltb (S attempt) (maxRetries opts) then
                Some (mkState (<[i := Sleeping attempt]> (tasks st)) (completed st)
                              (trace st ++ [Sleep i attempt (backoffMs opts lastError attempt)]))
              else Some (finish st i (mkOutcome item' None (Some lastError)))
          end
      | _, _ => None
      end
  | Wake i =>
      match tasks st !! i, items !! i with
      | Some (Sleeping attempt), Some item' =>
          Some (mkState (<[i := Running (S attempt)]> (tasks st)) (completed st)
                        (trace st ++ [Call item' i (S attempt)]))
      | _, _ => None
      end
  end.

(** A run: the steps of a schedule one after the other. *)
Fixpoint run (st : state) (schedule : list label) : option state :=
  match schedule with
  | [] => Some st
  | l :: schedule' =>
      match step st l with
      | Some st' => run st' schedule'
      | None => None
      end
  end.

Definition outcome_of (t : task) : option Outcome :=
  match t with
  | Done o => Some o
  | _ => None
  end.

(** The array of [Promise.all]: defined once every task has returned,
    in the order of the tasks. *)
Definition results (st : state) : option (list Outcome) :=
  mapM outcome_of (tasks st).

(** [processWithRetry] under a schedule: the array it resolves with
    and what was observed, when the schedule is one of its complete
    runs. *)
Definition processWithRetry (schedule : list label)
    : option (list Outcome * list event) :=
  match run init schedule with
  | Some st =>
      match results st with
      | Some outs => Some (outs, trace st)
      | None => None
      end
  | None => None
  end.

(** The schedule that runs the tasks one after the other. *)
Fixpoint task_schedule (item' : T) (i fuel attempt : nat) : list label :=
  match fuel with
  | O => []
  | S fuel' =>
      Settle i ::
      match processor item' i attempt with
      | Returns _ => []
      | Throws _ =>
          if Nat.ltb (S attempt) (maxRetries opts)
          then Wake i :: task_schedule item' i fuel' (S attempt)
          else []
      end
  end.

Fixpoint sequential_from (i : nat) (l : list T) : list label :=
  match l with
  | [] => []
  | item' :: l' =>
      Start i :: task_schedule item' i (maxRetries opts) 0 ++ sequential_from (S i) l'
  end.

Definition sequential : list label := sequential_from 0 items.

(** ** What a task is expected to show in a trace

    The calls and sleeps of the task of [item'] at [index] from the call
    number [attempt] on, as the [for] loop orders them. *)
Fixpoint task_events (item' : T) (index fuel attempt : nat) : list event :=
  match fuel with
  | O => []
  | S fuel' =>
      Call item' index attempt ::
      match processor item' index attempt with
      | Returns _ => []
      | Throws lastError =>
          if Nat.ltb (S attempt) (maxRetries opts)
          then Sleep index attempt (backoffMs opts lastError attempt)
               :: task_events item' index fuel' (S attempt)
          else []
      end
  end.

(** The calls and sleeps of the task at [index]. *)
Definition about (index : nat) (e : event) : bool :=
  match e with
  | Call _ j _ | Sleep j _ _ => Nat.eqb j index
  | Progress _ _ _ => false
  end.

Fixpoint observed_of (index : nat) (tr : list event) : list event :=
  match tr with
  | [] => []
  | e :: tr' =>
      if about index e then e :: observed_of index tr' else observed_of index tr'
  end.

Definition is_call (e : event) : bool :=
  match e with Call _ _ _ => true | _ => false end.

(** The number of processor calls made for the task at [index]. *)
Fixpoint calls_of (index : nat) (tr : list event) : nat :=
  match tr with
  | [] => 0
  | e :: tr' =>
      (if about index e && is_call e then 1 else 0) + calls_of index tr'
  end.

(** ** Notions used in the proofs *)

Local Open Scope nat_scope.

(** What is still to be observed of a task after its call number
    [attempt] was made. *)
Definition after_call (item' : T) (i attempt : nat) : list event :=
  match processor item' i attempt with
  | Returns _ => []
  | Throws lastError =>
      if Nat.ltb (S attempt) (maxRetries opts)
      then Sleep i attempt (backoffMs opts lastError attempt)
           :: task_events item' i (maxRetries opts - S attempt) (S attempt)
      else []
  end.

(** What is still to be observed of a task in a given state. *)
Definition remaining (item' : T) (i : nat) (t : task) : list event :=
  match t with
  | Queued => task_events item' i (maxRetries opts) 0
  | Running a => after_call item' i a
  | Sleeping a => task_events item' i (maxRetries opts - S a) (S a)
  | Done _ => []
  end.

(** The state of a task agrees with the loop run on its own. *)
Definition task_ok (item' : T) (i : nat) (t : task) : Prop :=
  match t with
  | Queued => True
  | Running a =>
      a < maxRetries opts /\
      exists le, task_outcome item' i = attempt_loop item' i (maxRetries opts - a) a le
  | Sleeping a =>
      S a < maxRetries opts /\
      exists e, processor item' i a = Throws e /\
        task_outcome item' i = attempt_loop item' i (maxRetries opts - S a) (S a) (Some e)
  | Done o => o = task_outcome item' i
  end.

(** The invariant of a run: for every task, what was observed of it,
    followed by what is still to be observed, is what its loop shows. *)
Definition consistent (st : state) : Prop :=
  length (tasks st) = length items /\
  forall i item' t, items !! i = Some item' -> tasks st !! i = Some t ->
    observed_of i (trace st) ++ remaining item' i t
    = task_events item' i (maxRetries opts) 0
    /\ task_ok item' i t.

(** The number of steps a task can still take. *)
Definition weight (t : task) : nat :=
  match t with
  | Queued => 2 * maxRetries opts + 2
  | Running a => 2 * (maxRetries opts - a) + 1
  | Sleeping a => 2 * (maxRetries opts - a)
  | Done _ => 0
  end.

Definition work_left (st : state) : nat := sum_list (map weight (tasks st)).

(** An event about a task of the list. *)
Definition in_range (e : event) : Prop :=
  match e with
  | Call item' i _ => items !! i = Some item'
  | Sleep i _ _ => i < length items
  | Progress _ _ o => exists i, items !! i = Some (item o)
  end.

Definition is_queued (t : task) : bool := match t with Queued => true | _ => false end.
Definition is_done (t : task) : bool := match t with Done _ => true | _ => false end.

(** The calls and the progress reports for an item that satisfies [P]. *)
Fixpoint calls_with (P : T -> bool) (tr : list event) : nat :=
  match tr with
  | [] => 0
  | Call item' _ _ :: tr' => (if P item' then 1 else 0) + calls_with P tr'
  | _ :: tr' => calls_with P tr'
  end.

Fixpoint progress_with (P : T -> bool) (tr : list event) : nat :=
  match tr with
  | [] => 0
  | Progress _ _ o :: tr' => (if P (item o) then 1 else 0) + progress_with P tr'
  | _ :: tr' => progress_with P tr'
  end.

(** The tasks in a state selected by [q] whose item satisfies [P]. *)
Fixpoint tally (P : T -> bool) (q : task -> bool) (ts : list task) (its : list T) : nat :=
  match ts, its with
  | t :: ts', item' :: its' => (if P item' && q t then 1 else 0) + tally P q ts' its'
  | _, _ => 0
  end.

(** The shape of an event when no call fails. *)
Definition succeeds (e : event) : Prop :=
  match e with
  | Call _ _ _ => True
  | Sleep _ _ _ => False
  | Progress _ _ o =>
      error o = None /\
      exists i a r, processor (item o) i a = Returns r /\ result o = Some r
  end.

(** The invariant of a run in which no call fails. *)
Definition smooth (P : T -> bool) (st : state) : Prop :=
  Forall succeeds (trace st) /\
  Forall (fun t => match t with Sleeping _ => False | _ => True end) (tasks st) /\
  calls_with P (trace st) = tally P (fun t => negb (is_queued t)) (tasks st) items /\
  progress_with P (trace st) = tally P is_done (tasks st) items.
End Process.

Arguments Outcome : clear implicits.
Arguments task : clear implicits.
Arguments event : clear implicits.
Arguments state : clear implicits.

(** ** [processAll]

    [processWithRetry] followed by
    [results.filter(r => r.result !== null).map(r => r.result)].  A
    processor may itself resolve with [null]; [is_null] tells which of
    its values are. *)
Section ProcessAll.
Context {T R : Type}.
Variable opts : RateLimiterOptions.
Variable items : list T.
Variable processor : T -> nat -> nat -> outcome R.
Variable is_null : R -> bool.

(** What the filter and the map keep of one outcome. *)
Definition kept (o : Outcome T R) : option R :=
  match result o with
  | Some r => if is_null r then None else Some r
  | None => None
  end.

Definition processAll (schedule : list label) : option (list R * list (event T R)) :=
  match processWithRetry opts items processor schedule with
  | Some (results', observed) => Some (omap kept results', observed)
  | None => None
  end.
End ProcessAll.

(** ** [chunkArray] and [processInChunks] *)
Section Chunks.
Context {T R : Type}.
Local Open Scope nat_scope.

(** The loop [for (let i = 0; i < array.length; i += size)] of
    [chunkArray] from the index [i] on, for a size that is a natural
    number.  [fuel] bounds the iterations: [None] tells that the loop
    is still running when it is used up. *)
Fixpoint chunk_loop (fuel : nat) (array : list T) (size i : nat) : option (list (list T)) :=
  if Nat.ltb i (length array) then
    match fuel with
    | O => None
    | S fuel' =>
        cons (take (i + size - i) (drop i array)) <$> chunk_loop fuel' array size (i + size)
    end
  else Some [].

(** [chunkArray]: an iteration with a size of one or more moves [i]
    forward, so [length array] iterations are enough then. *)
Definition chunkArray (array : list T) (size : nat) : option (list (list T)) :=
  chunk_loop (length array) array size 0.

(** The promise of [processor(item)] for the item at the index [i] of
    [items], as it settles. *)
Variable processor : nat -> T -> outcome R.
(** The rejection that [Promise.all] passes on among those of a chunk:
    the first one in time. *)
Variable first_rejection : list Error -> Error.

(** What can be observed of [processInChunks]. *)
Inductive chunk_event : Type :=
| CallItem (i : nat) (item' : T)
| SleepBetween (ms : Z).

(** [chunk.map(processor)]: the calls, in the order of the chunk, and
    how their promises settle. *)
Fixpoint call_chunk (i : nat) (chunk : list T) : list chunk_event * list (outcome R) :=
  match chunk with
  | [] => ([], [])
  | item' :: chunk' =>
      let '(calls, settled) := call_chunk (S i) chunk' in
      (CallItem i item' :: calls, processor i item' :: settled)
  end.

Fixpoint rejections (settled : list (outcome R)) : list Error :=
  match settled with
  | [] => []
  | Throws e :: settled' => e :: rejections settled'
  | Returns _ :: settled' => rejections settled'
  end.

Fixpoint fulfilments (settled : list (outcome R)) : list R :=
  match settled with
  | [] => []
  | Returns r :: settled' => r :: fulfilments settled'
  | Throws _ :: settled' => fulfilments settled'
  end.

(** [Promise.all] *)
Definition promise_all (settled : list (outcome R)) : outcome (list R) :=
  match rejections settled with
  | [] => Returns (fulfilments settled)
  | e :: es => Throws (first_rejection (e :: es))
  end.

(** The loop over the chunks; [i] is the index in [items] of the first
    item of the next chunk. *)
Fixpoint chunks_loop (delayBetweenChunks : Z) (i : nat) (chunks : list (list T))
    (results' : list R) (observed : list chunk_event)
    : outcome (list R) * list chunk_event :=
  match chunks with
  | [] => (Returns results', observed)
  | chunk :: chunks' =>
      let '(calls, settled) := call_chunk i chunk in
      match promise_all settled with
      | Returns chunkResults =>
          let observed' :=
            match chunks' with
            | [] => observed ++ calls
            | _ :: _ => observed ++ calls ++ [SleepBetween delayBetweenChunks]
            end in
          chunks_loop delayBetweenChunks (i + length chunk) chunks'
                      (results' ++ chunkResults) observed'
      | Throws e => (Throws e, observed ++ calls)
      end
  end.

(** [processInChunks]: [None] when [chunkArray] does not return. *)
Definition processInChunks (items : list T) (chunkSize : nat) (delayBetweenChunks : Z)
    : option (outcome (list R) * list chunk_event) :=
  match chunkArray items chunkSize with
  | Some chunks => Some (chunks_loop delayBetweenChunks 0 chunks [] [])
  | None => None
  end.

(** ** Notions used in the statements *)

Definition called (e : chunk_event) : option nat :=
  match e with
  | CallItem i _ => Some i
  | SleepBetween _ => None
  end.

Definition slept (e : chunk_event) : option Z :=
  match e with
  | SleepBetween ms => Some ms
  | CallItem _ _ => None
  end.
End Chunks.

Arguments chunk_event : clear implicits.

(** ** More notions used in the statements *)

(** The counters of the progress reports of a trace, in order. *)
Definition reported {T R} (e : event T R) : option (nat * nat) :=
  match e with
  | Progress c t _ => Some (c, t)
  | _ => None
  end.

(** ** [processWithRetry], whatever is thrown

    The runs above are those in which the processor rejects with
    [Error]s only and [onProgress] returns.  Here the processor may
    reject with any value and [onProgress] may throw: the call of
    [onProgress] after a success stands inside the [try], so what it
    throws is caught like a failure of the processor; the test of the
    [catch] block throws on a value without a [message]; and what the
    function given to [limit] throws rejects [Promise.all]. *)
Module Any.
Section Process.
Context {T R : Type}.
Variable opts : RateLimiterOptions.
Variable items : list T.
(** [processor item index attempt]: how the promise returned by the
    call number [attempt] of [processor(item, index)] settles. *)
Variable processor : T -> nat -> nat -> settled R.
(** What the call number [n] of [onProgress] throws, counted from 0:
    [None] when it returns, and always when no callback is given. *)
Variable onProgress : nat -> option thrown.

(** [lastError = error as Error] followed by the test
    [lastError.message.includes('429') || ...]: an [Error] goes on as
    [lastError], on another value the test throws a [TypeError]. *)
Definition as_lastError (error : thrown) : outcome Error :=
  match error with
  | AnError e => Returns e
  | NoMessage => Throws no_includes_of_undefined
  | ThrownUndefined => Throws no_message_of_undefined
  | ThrownNull => Throws no_message_of_null
  end.

(** A task waits in the queue of [limit], or its processor call number
    [attempt] is in flight, or it sleeps after the failure of that
    call, or its function has returned an outcome, or it has thrown. *)
Inductive task : Type :=
| Queued
| Running (attempt : nat)
| Sleeping (attempt : nat)
| Done (o : Outcome T R)
| Failed (x : thrown).

(** [rejected] is what [Promise.all] is rejected with: what the first
    function that threw has thrown. *)
Record state : Type := mkState {
  tasks : list task;
  completed : nat;
  trace : list (event T R);
  rejected : option thrown
}.

Definition init : state := mkState (replicate (length items) Queued) 0 [] None.

Definition is_active (t : task) : bool :=
  match t with
  | Running _ | Sleeping _ => true
  | _ => false
  end.

Definition active (st : state) : nat := length (filter is_active (tasks st)).

(** [completed++; onProgress?.(completed, total, item, ...)]: the state
    after the call, and what the call threw.  Every call follows an
    increment, so the calls made before are [completed] many. *)
Definition report (st : state) (o : Outcome T R) : state * option thrown :=
  (mkState (tasks st) (S (completed st))
           (trace st ++ [Progress (S (completed st)) (length items) o]) (rejected st),
   onProgress (completed st)).

(** The function of task [i] returns [o]. *)
Definition returns (st : state) (i : nat) (o : Outcome T R) : state :=
  mkState (<[i := Done o]> (tasks st)) (completed st) (trace st) (rejected st).

(** The function of task [i] throws [x]. *)
Definition throws (st : state) (i : nat) (x : thrown) : state :=
  mkState (<[i := Failed x]> (tasks st)) (completed st) (trace st)
          (match rejected st with
           | Some first => Some first
           | None => Some x
           end).

(** After the loop: [completed++], [onProgress] with [null] and
    [lastError], [return]. *)
Definition exhausted (st : state) (i : nat) (item' : T) (lastError : option Error)
    : state :=
  let o := mkOutcome item' None lastError in
  match report st o with
  | (st', None) => returns st' i o
  | (st', Some x) => throws st' i x
  end.

(** The [catch] block for what was caught in the iteration [attempt]. *)
Definition caught (st : state) (i : nat) (item' : T) (attempt : nat) (error : thrown)
    : state :=
  match as_lastError error with
  | Throws typeError => throws st i (AnError typeError)
  | Returns lastError =>
      if Nat.ltb (S attempt) (maxRetries opts) then
        mkState (<[i := Sleeping attempt]> (tasks st)) (completed st)
                (trace st ++ [Sleep i attempt (backoffMs opts lastError attempt)])
                (rejected st)
      else exhausted st i item' (Some lastError)
  end.

(** One step.  The test of [Start] is the contract of [limit]: no more
    than [concurrency] functions run at a time. *)
Definition step (st : state) (l : label) : option state :=
  match l with
  | Start i =>
      match tasks st !! i, items !! i with
      | Some Queued, Some item' =>
          if Nat.ltb (active st) (concurrency opts) then
            if Nat.ltb 0 (maxRetries opts) then
              Some (mkState (<[i := Running 0]> (tasks st)) (completed st)
                            (trace st ++ [Call item' i 0]) (rejected st))
            else Some (exhausted st i item' None)
          else None
      | _, _ => None
      end
  | Settle i =>
      match tasks st !! i, items !! i with
      | Some (Running attempt), Some item' =>
          match processor item' i attempt with
          | Fulfilled r =>
              let o := mkOutcome item' (Some r) None in
              match report st o with
              | (st', None) => Some (returns st' i o)
              | (st', Some x) => Some (caught st' i item' attempt x)
              end
          | Rejected x => Some (caught st i item' attempt x)
          end
      | _, _ => None
      end
  | Wake i =>
      match tasks st !! i, items !! i with
      | Some (Sleeping attempt), Some item' =>
          Some (mkState (<[i := Running (S attempt)]> (tasks st)) (completed st)
                        (trace st ++ [Call item' i (S attempt)]) (rejected st))
      | _, _ => None
      end
  end.

Fixpoint run (st : state) (schedule : list label) : option state :=
  match schedule with
  | [] => Some st
  | l :: schedule' =>
      match step st l with
      | Some st' => run st' schedule'
      | None => None
      end
  end.

Definition outcome_of (t : task) : option (Outcome T R) :=
  match t with
  | Done o => Some o
  | _ => None
  end.

(** How the promise of [processWithRetry] has settled, if it has:
    [Promise.all] is rejected by the first function that throws, and
    fulfilled once every function has returned. *)
Definition settlement (st : state) : option (settled (list (Outcome T R))) :=
  match rejected st with
  | Some x => Some (Rejected x)
  | None => Fulfilled <$> mapM outcome_of (tasks st)
  end.

(** [processWithRetry] under a schedule: how it has settled and what
    was observed, when it has settled by the end of the schedule. *)
Definition processWithRetry (schedule : list label)
    : option (settled (list (Outcome T R)) * list (event T R)) :=
  match run init schedule with
  | Some st =>
      match settlement st with
      | Some s => Some (s, trace st)
      | None => None
      end
  | None => None
  end.

Definition is_done (t : task) : bool := match t with Done _ => true | _ => false end.
End Process.

Arguments task : clear implicits.
Arguments state : clear implicits.
End Any.

(** ** The two models side by side *)

(** A processor of the runs above among those of [Any]. *)
Definition as_outcome {R} (s : settled R) : outcome R :=
  match s with
  | Fulfilled r => Returns r
  | Rejected (AnError e) => Throws e
  | Rejected _ => Throws (mkError [])
  end.

Definition lift_task {T R} (t : task T R) : Any.task T R :=
  match t with
  | Queued => Any.Queued
  | Running a => Any.Running a
  | Sleeping a => Any.Sleeping a
  | Done o => Any.Done o
  end.

Definition lift {T R} (st : state T R) : Any.state T R :=
  Any.mkState (lift_task <$> tasks st) (completed st) (trace st) None.

(** The invariant of the counter of [onProgress]: the reports so far
    are numbered from 1 on, no more tasks have returned than reports
    were made, and as many when [onProgress] never throws. *)
Definition counted {T R} (items : list T) (onProgress : nat -> option thrown)
    (st : Any.state T R) : Prop :=
  length (Any.tasks st) = length items /\
  omap reported (Any.trace st)
  = (fun c => (c, length items)) <$> List.seq 1 (Any.completed st) /\
  (length (filter Any.is_done (Any.tasks st)) <= Any.completed st)%nat /\
  ((forall n, onProgress n = None) ->
   Any.completed st = length (filter Any.is_done (Any.tasks st))).

End RateLimiter.

(* ================================================================== *)
(** * workers/researchWorker.ts *)
(* ================================================================== *)

Module ResearchWorker.
Import Orchestrator RateLimiter.

Inductive row_status : Type := row_pending | row_processing | row_completed | row_error.

(** [ResearchResult] of [types.ts] *)
Record ResearchResult : Type := mkResult {
  r_summary : str;
  r_details : value;
  r_sources : option (list str);
  r_confidence : spec_float;
  timestamp : Z
}.

(** [SpreadsheetRow] of [types.ts] *)
Record SpreadsheetRow : Type := mkRow {
  id : str;
  data : list (str * str);
  status : row_status;
  research : option ResearchResult
}.

(** The [status] of a progress event: ['processing'], ['completed'] or
    ['error']. *)
Inductive progress_status : Type := processing | completed | error_status.

Record WorkerProgress : Type := mkProgress {
  rowId : str;
  p_status : progress_status;
  p_result : option ResearchResult;
  p_error : option str
}.

(** What the processor given to [processWithRetry] resolves with. *)
Record Processed : Type := mkProcessed {
  row : SpreadsheetRow;
  research_of : ExtractedResearch;
  provider_of : LLMProvider
}.

(** [toResearchResult] at the time [now]. *)
Definition toResearchResult (extracted : ExtractedResearch) (now : Z) : ResearchResult :=
  mkResult (summary extracted) (details extracted) (sources extracted)
           (confidence extracted) now.

Section Worker.
(** The backends as seen by the processor call number [attempt] of
    the row at [index]. *)
Variable providers : nat -> nat -> Providers.
(** [Date.now()] at its successive calls. *)
Variable clock : nat -> Z.
Variable query : str.
Variable rows : list SpreadsheetRow.

(** The worker keeps the defaults of [createRateLimiter] but for the
    concurrency that it sets itself. *)
Definition rateLimiter : RateLimiterOptions :=
  mkOptions 5 MAX_RETRIES INITIAL_BACKOFF_MS.

(** How the processor of [processRows] settles, after its
    [processing] event. *)
Definition processor (row' : SpreadsheetRow) (index attempt : nat) : outcome Processed :=
  bind (researchCompletion (providers index attempt) query (data row'))
    (fun r => Returns (mkProcessed row' (Orchestrator.result r) (research_provider r))).

(** The state that the callbacks of [processRows] act on: the events
    given to [options.onProgress], the [results] map and the number
    of readings of the clock. *)
Record worker_state : Type := mkWorker {
  events : list WorkerProgress;
  results_map : gmap str ResearchResult;
  ticks : nat
}.

Definition emit (p : WorkerProgress) (ws : worker_state) : worker_state :=
  mkWorker (events ws ++ [p]) (results_map ws) (ticks ws).

(** [results.set(id, toResearchResult(extracted))] *)
Definition store (id' : str) (extracted : ExtractedResearch) (ws : worker_state)
    : worker_state * ResearchResult :=
  let researchResult := toResearchResult extracted (clock (ticks ws)) in
  (mkWorker (events ws) (<[id' := researchResult]> (results_map ws)) (S (ticks ws)),
   researchResult).

(** The effect of the two callbacks: the processor notifies the start
    of each of its calls, and [onProgress] reports how a row ended. *)
Definition on_event (e : event SpreadsheetRow Processed) (ws : worker_state)
    : worker_state :=
  match e with
  | Call row' _ _ => emit (mkProgress (id row') processing None None) ws
  | Sleep _ _ _ => ws
  | Progress _ _ o =>
      match error o, result o with
      | None, Some processed =>
          let '(ws', researchResult) :=
            store (id (item o)) (research_of processed) ws in
          emit (mkProgress (id (item o)) completed (Some researchResult) None) ws'
      | err, _ =>
          let text :=
            match err with
            | Some (mkError (c :: m)) => c :: m
            | _ => lit "Unknown error"
            end in
          emit (mkProgress (id (item o)) error_status None (Some text)) ws
      end
  end.

(** The loop after [processWithRetry] that collects the successful
    results again. *)
Definition collect (o : Outcome SpreadsheetRow Processed) (ws : worker_state)
    : worker_state :=
  match result o with
  | Some processed => fst (store (id (item o)) (research_of processed) ws)
  | None => ws
  end.

(** [processRows] under a schedule of the rate limiter: the state in
    which it returns [results_map]. *)
Definition processRows (schedule : list label) : option worker_state :=
  match processWithRetry rateLimiter rows processor schedule with
  | Some (processedResults, observed) =>
      let ws := foldl (fun ws e => on_event e ws) (mkWorker [] ∅ 0) observed in
      Some (foldl (fun ws o => collect o ws) ws processedResults)
  | None => None
  end.
End Worker.

(** [processSingleRow]: how its promise settles, [None] for [null],
    and the events given to [options.onProgress].  [now] is
    [Date.now()] when the result is made, and [onProgress n] is what the
    call number [n] of [options.onProgress] throws, counted from 0,
    [None] when it returns.  Both reports stand inside the [try]: what
    they throw is caught, and the [catch] block reports an error with
    the [message] of what was caught and returns [null]. *)
Definition processSingleRow (w : Providers) (now : Z) (onProgress : nat -> option thrown)
    (query : str) (row' : SpreadsheetRow)
    : settled (option ResearchResult) * list WorkerProgress :=
  let started := mkProgress (id row') processing None None in
  (* the [try] block: its events, and what it returned or threw *)
  let '(events, tried) :=
    match onProgress 0%nat with
    | Some thrown' => ([started], inr thrown')
    | None =>
        match researchCompletion w query (data row') with
        | Throws error => ([started], inr (AnError error))
        | Returns r =>
            let researchResult := toResearchResult (Orchestrator.result r) now in
            let finished := mkProgress (id row') completed (Some researchResult) None in
            match onProgress 1%nat with
            | Some thrown' => ([started; finished], inr thrown')
            | None => ([started; finished], inl researchResult)
            end
        end
    end in
  match tried with
  | inl researchResult => (Fulfilled (Some researchResult), events)
  | inr error =>
      match message_of error with
      | Throws typeError => (Rejected (AnError typeError), events)
      | Returns message' =>
          let events' := events ++ [mkProgress (id row') error_status None message'] in
          match onProgress (length events) with
          | Some thrown' => (Rejected thrown', events')
          | None => (Fulfilled None, events')
          end
      end
  end.

(** ** Notions used in the statements *)

Local Open Scope nat_scope.

(** The number of events of a status for a row identifier. *)
Fixpoint count_events (x : str) (s : progress_status) (evs : list WorkerProgress) : nat :=
  match evs with
  | [] => 0
  | p :: evs' =>
      (if str_eqb (rowId p) x &&
          match p_status p, s with
          | processing, processing | completed, completed
          | error_status, error_status => true
          | _, _ => false
          end
       then 1 else 0) + count_events x s evs'
  end.

(** The number of rows with an identifier. *)
Fixpoint count_rows (x : str) (rows : list SpreadsheetRow) : nat :=
  match rows with
  | [] => 0
  | r :: rows' => (if str_eqb (id r) x then 1 else 0) + count_rows x rows'
  end.

(** An event of a run of the worker in which every call succeeded. *)
Definition succeeded (e : event SpreadsheetRow Processed) : Prop :=
  match e with
  | Call _ _ _ => True
  | Sleep _ _ _ => False
  | Progress _ _ o => error o = None /\ is_Some (result o)
  end.

(** The row identifier [k] is mapped to a result made of [extracted]. *)
Definition holds (extracted : ExtractedResearch) (k : str) (ws : worker_state) : Prop :=
  exists now, results_map ws !! k = Some (toResearchResult extracted now).

End ResearchWorker.

(* ================================================================== *)
(** * Inputs of the examples *)
(* ================================================================== *)

Module Examples.
Import MapReduce Orchestrator RateLimiter ResearchWorker.

(** ** Model outputs *)

(** [{"a":1}] and [{"b":2}] *)
Definition object_a : str := lit "{" ++ quoted (lit "a") ++ lit ":1}".
Definition object_b : str := lit "{" ++ quoted (lit "b") ++ lit ":2}".

(** An answer with two objects, the wanted one second. *)
Definition two_objects : str := object_a ++ lit " " ++ object_b.

(** An answer in prose around the object, and an answer in a fence. *)
Definition in_prose : str :=
  lit "Sure, the object you asked for is " ++ object_b ++ lit " and nothing else.".
Definition in_fence : str :=
  lit "```json" ++ [10] ++ object_b ++ [10] ++ lit "```".

(** The array [[{"b":2}]] *)
Definition in_array : str := lit "[" ++ object_b ++ lit "]".

(** [{"summary":"x","confidence":5}] *)
Definition confidence_five : str :=
  lit "{" ++ quoted (lit "summary") ++ lit ":" ++ quoted (lit "x") ++ lit "," ++
  quoted (lit "confidence") ++ lit ":5}".

(** [{"summary":"","confidence":"high"}] *)
Definition confidence_high : str :=
  lit "{" ++ quoted (lit "summary") ++ lit ":" ++ quoted [] ++ lit "," ++
  quoted (lit "confidence") ++ lit ":" ++ quoted (lit "high") ++ lit "}".

(** [{"summary":[]}] and [{"summary":{"toString":1}}] *)
Definition summary_array : str := lit "{" ++ quoted (lit "summary") ++ lit ":[]}".
Definition summary_object : str :=
  lit "{" ++ quoted (lit "summary") ++ lit ":{" ++ quoted (lit "toString") ++ lit ":1}}".

(** A text with braces and no balanced region. *)
Definition unbalanced : str := lit "the set } of { all".

(** ** A batch for the rate limiter: the item 20 is always refused *)

Definition three_items : list nat := [10; 20; 30]%nat.

Definition refuse_twenty (item' index attempt : nat) : outcome nat :=
  if Nat.eqb item' 20 then Throws (mkError (lit "HTTP 429 too many requests"))
  else Returns (item' + attempt)%nat.

(** A run in which the tasks overlap. *)
Definition overlapping : list label :=
  [Start 0; Start 1; Settle 1; Settle 0; Start 2; Wake 1; Settle 2; Settle 1;
   Wake 1; Settle 1]%nat.

Definition overlapping_state : state nat nat :=
  match run default_options three_items refuse_twenty (init three_items) overlapping with
  | Some st => st
  | None => init three_items
  end.

Definition overlapping_outcomes : list (Outcome nat nat) :=
  match results overlapping_state with
  | Some outs => outs
  | None => []
  end.

(** ** Rejections that are not errors, and callbacks that throw *)

(** The processor of [refuse_twenty], and no callback. *)
Definition refuse_twenty_settled (item' index attempt : nat) : settled nat :=
  if Nat.eqb item' 20
  then Rejected (AnError (mkError (lit "HTTP 429 too many requests")))
  else Fulfilled (item' + attempt)%nat.

Definition no_callback (n : nat) : option thrown := None.

(** A processor that rejects with a string. *)
Definition reject_with_string (item' index attempt : nat) : settled nat :=
  Rejected NoMessage.

(** A processor that never fails, with a callback that always throws,
    and with one that throws at its first call only. *)
Definition add_attempt (item' index attempt : nat) : settled nat :=
  Fulfilled (item' + attempt)%nat.

Definition socket_closed : Error := mkError (lit "socket closed").

Definition throwing_callback (n : nat) : option thrown := Some (AnError socket_closed).

Definition throwing_once (n : nat) : option thrown :=
  if Nat.eqb n 0 then Some (AnError socket_closed) else None.

(** The run of one item whose first report throws: the item is
    processed again. *)
Definition retried_state : Any.state nat nat :=
  match Any.run default_options [10%nat] add_attempt throwing_once (Any.init [10%nat])
          [Start 0; Settle 0; Wake 0; Settle 0]%nat with
  | Some st => st
  | None => Any.init [10%nat]
  end.

(** ** A batch of one row while both backends are down *)

Definition down : Providers :=
  mkProviders (fun _ => InTime (Throws (mkError (lit "Request failed with status code 503"))))
              (fun _ => Throws (mkError (lit "fetch failed")))
              (fun _ _ => Throws (mkError (lit "fetch failed"))).

Definition one_row : SpreadsheetRow :=
  mkRow (lit "row-1") [(lit "name", lit "Acme")] row_pending None.

Definition tick (n : nat) : Z := 1700000000000 + Z.of_nat n.

Definition one_row_schedule : list label :=
  sequential rateLimiter [one_row] (processor (fun _ _ => down) (lit "revenue")).

Definition one_row_state : worker_state :=
  match processRows (fun _ _ => down) tick (lit "revenue") [one_row] one_row_schedule with
  | Some ws => ws
  | None => mkWorker [] ∅ 0
  end.

(** Two entities of a batch. *)
Definition two_entities : list Entity :=
  [mkEntity (lit "acme") [(lit "name", lit "Acme")];
   mkEntity (lit "globex") [(lit "name", lit "Globex")]].

(** ** More inputs *)

(** [{"summary":"Acme makes anvils."}], and a primary backend that
    answers it at once. *)
Definition summary_only : str :=
  lit "{" ++ quoted (lit "summary") ++ lit ":" ++ quoted (lit "Acme makes anvils.") ++
  lit "}".

Definition summary_only_result : ExtractedResearch :=
  mkExtracted (lit "Acme makes anvils.") (JObj []) None num_0_5.

(** [{"summary":"Acme makes anvils.","details":{"__proto__":1,"a":2}}],
    and the result after validation: [details] is [{"a":2}]. *)
Definition with_proto : str :=
  lit "{" ++ quoted (lit "summary") ++ lit ":" ++ quoted (lit "Acme makes anvils.") ++
  lit "," ++ quoted (lit "details") ++ lit ":{" ++ quoted (lit "__proto__") ++
  lit ":1," ++ quoted (lit "a") ++ lit ":2}}".

Definition with_proto_result : ExtractedResearch :=
  mkExtracted (lit "Acme makes anvils.")
              (JObj [(lit "a", JNum (number_of_decimal false 2 0))]) None num_0_5.

Definition answering : Providers :=
  mkProviders
    (fun _ => InTime (Returns (mkResponse summary_only (lit "openai/gpt-4o-2024-08-06"))))
    (fun _ => Throws (mkError (lit "fetch failed")))
    (fun _ _ => Throws (mkError (lit "fetch failed"))).

(** A result with two findings that are strings. *)
Definition two_findings : ExtractedResearch :=
  mkExtracted (lit "Acme makes anvils.")
    (JObj [(lit "key_findings",
            JArr [JStr (lit "founded in 1920"); JStr (lit "based in Ohio")])])
    None num_0_5.

(** No value of the processors of these examples is [null]. *)
Definition never_null (r : nat) : bool := false.

(** Five items in chunks of two: the item 40 is refused. *)
Definition five_items : list nat := [10; 20; 30; 40; 50]%nat.

Definition add_index (i item' : nat) : outcome nat := Returns (item' + i)%nat.

Definition refuse_forty (i item' : nat) : outcome nat :=
  if Nat.eqb item' 40 then Throws (mkError (lit "Request failed with status code 500"))
  else Returns (item' + i)%nat.

Definition first_of (rejected : list Error) : Error :=
  match rejected with
  | e :: _ => e
  | [] => mkError []
  end.

(** A stream of two chunks: a sentence cut in two, a second sentence,
    and the beginning of a third. *)
Definition two_chunks : list str :=
  [lit "Acme makes an"; lit "vils. It is very old! Yes"].

(** A system message before a question, and backends that echo what
    they are sent. *)
Definition be_brief : LLMMessage := mkMessage system (lit "Be brief.").

Definition echo_chat (history : list Gemini.GeminiMessage) (text : str) : outcome str :=
  Returns text.

Definition echo (prompt : str) : outcome str := Returns prompt.

End Examples.

(* ================================================================== *)
(** * The walk of [findJSONObject] and the parser *)
(* ================================================================== *)

Import Regex.

Lemma neutral_nil : neutral [].
Proof. by intros tail i d Hd. Qed.

Lemma neutral_app u v : neutral u -> neutral v -> neutral (u ++ v).
Proof.
  intros Hu Hv tail i d Hd. rewrite <- app_assoc, Hu, Hv by done.
  f_equal. rewrite length_app. lia.
Qed.

Lemma scan_plain c s i d :
  plain c -> scan (c :: s) i d false false = scan s (S i) d false false.
Proof.
  intros (H1 & H2 & H3). simpl.
  rewrite andb_false_r.
  destruct (N.eqb_spec c 34); [done|].
  destruct (N.eqb_spec c 123); [done|].
  by destruct (N.eqb_spec c 125).
Qed.

Lemma neutral_cons c u : plain c -> neutral u -> neutral (c :: u).
Proof.
  intros Hc Hu tail i d Hd. simpl app. rewrite scan_plain, Hu by done.
  f_equal. simpl. lia.
Qed.

Lemma neutral_plain u : Forall plain u -> neutral u.
Proof.
  induction 1 as [|c u Hc _ IH]; [apply neutral_nil|by apply neutral_cons].
Qed.

Lemma scan_app_Some s t i d b e n :
  scan s i d b e = Some n -> scan (s ++ t) i d b e = Some n.
Proof.
  revert i d b e. induction s as [|c s IH]; intros i d b e; simpl; [done|].
  repeat (case_match; try done); auto.
Qed.

Lemma scan_shift s i k d b e :
  scan s (k + i)%nat d b e = (fun n => (k + n)%nat) <$> scan s i d b e.
Proof.
  revert i d b e. induction s as [|c s IH]; intros i d b e; simpl; [done|].
  replace (S (k + i)) with (k + S i)%nat by lia.
  repeat (case_match; try done); auto.
Qed.

(** *** White space, numbers and literals *)

Lemma json_ws_plain c : is_json_ws c = true -> plain c.
Proof.
  unfold is_json_ws, plain. intros H.
  repeat split; intros ->; done.
Qed.

Lemma skip_ws_split s :
  exists w, s = w ++ skip_ws s /\ Forall (fun c => is_json_ws c = true) w.
Proof.
  induction s as [|c s (w & Hw & Hall)]; simpl.
  - by exists [].
  - destruct (is_json_ws c) eqn:Hc.
    + exists (c :: w). split; [by rewrite <- app_comm_cons, <- Hw|by constructor].
    + by exists [].
Qed.

Lemma skip_ws_neutral s : exists w, s = w ++ skip_ws s /\ neutral w.
Proof.
  destruct (skip_ws_split s) as (w & Hw & Hall). exists w. split; [done|].
  apply neutral_plain. eapply Forall_impl; [exact Hall|]. apply json_ws_plain.
Qed.

Lemma digit_plain c : is_digit c = true -> plain c.
Proof.
  unfold is_digit, plain. intros H. repeat split; intros ->; done.
Qed.

Lemma span_digits_split s ds r :
  span_digits s = (ds, r) -> s = ds ++ r /\ Forall plain ds.
Proof.
  revert ds r. induction s as [|c s IH]; intros ds r; simpl.
  - by intros [= <- <-].
  - destruct (is_digit c) eqn:Hc.
    + destruct (span_digits s) as [ds' r'] eqn:E. intros [= <- <-].
      destruct (IH ds' r' eq_refl) as [-> H]. split; [done|].
      constructor; [by apply digit_plain|done].
    + by intros [= <- <-].
Qed.

Lemma plain_before_refl rest : plain_before rest rest.
Proof. by exists []. Qed.

Lemma plain_before_cons rest c x :
  plain c -> plain_before rest x -> plain_before rest (c :: x).
Proof. intros Hc (u & -> & Hu). exists (c :: u). split; [done|by constructor]. Qed.

Lemma plain_before_app rest ds x :
  Forall plain ds -> plain_before rest x -> plain_before rest (ds ++ x).
Proof.
  intros Hd (u & -> & Hu). exists (ds ++ u).
  split; [by rewrite app_assoc|by apply Forall_app].
Qed.

Lemma parse_number_plain s n rest :
  parse_number s = Some (n, rest) -> plain_before rest s.
Proof.
  unfold parse_number. intros H.
  repeat (case_match; simplify_eq);
  repeat match goal with
  | E : span_digits _ = _ |- _ => apply span_digits_split in E as [? ?]
  | E : (_ =? _) = true |- _ => apply N.eqb_eq in E
  | E : (_ || _) = true |- _ => apply orb_true_iff in E as [E|E]
  | E : is_digit _ = true |- _ => apply digit_plain in E
  end; simplify_eq;
  repeat first
    [ apply plain_before_refl
    | match goal with E : ?x = _ ++ _ |- plain_before _ ?x => rewrite E end
    | apply plain_before_app; [done|]
    | apply plain_before_cons; [done || (repeat split; done)|] ].
Qed.

(** *** String literals *)

Lemma scan_string_char c s i d :
  c <> 92 -> c <> 34 ->
  scan (c :: s) i d true false = scan s (S i) d true false.
Proof.
  intros H1 H2. simpl.
  destruct (N.eqb_spec c 92); [done|]. simpl.
  by destruct (N.eqb_spec c 34).
Qed.

Lemma scan_string_escape e s i d :
  scan (92 :: e :: s) i d true false = scan s (S (S i)) d true false.
Proof. done. Qed.

Lemma scan_string_quote s i d :
  scan (34 :: s) i d true false = scan s (S i) d false false.
Proof. done. Qed.

Lemma string_tail_char c u :
  c <> 92 -> c <> 34 -> string_tail u -> string_tail (c :: u).
Proof.
  intros H1 H2 Hu tail i d. simpl app. rewrite scan_string_char, Hu by done.
  f_equal. simpl. lia.
Qed.

Lemma string_tail_escape e u : string_tail u -> string_tail (92 :: e :: u).
Proof.
  intros Hu tail i d. simpl app. rewrite scan_string_escape, Hu.
  f_equal. simpl. lia.
Qed.

Lemma string_tail_quote : string_tail [34].
Proof. intros tail i d. done. Qed.

Lemma hex_value_char c v : hex_value c = Some v -> c <> 92 /\ c <> 34.
Proof.
  unfold hex_value, is_digit. intros H. split; intros ->; done.
Qed.

Lemma parse_string_body_tail s body rest :
  parse_string_body s = Some (body, rest) ->
  exists u, s = u ++ rest /\ string_tail u.
Proof.
  remember (length s) as n eqn:Hn. revert s body rest Hn.
  induction n as [n IH] using lt_wf_ind. intros s body rest -> H.
  destruct s as [|c s1]; [done|]. simpl in H.
  destruct (N.eqb_spec c 34) as [->|Hq].
  { injection H as <- <-. exists [34]. split; [done|apply string_tail_quote]. }
  destruct (N.eqb_spec c 92) as [->|Hb].
  - destruct s1 as [|e s2]; [done|].
    destruct (N.eqb_spec e 117) as [->|Hu].
    + destruct s2 as [|h1 [|h2 [|h3 [|h4 s3]]]]; try done.
      destruct (hex_value h1) as [v1|] eqn:E1; [|done].
      destruct (hex_value h2) as [v2|] eqn:E2; [|done].
      destruct (hex_value h3) as [v3|] eqn:E3; [|done].
      destruct (hex_value h4) as [v4|] eqn:E4; [|done].
      destruct (parse_string_body s3) as [[body' rest']|] eqn:E; [|done].
      injection H as <- <-.
      destruct (IH (length s3)) with (s := s3) (body := body') (rest := rest')
        as (u & -> & Hu); [simpl; lia|done|done|].
      apply hex_value_char in E1 as [], E2 as [], E3 as [], E4 as [].
      exists (92 :: 117 :: h1 :: h2 :: h3 :: h4 :: u). split; [done|].
      apply string_tail_escape. by repeat apply string_tail_char.
    + match type of H with
      | match ?x with _ => _ end = _ => destruct x as [u0|]; [|done]
      end.
      destruct (parse_string_body s2) as [[body' rest']|] eqn:E; [|done].
      injection H as <- <-.
      destruct (IH (length s2)) with (s := s2) (body := body') (rest := rest')
        as (u & -> & Hu'); [simpl; lia|done|done|].
      exists (92 :: e :: u). split; [done|]. by apply string_tail_escape.
  - destruct (c <? 32); [done|].
    destruct (parse_string_body s1) as [[body' rest']|] eqn:E; [|done].
    injection H as <- <-.
    destruct (IH (length s1)) with (s := s1) (body := body') (rest := rest')
      as (u & -> & Hu'); [simpl; lia|done|done|].
    exists (c :: u). split; [done|]. by apply string_tail_char.
Qed.

(** A string literal, from its opening quote. *)
Lemma neutral_string u : string_tail u -> neutral (34 :: u).
Proof.
  intros Hu tail i d Hd. simpl app.
  change (scan (34 :: u ++ tail) i d false false)
    with (scan (u ++ tail) (S i) d true false).
  rewrite Hu. f_equal. simpl. lia.
Qed.

(** *** Values *)

Lemma closes_close : closes [125].
Proof.
  intros tail i d Hd. simpl.
  replace (d + 1 - 1)%Z with d by lia. done.
Qed.

Lemma closes_app w u : neutral w -> closes u -> closes (w ++ u).
Proof.
  intros Hw Hu tail i d Hd. rewrite <- app_assoc, Hw, Hu by lia.
  rewrite length_app.
  by replace (length u + (length w + i))%nat with (length w + length u + i)%nat by lia.
Qed.

Lemma scan_open s i d :
  scan (123 :: s) i d false false = scan s (S i) (d + 1) false false.
Proof. done. Qed.

Lemma neutral_object u : closes u -> neutral (123 :: u).
Proof.
  intros Hu tail i d Hd. simpl app. rewrite scan_open, Hu by lia.
  replace (d =? 0)%Z with false by (symmetry; apply Z.eqb_neq; lia).
  f_equal. simpl. lia.
Qed.

Lemma object_text_object u : closes u -> object_text (123 :: u).
Proof.
  intros Hu tail i. simpl app. rewrite scan_open, Hu by lia.
  simpl. f_equal. lia.
Qed.

Lemma consumes_neutral_trans s mid rest :
  consumes neutral s mid -> consumes neutral mid rest -> consumes neutral s rest.
Proof.
  intros (u & -> & Hu) (v & -> & Hv). exists (u ++ v).
  split; [by rewrite app_assoc|by apply neutral_app].
Qed.

Lemma consumes_closes_trans s mid rest :
  consumes neutral s mid -> consumes closes mid rest -> consumes closes s rest.
Proof.
  intros (u & -> & Hu) (v & -> & Hv). exists (u ++ v).
  split; [by rewrite app_assoc|by apply closes_app].
Qed.

Lemma consumes_skip_ws s : consumes neutral s (skip_ws s).
Proof. apply skip_ws_neutral. Qed.

Lemma consumes_plain c s : plain c -> consumes neutral (c :: s) s.
Proof.
  intros Hc. exists [c]. split; [done|]. apply neutral_cons; [done|apply neutral_nil].
Qed.

Lemma consumes_close s : consumes closes (125 :: s) s.
Proof. exists [125]. split; [done|apply closes_close]. Qed.

Lemma consumes_string s1 body rest :
  parse_string_body s1 = Some (body, rest) -> consumes neutral (34 :: s1) rest.
Proof.
  intros (u & -> & Hu)%parse_string_body_tail. exists (34 :: u).
  split; [done|by apply neutral_string].
Qed.

Lemma consumes_number s n rest :
  parse_number s = Some (n, rest) -> consumes neutral s rest.
Proof.
  intros (u & -> & Hu)%parse_number_plain. exists u. split; [done|by apply neutral_plain].
Qed.

Lemma startsWith_split p s : startsWith p s = true -> s = p ++ drop (length p) s.
Proof.
  revert s. induction p as [|a p IH]; intros [|b s]; simpl; try done.
  intros [->%N.eqb_eq H]%andb_true_iff. f_equal. by apply IH.
Qed.

Lemma consumes_literal p s :
  Forall plain p -> startsWith p s = true -> consumes neutral s (drop (length p) s).
Proof.
  intros Hp Hs. exists p. split; [by apply startsWith_split|by apply neutral_plain].
Qed.

Lemma parse_walk fuel :
  (forall s v rest, parse_value fuel s = Some (v, rest) ->
     consumes (value_text v) s rest /\ (head s = Some 123 -> is_object v)) /\
  (forall acc s v rest, parse_elements fuel acc s = Some (v, rest) ->
     consumes neutral s rest /\ is_array v) /\
  (forall acc s v rest, parse_members fuel acc s = Some (v, rest) ->
     consumes closes s rest /\ is_object v).
Proof.
  induction fuel as [|fuel (IHv & IHe & IHm)]; [done|].
  split; [|split].
  - (* a value *)
    intros s v rest H. cbn [parse_value] in H. destruct s as [|c s1]; [done|].
    destruct (N.eqb_spec c 123) as [->|Hobj].
    { (* an object *)
      assert (consumes closes s1 rest /\ is_object v) as [(u & -> & Hu) [m ->]].
      { pose proof (consumes_skip_ws s1) as Hws.
        destruct (skip_ws s1) as [|d s2]; [done|].
        destruct (N.eqb_spec d 125) as [->|Hd].
        - injection H as <- <-. split; [|by eexists].
          eapply consumes_closes_trans; [exact Hws|apply consumes_close].
        - destruct (IHm _ _ _ _ H) as [Hm Hv]. split; [|done].
          eapply consumes_closes_trans; [exact Hws|exact Hm]. }
      split; [|by eexists].
      exists (123 :: u). split; [done|]. split; [by apply neutral_object|].
      split; [done|by apply object_text_object]. }
    assert (consumes neutral (c :: s1) rest /\ ~ is_object v) as [(u & Hs & Hu) Hv].
    { destruct (N.eqb_spec c 91) as [->|Harr].
      { (* an array *)
        assert (consumes neutral s1 rest /\ is_array v) as [Hin [l ->]].
        { pose proof (consumes_skip_ws s1) as Hws.
          destruct (skip_ws s1) as [|d s2]; [done|].
          destruct (N.eqb_spec d 93) as [->|Hd].
          - injection H as <- <-. split; [|by eexists].
            eapply consumes_neutral_trans; [exact Hws|]. by apply consumes_plain.
          - destruct (IHe _ _ _ _ H) as [He Hv]. split; [|done].
            eapply consumes_neutral_trans; [exact Hws|exact He]. }
        split; [|by intros [m ?]].
        eapply consumes_neutral_trans; [|exact Hin]. by apply consumes_plain. }
      destruct (N.eqb_spec c 34) as [->|Hstr].
      { destruct (parse_string_body s1) as [[body rest']|] eqn:E; [|done].
        injection H as <- <-. split; [|by intros [m ?]]. by eapply consumes_string. }
      destruct (startsWith (lit "true") (c :: s1)) eqn:Et.
      { injection H as <- <-. split; [|by intros [m ?]].
        apply (consumes_literal (lit "true")); [|done]. by repeat constructor. }
      destruct (startsWith (lit "false") (c :: s1)) eqn:Ef.
      { injection H as <- <-. split; [|by intros [m ?]].
        apply (consumes_literal (lit "false")); [|done]. by repeat constructor. }
      destruct (startsWith (lit "null") (c :: s1)) eqn:En.
      { injection H as <- <-. split; [|by intros [m ?]].
        apply (consumes_literal (lit "null")); [|done]. by repeat constructor. }
      destruct (parse_number (c :: s1)) as [[n rest']|] eqn:E; [|done].
      injection H as <- <-. split; [|by intros [m ?]]. by eapply consumes_number. }
    split; [|simpl; congruence].
    exists u. split; [done|]. split; [done|].
    assert (head u <> Some 123) as Hhead.
    { destruct u as [|c' u]; [done|]. simpl in *. injection Hs as -> _. congruence. }
    destruct v; try done. exfalso. apply Hv. by eexists.
  - (* the elements of an array *)
    intros acc s v rest H. cbn [parse_elements] in H.
    destruct (parse_value fuel s) as [[v1 rest1]|] eqn:E1; [|done].
    destruct (IHv _ _ _ E1) as [(u1 & -> & Hu1 & _) _].
    assert (consumes neutral (u1 ++ rest1) rest1) as H1 by (by exists u1).
    pose proof (consumes_skip_ws rest1) as Hws.
    destruct (skip_ws rest1) as [|d s2]; [done|].
    destruct (N.eqb_spec d 44) as [->|Hd].
    + destruct (IHe _ _ _ _ H) as [He Hv]. split; [|done].
      eapply consumes_neutral_trans; [exact H1|].
      eapply consumes_neutral_trans; [exact Hws|].
      eapply consumes_neutral_trans; [by apply consumes_plain|].
      eapply consumes_neutral_trans; [apply consumes_skip_ws|exact He].
    + destruct (N.eqb_spec d 93) as [->|Hd']; [|done].
      injection H as <- <-. split; [|by eexists].
      eapply consumes_neutral_trans; [exact H1|].
      eapply consumes_neutral_trans; [exact Hws|]. by apply consumes_plain.
  - (* the members of an object *)
    intros acc s v rest H. cbn [parse_members] in H. destruct s as [|q s1]; [done|].
    destruct (N.eqb_spec q 34) as [->|Hq]; [|done].
    destruct (parse_string_body s1) as [[key rest0]|] eqn:Ek; [|done].
    pose proof (consumes_string _ _ _ Ek) as Hkey.
    pose proof (consumes_skip_ws rest0) as Hws0.
    destruct (skip_ws rest0) as [|d s2]; [done|].
    destruct (N.eqb_spec d 58) as [->|Hd]; [|done].
    pose proof (consumes_skip_ws s2) as Hws1.
    destruct (parse_value fuel (skip_ws s2)) as [[v1 rest1]|] eqn:E1; [|done].
    destruct (IHv _ _ _ E1) as [(u1 & Hu1eq & Hu1 & _) _].
    assert (consumes neutral (skip_ws s2) rest1) as H1 by (by exists u1).
    pose proof (consumes_skip_ws rest1) as Hws2.
    assert (consumes neutral (34 :: s1) (skip_ws rest1)) as Hfront.
    { eapply consumes_neutral_trans; [exact Hkey|].
      eapply consumes_neutral_trans; [exact Hws0|].
      eapply consumes_neutral_trans; [by apply consumes_plain|].
      eapply consumes_neutral_trans; [exact Hws1|].
      eapply consumes_neutral_trans; [exact H1|exact Hws2]. }
    destruct (skip_ws rest1) as [|g s3]; [done|].
    destruct (N.eqb_spec g 44) as [->|Hg].
    + destruct (IHm _ _ _ _ H) as [Hm Hv]. split; [|done].
      eapply consumes_closes_trans; [exact Hfront|].
      eapply consumes_closes_trans; [by apply consumes_plain|].
      eapply consumes_closes_trans; [apply consumes_skip_ws|exact Hm].
    + destruct (N.eqb_spec g 125) as [->|Hg']; [|done].
      injection H as <- <-. split; [|by eexists].
      eapply consumes_closes_trans; [exact Hfront|apply consumes_close].
Qed.

(** *** Regions *)

Lemma has_region_here s tail :
  head s = Some 123 -> is_Some (scan s 0 0 false false) -> has_region (s ++ tail) = true.
Proof.
  destruct s as [|c s]; [done|]. intros [= ->] [n Hn]. simpl app.
  cbn [has_region]. apply orb_true_iff. left. rewrite N.eqb_refl, andb_true_l.
  apply bool_decide_eq_true. exists n.
  by apply (scan_app_Some (123 :: s) tail).
Qed.

Lemma has_region_app pre s : has_region s = true -> has_region (pre ++ s) = true.
Proof.
  intros H. induction pre as [|c pre IH]; [done|].
  simpl app. cbn [has_region]. rewrite IH. apply orb_true_r.
Qed.

Lemma has_region_app_l s tail : has_region s = true -> has_region (s ++ tail) = true.
Proof.
  induction s as [|c s IH]; [done|]. cbn [has_region].
  intros [[Hc Hs]%andb_true_iff|H]%orb_true_iff.
  - apply N.eqb_eq in Hc as ->. apply bool_decide_eq_true in Hs.
    by apply (has_region_here (123 :: s)).
  - simpl app. cbn [has_region]. rewrite (IH H). apply orb_true_r.
Qed.

Lemma has_region_infix pre s post :
  has_region s = true -> has_region (pre ++ s ++ post) = true.
Proof. intros H. by apply has_region_app, has_region_app_l. Qed.

(** The text of an object, parsed from its opening brace, is a region. *)
Lemma parse_value_object fuel s v rest :
  parse_value fuel s = Some (v, rest) -> head s = Some 123 ->
  exists u m, s = u ++ rest /\ v = JObj m /\ head u = Some 123 /\ object_text u.
Proof.
  intros H Hs. destruct (parse_walk fuel) as [Hv _].
  destruct (Hv _ _ _ H) as [(u & -> & Hn & Hu) Hobj].
  destruct (Hobj Hs) as [m ->]. destruct Hu as [Hh Ho]. by exists u, m.
Qed.

Lemma parse_object_head fuel s m rest :
  parse_value fuel s = Some (JObj m, rest) -> head s = Some 123.
Proof.
  intros H. destruct (parse_walk fuel) as [Hv _].
  destruct (Hv _ _ _ H) as [(u & -> & Hn & Hh & Ho) _].
  by destruct u.
Qed.

Lemma object_text_region u tail :
  head u = Some 123 -> object_text u -> has_region (u ++ tail) = true.
Proof.
  intros Hh Ho. apply has_region_here; [done|].
  specialize (Ho [] 0%nat). rewrite app_nil_r in Ho. eauto.
Qed.

(** A text that [JSON.parse] reads as an object holds a region; so does
    any text read from an opening brace. *)
Lemma parse_region s v :
  parse s = Some v -> (is_object v \/ head s = Some 123) -> has_region s = true.
Proof.
  unfold parse. intros H Hv.
  destruct (skip_ws_split s) as (w & Hw & Hall).
  destruct (parse_value _ (skip_ws s)) as [[v' rest]|] eqn:E; [|done].
  assert (v' = v) as -> by (destruct (skip_ws rest); [by injection H|done]).
  assert (head (skip_ws s) = Some 123) as Hh.
  { destruct Hv as [[m ->]|Hs]; [by eapply parse_object_head|].
    destruct w as [|c w]; [by rewrite Hw in Hs|].
    rewrite Hw in Hs. injection Hs as ->. by inversion Hall. }
  destruct (parse_value_object _ _ _ _ E Hh) as (u & m & Hu & -> & Hhu & Ho).
  rewrite Hw, Hu. apply has_region_app. by apply object_text_region.
Qed.

Lemma skip_ws_length s : (length (skip_ws s) <= length s)%nat.
Proof.
  destruct (skip_ws_split s) as (w & Hw & _).
  rewrite Hw at 2. rewrite length_app. lia.
Qed.

Lemma parse_string_body_length s body rest :
  parse_string_body s = Some (body, rest) -> (length rest <= length s)%nat.
Proof.
  intros H. apply parse_string_body_tail in H as (u & -> & _).
  rewrite length_app. lia.
Qed.

Lemma parse_number_length s n rest :
  parse_number s = Some (n, rest) -> (length rest <= length s)%nat.
Proof.
  intros H. apply parse_number_plain in H as (u & -> & _).
  rewrite length_app. lia.
Qed.

(** The fuel is no limit: a result obtained with some fuel is obtained
    with any fuel above the number of characters read. *)
Lemma parse_fuel fuel :
  (forall s v rest, parse_value fuel s = Some (v, rest) ->
     (length rest <= length s)%nat /\
     forall m, (length s - length rest < m)%nat -> parse_value m s = Some (v, rest)) /\
  (forall acc s v rest, parse_elements fuel acc s = Some (v, rest) ->
     (length rest <= length s)%nat /\
     forall m, (length s - length rest < m)%nat ->
       parse_elements m acc s = Some (v, rest)) /\
  (forall acc s v rest, parse_members fuel acc s = Some (v, rest) ->
     (length rest <= length s)%nat /\
     forall m, (length s - length rest < m)%nat ->
       parse_members m acc s = Some (v, rest)).
Proof.
  induction fuel as [|fuel (IHv & IHe & IHm)]; [done|].
  split; [|split].
  - intros s v rest H. cbn [parse_value] in H.
    destruct s as [|c s1]; [done|].
    assert (forall m, parse_value (S m) (c :: s1) =
      if c =? 123 then
        match skip_ws s1 with
        | d :: s2 => if d =? 125 then Some (JObj [], s2)
                     else parse_members m [] (d :: s2)
        | [] => None
        end
      else if c =? 91 then
        match skip_ws s1 with
        | d :: s2 => if d =? 93 then Some (JArr [], s2)
                     else parse_elements m [] (d :: s2)
        | [] => None
        end
      else parse_value 1 (c :: s1)) as Hshape.
    { intros m. cbn [parse_value]. by repeat case_match. }
    pose proof (skip_ws_length s1) as Hws.
    destruct (c =? 123) eqn:Hobj.
    { destruct (skip_ws s1) as [|d s2] eqn:Es; [done|]. simpl in Hws.
      destruct (d =? 125) eqn:Hd.
      - injection H as <- <-. split; [simpl; lia|].
        intros [|m] Hm; [lia|]. by rewrite Hshape.
      - apply IHm in H as [Hlen Hfuel]. simpl in Hlen. split; [simpl; lia|].
        intros [|m] Hm; [lia|]. rewrite Hshape. cbv beta iota.
        apply Hfuel. simpl in *. lia. }
    destruct (c =? 91) eqn:Harr.
    { destruct (skip_ws s1) as [|d s2] eqn:Es; [done|]. simpl in Hws.
      destruct (d =? 93) eqn:Hd.
      - injection H as <- <-. split; [simpl; lia|].
        intros [|m] Hm; [lia|]. by rewrite Hshape.
      - apply IHe in H as [Hlen Hfuel]. simpl in Hlen. split; [simpl; lia|].
        intros [|m] Hm; [lia|]. rewrite Hshape. cbv beta iota.
        apply Hfuel. simpl in *. lia. }
    assert (parse_value 1 (c :: s1) = Some (v, rest)) as H1.
    { cbn [parse_value]. by rewrite Hobj, Harr. }
    assert (length rest <= length (c :: s1))%nat as Hlen.
    { destruct (c =? 34) eqn:Hq.
      - destruct (parse_string_body s1) as [[body r]|] eqn:Eb; [|done].
        injection H as <- <-. apply parse_string_body_length in Eb. simpl; lia.
      - repeat case_match; simplify_eq;
          try (rewrite length_drop; lia).
        by eapply parse_number_length. }
    split; [done|].
    intros [|m] Hm; [lia|]. by rewrite Hshape.
  - intros acc s v rest H. cbn [parse_elements] in H.
    destruct (parse_value fuel s) as [[v0 rest0]|] eqn:Ev; [|done].
    apply IHv in Ev as [Hlen0 Hfuel0].
    pose proof (skip_ws_length rest0) as Hws.
    destruct (skip_ws rest0) as [|d s2] eqn:Es; [done|]. simpl in Hws.
    destruct (d =? 44) eqn:Hc.
    + apply IHe in H as [Hlen Hfuel].
      pose proof (skip_ws_length s2) as Hws2.
      split; [lia|]. intros [|m] Hm; [lia|]. cbn [parse_elements].
      rewrite Hfuel0 by lia. rewrite Es, Hc. apply Hfuel. lia.
    + destruct (d =? 93) eqn:Hd; [|done]. injection H as <- <-.
      split; [lia|]. intros [|m] Hm; [lia|]. cbn [parse_elements].
      rewrite Hfuel0 by lia. by rewrite Es, Hc, Hd.
  - intros acc s v rest H. cbn [parse_members] in H.
    destruct s as [|q s1]; [done|].
    destruct (q =? 34) eqn:Hq; [|done].
    destruct (parse_string_body s1) as [[key r]|] eqn:Eb; [|done].
    pose proof (parse_string_body_length _ _ _ Eb) as Hb.
    pose proof (skip_ws_length r) as Hws.
    destruct (skip_ws r) as [|d s2] eqn:Es; [done|]. simpl in Hws.
    destruct (d =? 58) eqn:Hd; [|done].
    pose proof (skip_ws_length s2) as Hws2.
    destruct (parse_value fuel (skip_ws s2)) as [[v0 rest0]|] eqn:Ev; [|done].
    apply IHv in Ev as [Hlen0 Hfuel0].
    pose proof (skip_ws_length rest0) as Hws0.
    destruct (skip_ws rest0) as [|g s3] eqn:Es0; [done|]. simpl in Hws0.
    destruct (g =? 44) eqn:Hc.
    + apply IHm in H as [Hlen Hfuel].
      pose proof (skip_ws_length s3) as Hws3.
      split; [simpl; lia|]. intros [|m] Hm; [lia|]. cbn [parse_members].
      rewrite Hq, Eb, Es, Hd. simpl in Hm.
      rewrite Hfuel0 by lia. rewrite Es0, Hc. apply Hfuel. lia.
    + destruct (g =? 125) eqn:Hg; [|done]. injection H as <- <-.
      split; [simpl; lia|]. intros [|m] Hm; [lia|]. cbn [parse_members].
      rewrite Hq, Eb, Es, Hd. simpl in Hm.
      rewrite Hfuel0 by lia. by rewrite Es0, Hc, Hg.
Qed.

(** [parse] is the parser without a limit: what the descent finds with
    any fuel, [parse] finds. *)
Lemma parse_any_fuel fuel text v rest :
  parse_value fuel (skip_ws text) = Some (v, rest) ->
  parse text = match skip_ws rest with [] => Some v | _ => None end.
Proof.
  intros H. destruct (parse_fuel fuel) as (Hv & _ & _).
  apply Hv in H as [Hlen Hfuel]. unfold parse.
  rewrite Hfuel; [done|]. pose proof (skip_ws_length text). lia.
Qed.

(* ================================================================== *)
(** * What the patterns capture *)
(* ================================================================== *)

Lemma infix_refl w : infix w w.
Proof. exists [], []. by rewrite app_nil_r. Qed.

Lemma infix_trans a b c : infix a b -> infix b c -> infix a c.
Proof.
  intros (x & y & ->) (x' & y' & ->). exists (x' ++ x), (y ++ y').
  by rewrite <- !app_assoc.
Qed.

Lemma trimStart_suffix s : exists a, s = a ++ trimStart s.
Proof.
  induction s as [|c s [a IH]]; simpl; [by exists []|].
  destruct (is_space c); [exists (c :: a); by rewrite <- app_comm_cons, <- IH|by exists []].
Qed.

Lemma trim_infix s : infix (trim s) s.
Proof.
  unfold trim, trimEnd.
  destruct (trimStart_suffix s) as [a Ha].
  destruct (trimStart_suffix (rev (trimStart s))) as [b Hb].
  exists a, (rev b). rewrite Ha at 1. f_equal.
  rewrite <- (rev_involutive (trimStart s)) at 1. rewrite Hb at 1.
  by rewrite rev_app_distr.
Qed.

Lemma has_region_of_infix c w : infix c w -> has_region c = true -> has_region w = true.
Proof. intros (a & b & ->). apply has_region_infix. Qed.

Section MatcherFacts.
Variable ignoreCase : bool.
Variable total : nat.
Variable whole : str.

Lemma suffix_tail (x : char) rest : (x :: rest) `suffix_of` whole -> rest `suffix_of` whole.
Proof. intros [a ->]. exists (a ++ [x]). by rewrite <- app_assoc. Qed.

Lemma star_greedy_faithful p k :
  faithful whole k -> faithful whole (fun rest cap => star_greedy p rest cap k).
Proof.
  intros Hk rest. induction rest as [|x rest IH]; intros cap c Hs Hc; simpl.
  - by apply Hk.
  - destruct (p x); [|by apply Hk].
    destruct (star_greedy p rest cap k) as [r|] eqn:E.
    + intros [= ->]. apply (IH cap c); [by eapply suffix_tail|done|done].
    + by apply Hk.
Qed.

Lemma star_lazy_faithful p k :
  faithful whole k -> faithful whole (fun rest cap => star_lazy p rest cap k).
Proof.
  intros Hk rest. induction rest as [|x rest IH]; intros cap c Hs Hc; simpl.
  - destruct (k [] cap) as [r|] eqn:E; [|done]. intros [= ->]. by eapply Hk.
  - destruct (k (x :: rest) cap) as [r|] eqn:E.
    + intros [= ->]. by eapply Hk.
    + destruct (p x); [|done]. apply IH; [by eapply suffix_tail|done].
Qed.

Lemma run_faithful r k :
  faithful whole k -> faithful whole (fun rest cap => run ignoreCase total r rest cap k).
Proof.
  revert k. induction r as [x|p| |a IHa b IHb|a IHa b IHb|a IHa|p|p|a IHa| |];
    intros k Hk rest cap c Hs Hc; simpl.
  - destruct rest as [|y rest]; [done|].
    destruct (_ =? _); [|done]. apply Hk; [by eapply suffix_tail|done].
  - destruct rest as [|y rest]; [done|].
    destruct (p y); [|done]. apply Hk; [by eapply suffix_tail|done].
  - by apply Hk.
  - apply (IHa _ (IHb k Hk)); done.
  - destruct (run _ _ a rest cap k) as [r|] eqn:E.
    + intros [= ->]. by apply (IHa k Hk rest cap).
    + by apply (IHb k Hk).
  - destruct (run _ _ a rest cap k) as [r|] eqn:E.
    + intros [= ->]. by apply (IHa k Hk rest cap).
    + by apply Hk.
  - by apply star_greedy_faithful.
  - by apply star_lazy_faithful.
  - apply IHa; [|done|done]. intros rest' cap' c' Hs' _. apply Hk; [done|].
    intros c'' [= <-]. destruct Hs as [a0 ->].
    exists a0, (drop (length rest - length rest') rest).
    by rewrite take_drop.
  - destruct (Nat.eqb _ _); [|done]. by apply Hk.
  - destruct rest; [|done]. by apply Hk.
Qed.

Lemma search_faithful r s c :
  s `suffix_of` whole ->
  search ignoreCase total r s = Some (Some c) -> infix c whole.
Proof.
  induction s as [|x s IH]; intros Hs; simpl.
  - destruct (run _ _ r [] None _) as [m|] eqn:E; [|done]. intros [= ->].
    eapply (run_faithful r (fun _ cap => Some cap)); [|exact Hs| |exact E].
    + intros rest cap c' _ Hc [= ->]. by apply Hc.
    + by intros c'.
  - destruct (run _ _ r (x :: s) None _) as [m|] eqn:E.
    + intros [= ->].
      eapply (run_faithful r (fun _ cap => Some cap)); [|exact Hs| |exact E].
      * intros rest cap c' _ Hc [= ->]. by apply Hc.
      * by intros c'.
    + apply IH. by eapply suffix_tail.
Qed.
End MatcherFacts.

Lemma match1_infix flag r text c :
  match1 flag r text = Some (Some c) -> infix c text.
Proof. unfold match1. by apply search_faithful. Qed.

Lemma strip_fence_infix patterns cleaned : infix (strip_fence patterns cleaned) cleaned.
Proof.
  induction patterns as [|p ps IH]; cbn [strip_fence]; [apply infix_refl|].
  destruct (match1 false p cleaned) as [[m1|]|] eqn:E.
  - eapply infix_trans; [apply trim_infix|eapply match1_infix; exact E].
  - apply infix_refl.
  - done.
Qed.

Lemma clean_infix text : infix (clean text) text.
Proof.
  unfold clean. eapply infix_trans; [apply strip_fence_infix|apply trim_infix].
Qed.

Lemma first_potential_infix patterns text potential :
  first_potential patterns text = Some potential ->
  infix potential text /\ head potential = Some 123.
Proof.
  induction patterns as [|[flag p] ps IH]; cbn [first_potential]; [done|].
  destruct (match1 flag p text) as [[[|c m1]|]|] eqn:E; try done.
  destruct (startsWith [123] (trim (c :: m1))) eqn:Es; [|done].
  destruct (endsWith [125] (trim (c :: m1))) eqn:Ee; [|done].
  cbn [andb]. intros [= <-]. split.
  - eapply infix_trans; [apply trim_infix|eapply match1_infix; exact E].
  - destruct (trim (c :: m1)) as [|x t]; [done|]. cbn [startsWith] in Es.
    rewrite andb_true_r in Es. apply N.eqb_eq in Es. by subst.
Qed.

Lemma indexOf_split c s start :
  indexOf c s = Some start ->
  s = take start s ++ drop start s /\ head (drop start s) = Some c.
Proof.
  revert start. induction s as [|x s IH]; intros start; simpl; [done|].
  destruct (N.eqb_spec x c) as [->|Hx].
  - by intros [= <-].
  - destruct (indexOf c s) as [n|]; [|done]. simpl. intros [= <-].
    destruct (IH n eq_refl) as [H1 H2]. simpl. split; [by f_equal|done].
Qed.

Lemma findJSONObject_region s jsonMatch :
  findJSONObject s = Some jsonMatch -> has_region s = true.
Proof.
  unfold findJSONObject. destruct (indexOf 123 s) as [start|] eqn:E; [|done].
  destruct (scan (drop start s) start 0 false false) as [stop|] eqn:Es; [|done].
  intros _. destruct (indexOf_split _ _ _ E) as [H1 H2].
  rewrite H1. apply has_region_app.
  rewrite <- (app_nil_r (drop start s)).
  apply (has_region_here (drop start s) []); [exact H2|].
  pose proof (scan_shift (drop start s) 0 start 0 false false) as Hshift.
  rewrite Nat.add_0_r, Es in Hshift.
  destruct (scan (drop start s) 0 0 false false); [eauto|done].
Qed.

Section GroupTakesPart.
Variable ignoreCase : bool.
Variable total : nat.

Lemma star_greedy_defined p rest cap k :
  (forall rest', k rest' cap <> Some None) ->
  star_greedy p rest cap k <> Some None.
Proof.
  intros Hk. induction rest as [|c rest IH]; simpl; [apply Hk|].
  destruct (p c); [|apply Hk].
  destruct (star_greedy p rest cap k) as [[m|]|]; [done|done|apply Hk].
Qed.

Lemma star_lazy_defined p rest cap k :
  (forall rest', k rest' cap <> Some None) ->
  star_lazy p rest cap k <> Some None.
Proof.
  intros Hk. induction rest as [|c rest IH]; simpl.
  - specialize (Hk []). by destruct (k [] cap) as [[m|]|].
  - specialize (Hk (c :: rest)). destruct (k (c :: rest) cap) as [[m|]|]; [done|done|].
    by destruct (p c).
Qed.

(** A pattern run before a continuation that never answers with an
    undefined group, for the capture in hand and for any later one,
    does not answer with one either. *)
Lemma run_defined r : forall rest cap k,
  (forall rest', k rest' cap <> Some None) ->
  (forall rest' c, k rest' (Some c) <> Some None) ->
  run ignoreCase total r rest cap k <> Some None.
Proof.
  induction r as [c|p| |a IHa b IHb|a IHa b IHb|a IHa|p|p|a IHa| | ];
    intros rest cap k Hk Hs; simpl.
  - destruct rest as [|x rest]; [done|]. by destruct (_ =? _).
  - destruct rest as [|x rest]; [done|]. by destruct (p x).
  - apply Hk.
  - apply IHa; intros; apply IHb; auto.
  - specialize (IHa rest cap k Hk Hs).
    destruct (run ignoreCase total a rest cap k) as [[m|]|]; [done|done|by apply IHb].
  - specialize (IHa rest cap k Hk Hs).
    destruct (run ignoreCase total a rest cap k) as [[m|]|]; [done|done|apply Hk].
  - by apply star_greedy_defined.
  - by apply star_lazy_defined.
  - apply IHa; intros; apply Hs.
  - destruct (Nat.eqb _ _); [apply Hk|done].
  - destruct rest; [apply Hk|done].
Qed.

(** When group 1 takes part in every match of [r], a match of [r] hands
    a capture to its continuation. *)
Lemma run_captures r : captures r = true -> forall rest cap k,
  (forall rest' c, k rest' (Some c) <> Some None) ->
  run ignoreCase total r rest cap k <> Some None.
Proof.
  induction r as [c|p| |a IHa b IHb|a IHa b IHb|a IHa|p|p|a IHa| | ];
    intros Hc rest cap k Hs; simpl in *; try done.
  - apply orb_true_iff in Hc as [Hc|Hc].
    + apply IHa; [done|]. intros. by apply run_defined.
    + apply run_defined; intros; by apply IHb.
  - apply andb_true_iff in Hc as [Ha Hb].
    specialize (IHa Ha rest cap k Hs).
    destruct (run ignoreCase total a rest cap k) as [[m|]|]; [done|done|by apply IHb].
  - apply run_defined; intros; apply Hs.
Qed.

Lemma search_captures r s : captures r = true ->
  search ignoreCase total r s <> Some None.
Proof.
  intros Hc. induction s as [|c s IH]; simpl.
  - pose proof (run_captures r Hc [] None (fun _ cap => Some cap)) as H.
    destruct (run _ _ _ _ _ _) as [[m|]|]; [done| |done].
    apply H. by intros.
  - pose proof (run_captures r Hc (c :: s) None (fun _ cap => Some cap)) as H.
    destruct (run _ _ _ _ _ _) as [[m|]|]; [done| |done].
    apply H. by intros.
Qed.
End GroupTakesPart.

Lemma match1_captures ignoreCase r text : captures r = true ->
  match1 ignoreCase r text <> Some None.
Proof. apply search_captures. Qed.

(** Group 1 takes part in every match of the fence patterns and of the
    text patterns: [match[1]] is a string whenever [match] is not null,
    so that [match[1].trim()] does not throw. *)
Lemma fencePatterns_capture pattern text :
  In pattern fencePatterns -> match1 false pattern text <> Some None.
Proof.
  intros Hin. apply match1_captures.
  repeat (destruct Hin as [<-|Hin]; [reflexivity|]). destruct Hin.
Qed.

Lemma textPatterns_capture flag pattern text :
  In (flag, pattern) textPatterns -> match1 flag pattern text <> Some None.
Proof.
  intros Hin. apply match1_captures.
  repeat (destruct Hin as [[= <- <-]|Hin]; [reflexivity|]). destruct Hin.
Qed.

Lemma trimStart_id c s : is_space c = false -> trimStart (c :: s) = c :: s.
Proof. intros H. simpl. by rewrite H. Qed.

Lemma trimEnd_id s c : is_space c = false -> trimEnd (s ++ [c]) = s ++ [c].
Proof.
  intros H. unfold trimEnd. rewrite rev_app_distr. simpl. rewrite H.
  simpl. by rewrite rev_involutive.
Qed.

(** A text that begins and ends with a character that is no white space
    is its own [trim]. *)
Lemma trim_id s c d :
  head s = Some c -> last s = Some d ->
  is_space c = false -> is_space d = false -> trim s = s.
Proof.
  intros Hh Hl Hc Hd. unfold trim.
  destruct s as [|x s]; [done|]. injection Hh as ->.
  rewrite trimStart_id by done.
  apply last_Some in Hl as [u ->]. by apply trimEnd_id.
Qed.

(** The end of a fenced answer: a line feed and the closing fence. *)
Lemma fence_tail_long total rest cap :
  (4 < length rest)%nat ->
  run false total (seqs [Opt (Chr 10); fence; Eol]) rest cap (fun _ c => Some c) = None.
Proof.
  intros Hlen.
  destruct rest as [|a [|b [|c [|d [|e rest]]]]]; simpl in Hlen; try lia.
  simpl. by repeat case_match.
Qed.

Lemma star_lazy_to_end (k : str -> option str -> option (option str)) u tl cap r :
  (forall rest, (length tl < length rest)%nat -> k rest cap = None) ->
  k tl cap = Some r ->
  star_lazy any (u ++ tl) cap k = Some r.
Proof.
  intros Hlong Hend. induction u as [|c u IH].
  - simpl. destruct tl; simpl; by rewrite Hend.
  - simpl. rewrite Hlong; [done|]. simpl. rewrite length_app. lia.
Qed.

(** The object, a line feed and the closing fence: the lazy group
    stops at the end of the object. *)
Lemma run_group total s cap :
  run false total
    (seqs [Opt (Chr 10); Group (StarLazy any); Opt (Chr 10); fence; Eol])
    (123 :: s ++ 10 :: lit "```") cap (fun _ c => Some c)
  = Some (Some (123 :: s)).
Proof.
  cbn [seqs foldr run].
  change (canonicalize false 123 =? canonicalize false 10) with false.
  cbv beta iota.
  change (123 :: s ++ 10 :: lit "```") with ((123 :: s) ++ 10 :: lit "```").
  erewrite star_lazy_to_end; [reflexivity| |].
  - intros rest Hlen. apply fence_tail_long. exact Hlen.
  - change (run false total (seqs [Opt (Chr 10); fence; Eol]) (10 :: lit "```")
             (Some (take (length ((123 :: s) ++ 10 :: lit "```")
                          - length (10 :: lit "```"))
                         ((123 :: s) ++ 10 :: lit "```")))
             (fun _ c => Some c)
           = Some (Some (123 :: s))).
    rewrite length_app, Nat.add_sub, take_app_length. reflexivity.
Qed.

(** What follows the opening fence and its tag: a line feed, the
    object, a line feed and the closing fence. *)
Lemma run_fenced total s cap :
  head s = Some 123 ->
  run false total
    (seqs [Star is_space; Opt (Chr 10); Group (StarLazy any); Opt (Chr 10); fence; Eol])
    (10 :: s ++ 10 :: lit "```") cap (fun _ c => Some c)
  = Some (Some s).
Proof.
  intros Hh. destruct s as [|c s]; [done|]. injection Hh as ->.
  change (star_greedy is_space (10 :: 123 :: s ++ 10 :: lit "```") cap
            (fun rest' cap' =>
               run false total
                 (seqs [Opt (Chr 10); Group (StarLazy any); Opt (Chr 10); fence; Eol])
                 rest' cap' (fun _ c => Some c))
          = Some (Some (123 :: s))).
  cbn [star_greedy].
  change (is_space 10) with true. change (is_space 123) with false.
  cbv beta iota. by rewrite run_group.
Qed.

(** The opening fence and its tag, before a line feed. *)
Lemma run_open tag x (k : str -> option str -> option (option str)) r :
  tag ∈ tags ->
  k (10 :: x) None = Some r ->
  run false (length (lit "```" ++ tag ++ 10 :: x))
    (Seq Bol (Seq fence
       (Opt (Alt (Lit (lit "json")) (Alt (Lit (lit "javascript")) (Lit (lit "js")))))))
    (lit "```" ++ tag ++ 10 :: x) None k
  = Some r.
Proof.
  intros Ht Hk. unfold tags in Ht. rewrite !elem_of_cons in Ht.
  destruct Ht as [->|[->|[->|[->|Ht]]]]; [| | | |by apply elem_of_nil in Ht].
  all: simpl; rewrite Nat.eqb_refl; simpl; by rewrite Hk.
Qed.

Lemma search_here ignoreCase total r s m :
  run ignoreCase total r s None (fun _ cap => Some cap) = Some m ->
  search ignoreCase total r s = Some m.
Proof. intros H. destruct s; simpl; by rewrite H. Qed.

(** A fenced object: the first fence pattern matches, and its group is
    the object. *)
Lemma match1_fenced tag s pattern :
  tag ∈ tags -> head s = Some 123 ->
  head fencePatterns = Some pattern ->
  match1 false pattern (lit "```" ++ tag ++ 10 :: s ++ 10 :: lit "```")
  = Some (Some s).
Proof.
  intros Ht Hh [= <-]. unfold match1. apply search_here.
  apply (run_open tag (s ++ 10 :: lit "```")
           (fun rest cap =>
              run false (length (lit "```" ++ tag ++ 10 :: s ++ 10 :: lit "```"))
                (seqs [Star is_space; Opt (Chr 10); Group (StarLazy any);
                       Opt (Chr 10); fence; Eol])
                rest cap (fun _ c => Some c))); [done|].
  by apply run_fenced.
Qed.

(** [clean] takes a fenced object out of its fence. *)
Lemma clean_fenced tag s :
  tag ∈ tags -> head s = Some 123 -> last s = Some 125 ->
  clean (lit "```" ++ tag ++ 10 :: s ++ 10 :: lit "```") = s.
Proof.
  intros Ht Hh Hl. unfold clean.
  rewrite (trim_id _ 96 96); [|done| |done|done].
  - unfold fencePatterns. cbn [strip_fence].
    rewrite (match1_fenced tag s) by done.
    by apply (trim_id _ 123 125).
  - change (10 :: lit "```") with ((10 :: lit "``") ++ [96]).
    rewrite app_comm_cons, !app_assoc. apply last_snoc.
Qed.

Lemma trimStart_app pre s c :
  head s = Some c -> is_space c = false -> trimStart (pre ++ s) = trimStart pre ++ s.
Proof.
  intros Hh Hc. induction pre as [|x pre IH]; simpl.
  - destruct s as [|y s]; [done|]. injection Hh as ->. by apply trimStart_id.
  - by destruct (is_space x).
Qed.

Lemma trimEnd_app s post d :
  last s = Some d -> is_space d = false -> trimEnd (s ++ post) = s ++ trimEnd post.
Proof.
  intros Hl Hd. apply last_Some in Hl as [u ->]. unfold trimEnd.
  rewrite !rev_app_distr. simpl.
  rewrite (trimStart_app _ _ d) by done.
  rewrite rev_app_distr. simpl. by rewrite rev_involutive.
Qed.

(** The [trim] of a text around a piece that begins and ends with
    characters that are no white space. *)
Lemma trim_around pre s post c d :
  head s = Some c -> last s = Some d ->
  is_space c = false -> is_space d = false ->
  trim (pre ++ s ++ post) = trimStart pre ++ s ++ trimEnd post.
Proof.
  intros Hh Hl Hc Hd. unfold trim.
  rewrite (trimStart_app pre (s ++ post) c); [|by destruct s|done].
  rewrite !app_assoc. apply (trimEnd_app _ _ d); [|done].
  by rewrite last_app, Hl.
Qed.

Lemma indexOf_trimStart c pre : indexOf c pre = None -> indexOf c (trimStart pre) = None.
Proof.
  induction pre as [|x pre IH]; [done|]. intros H.
  cbn [trimStart]. destruct (is_space x); [|done].
  apply IH. cbn [indexOf] in H. destruct (x =? c); [done|].
  by destruct (indexOf c pre).
Qed.

(** A literal that the text does not begin with does not match. *)
Lemma run_Lit_none total p t cap k :
  startsWith p t = false -> run false total (Lit p) t cap k = None.
Proof.
  revert t. induction p as [|c p IH]; intros t H; [done|].
  destruct t as [|x t]; [done|]. simpl in *.
  change (canonicalize false x =? canonicalize false c) with (x =? c).
  rewrite (N.eqb_sym x c). destruct (c =? x); [by apply IH|done].
Qed.

Lemma search_Bol_none total r s :
  (length s < total)%nat -> search false total (Seq Bol r) s = None.
Proof.
  intros Hlen. induction s as [|c s IH]; cbn [search run].
  - destruct (_ =? total)%nat eqn:E; [|done].
    apply Nat.eqb_eq in E. simpl in *. lia.
  - destruct (_ =? total)%nat eqn:E.
    + apply Nat.eqb_eq in E. lia.
    + apply IH. simpl in Hlen. lia.
Qed.

(** A text that does not begin with a fence is left as it is. *)
Lemma strip_fence_plain t :
  startsWith (lit "```") t = false -> strip_fence fencePatterns t = t.
Proof.
  intros H.
  assert (forall r, match1 false (Seq Bol (Seq fence r)) t = None) as Hnone.
  { intros r. unfold match1. destruct t as [|c t].
    - reflexivity.
    - cbn [search]. cbn [run]. rewrite Nat.eqb_refl.
      unfold fence. rewrite run_Lit_none by done.
      apply search_Bol_none. simpl. lia. }
  unfold fencePatterns. cbn [strip_fence seqs foldr]. by rewrite !Hnone.
Qed.

(** C3, as amended: for a text with no balanced region, [extractJSON]
    returns what the direct [JSON.parse] of the cleaned text returns (a
    number, a string, a literal or an array), and [null] when that
    throws; it never returns an object. *)
Theorem extractJSON_without_region (text : str) :
  has_region text = false ->
  extractJSON text = match parse (clean text) with
                     | Some v => v
                     | None => JNull
                     end /\
  forall m, extractJSON text <> JObj m.
Proof.
  intros Hno.
  assert (has_region (clean text) = false) as Hclean.
  { destruct (has_region (clean text)) eqn:E; [|done].
    rewrite (has_region_of_infix _ _ (clean_infix text) E) in Hno. done. }
  assert (extractJSON text = match parse (clean text) with
                             | Some v => v
                             | None => JNull
                             end) as Heq.
  { unfold extractJSON. destruct text as [|c text]; [done|].
    destruct (parse (clean (c :: text))) as [v|] eqn:Ep; [done|].
    destruct (findJSONObject (clean (c :: text))) as [jm|] eqn:Ef.
    { apply findJSONObject_region in Ef. congruence. }
    destruct (extractJSONFromText (clean (c :: text))) as [p|] eqn:Et; [|done].
    destruct (parse p) as [v|] eqn:Epp; [|done].
    apply first_potential_infix in Et as [Hin Hh].
    assert (has_region p = true) as Hp by (eapply parse_region; eauto).
    rewrite (has_region_of_infix _ _ Hin Hp) in Hclean. done. }
  split; [done|]. intros m Hm. rewrite Heq in Hm.
  destruct (parse (clean text)) as [v|] eqn:Ep; [|done]. subst v.
  assert (has_region (clean text) = true) as Hp.
  { eapply parse_region; [exact Ep|]. left. by eexists. }
  congruence.
Qed.

(* ================================================================== *)
(** * Extraction of a result *)
(* ================================================================== *)

Lemma indexOf_app c pre rest :
  indexOf c pre = None -> head rest = Some c ->
  indexOf c (pre ++ rest) = Some (length pre).
Proof.
  intros Hpre Hrest. induction pre as [|x pre IH]; simpl in *.
  - destruct rest as [|y rest]; [done|]. injection Hrest as ->. simpl.
    by rewrite N.eqb_refl.
  - destruct (x =? c); [done|]. destruct (indexOf c pre); [done|].
    by rewrite IH.
Qed.

Lemma skip_ws_head s c :
  head s = Some c -> is_json_ws c = false -> skip_ws s = s.
Proof. destruct s as [|x s]; [done|]. intros [= ->] Hc. simpl. by rewrite Hc. Qed.

Lemma skip_ws_nil_last u rest c :
  skip_ws rest = [] -> last (u ++ rest) = Some c -> is_json_ws c = false -> rest = [].
Proof.
  intros Hws Hlast Hc. destruct (skip_ws_split rest) as (w & Hw & Hall).
  rewrite Hws, app_nil_r in Hw. subst w.
  destruct rest as [|x rest] using rev_ind; [done|].
  rewrite app_assoc, last_snoc in Hlast. injection Hlast as ->.
  apply Forall_app in Hall as [_ Hx]. inversion Hx. congruence.
Qed.

(** A JSON text that runs from the opening brace of an object to its
    closing brace is what the walk of [findJSONObject] cuts out. *)
Lemma scan_object_text s m post i :
  parse s = Some (JObj m) -> head s = Some 123 -> last s = Some 125 ->
  scan (s ++ post) i 0 false false = Some (length s + i)%nat.
Proof.
  intros Hp Hh Hl. unfold parse in Hp.
  rewrite (skip_ws_head s 123 Hh eq_refl) in Hp.
  destruct (parse_value _ s) as [[v rest]|] eqn:E; [|done].
  destruct (skip_ws rest) eqn:Hws; [|done].
  destruct (parse_value_object _ _ _ _ E Hh) as (u & m' & Hu & -> & Hhu & Ho).
  assert (rest = []) as ->.
  { apply (skip_ws_nil_last u rest 125); [done|by rewrite <- Hu|done]. }
  rewrite app_nil_r in Hu. subst u. apply Ho.
Qed.

Lemma clean_nil : clean [] = [].
Proof. reflexivity. Qed.

(** The second step of [extractJSON]: the cleaned text parses. *)
Lemma extractJSON_direct text v : parse (clean text) = Some v -> extractJSON text = v.
Proof.
  intros Hp. unfold extractJSON. destruct text; [by vm_compute in Hp|].
  by rewrite Hp.
Qed.

(** The third step of [extractJSON]: the first balanced region is the
    text of the object. *)
Lemma extractJSON_at_clean text pre s post m :
  parse s = Some (JObj m) ->
  head s = Some 123 -> last s = Some 125 ->
  clean text = pre ++ s ++ post ->
  indexOf 123 pre = None ->
  (forall v, parse (clean text) = Some v -> v = JObj m) ->
  extractJSON text = JObj m.
Proof.
  intros Hp Hh Hl Hclean Hpre Hwhole.
  unfold extractJSON. destruct text as [|c text].
  { rewrite clean_nil in Hclean. destruct pre, s; done. }
  destruct (parse (clean (c :: text))) as [v|] eqn:Ep.
  { by apply Hwhole. }
  assert (findJSONObject (clean (c :: text)) = Some s) as ->.
  { rewrite Hclean. unfold findJSONObject.
    rewrite (indexOf_app 123 pre (s ++ post)) by (done || by destruct s).
    rewrite drop_app_length, (scan_object_text s m post) by done.
    unfold slice.
    replace (length s + length pre - length pre)%nat with (length s) by lia.
    by rewrite drop_app_length, take_app_length. }
  by rewrite Hp.
Qed.

(** C4, as amended: let [s] be a JSON text of an object [m] that runs
    from its opening brace to its closing brace.  [extractJSON] returns
    [m] for every input whose cleaned text (trimmed, an enclosing
    markdown fence removed) is [pre ++ s ++ post], where [pre] holds no
    opening brace and the cleaned text is not as a whole the JSON text
    of another value.  So it does for [s] in prose, [pre ++ s ++ post]
    with such a [pre], when the trimmed input does not begin with a
    fence and is not as a whole the JSON text of another value; and for
    [s] on a line of its own between an opening fence, bare or tagged
    [json], [javascript] or [js], and a closing fence. *)
Theorem extractJSON_embedded (s : str) (m : list (str * value)) :
  parse s = Some (JObj m) ->
  head s = Some 123 -> last s = Some 125 ->
  (forall text pre post,
     clean text = pre ++ s ++ post ->
     indexOf 123 pre = None ->
     (forall v, parse (clean text) = Some v -> v = JObj m) ->
     extractJSON text = JObj m) /\
  (forall pre post,
     indexOf 123 pre = None ->
     startsWith (lit "```") (trim (pre ++ s ++ post)) = false ->
     (forall v, parse (trim (pre ++ s ++ post)) = Some v -> v = JObj m) ->
     extractJSON (pre ++ s ++ post) = JObj m) /\
  (forall tag,
     tag ∈ tags ->
     extractJSON (lit "```" ++ tag ++ 10 :: s ++ 10 :: lit "```") = JObj m).
Proof.
  intros Hp Hh Hl. split; [|split].
  - intros text pre post. by apply extractJSON_at_clean.
  - intros pre post Hpre Hfence Hwhole.
    assert (clean (pre ++ s ++ post) = trimStart pre ++ s ++ trimEnd post) as Hclean.
    { unfold clean. rewrite strip_fence_plain by done.
      by apply (trim_around _ _ _ 123 125). }
    apply (extractJSON_at_clean _ (trimStart pre) s (trimEnd post)); try done.
    + by apply indexOf_trimStart.
    + intros v. unfold clean. rewrite strip_fence_plain by done. apply Hwhole.
  - intros tag Ht.
    pose proof (clean_fenced tag s Ht Hh Hl) as Hclean.
    apply extractJSON_direct. by rewrite Hclean.
Qed.

(** C9: when the cleaned text parses as a falsy value ([0], [false],
    [null] or the empty string), [extractJSON] returns that value and
    [extractResearchResult] returns [null], as it does when nothing
    could be extracted. *)
Theorem extractResearchResult_falsy (text : str) (v : value) :
  parse (clean text) = Some v ->
  truthy v = false ->
  extractJSON text = v /\
  extractResearchResult text = Returns None.
Proof.
  intros Hp Hv.
  pose proof (extractJSON_direct text v Hp) as He.
  split; [done|]. unfold extractResearchResult. rewrite He. by rewrite Hv.
Qed.

Lemma falsy_values v :
  truthy v = false <->
  v = JNull \/ v = JBool false \/ (exists s, v = JNum (S754_zero s)) \/
  v = JNum S754_nan \/ v = JStr [].
Proof.
  split.
  - destruct v as [|[]|[]|[]| |]; simpl; try done; eauto 10.
  - intros [->|[->|[[s ->]|[->| ->]]]]; done.
Qed.

(** The salvage branch of [extractResearchResult], for an object that
    fails the validation, whose [summary] is missing, null, a boolean
    or a string and whose [sources] convert without throwing: the
    result has a non-empty summary, and its confidence is the
    [confidence] of the object when that is a number, whatever the
    number, and 0.3 otherwise. *)
Lemma salvage_result (text : str) (m : list (str * value)) :
  extractJSON text = JObj m ->
  safeParse (JObj m) = None ->
  (* the summary is missing, null, a boolean or a string *)
  match obj_get (lit "summary") m with
  | None | Some JNull | Some (JBool _) | Some (JStr _) => True
  | Some _ => False
  end ->
  (* the conversion of the sources does not throw *)
  (forall items, obj_get (lit "sources") m = Some (JArr items) ->
                 exists l, map_String items = Returns l) ->
  exists r,
    extractResearchResult text = Returns (Some r) /\
    summary r <> [] /\
    confidence r = match obj_get (lit "confidence") m with
                   | Some (JNum n) => n
                   | _ => num_0_3
                   end /\
    (in_unit (confidence r) = true <->
     forall n, obj_get (lit "confidence") m = Some (JNum n) -> in_unit n = true).
Proof.
  intros He Hs Hsum Hsrc. unfold extractResearchResult. rewrite He, Hs.
  cbn [truthy negb get].
  assert (exists t, to_string (or_else (obj_get (lit "summary") m) (JStr placeholder))
                    = Returns t /\ t <> []) as (t & -> & Ht).
  { destruct (obj_get (lit "summary") m) as [[|[]| |[|c s]| |]|]; try done;
      simpl; eexists; (split; [reflexivity|done]). }
  cbn [bind].
  assert (exists src,
            match obj_get (lit "sources") m with
            | Some (JArr items) => bind (map_String items) (fun l => Returns (Some l))
            | _ => Returns None
            end = Returns src) as [src ->].
  { destruct (obj_get (lit "sources") m) as [[| | | |items|]|]; eauto.
    destruct (Hsrc items eq_refl) as [l ->]. simpl. eauto. }
  cbn [bind]. eexists. split; [reflexivity|]. cbn [summary confidence].
  split; [done|]. split; [done|].
  destruct (obj_get (lit "confidence") m) as [[| |n| | |]|]; split; try done.
  - intros H n' [= <-]. done.
  - intros H. by apply H.
Qed.

(** ** Comparisons of numbers *)

Lemma compare_cont_flip m1 m2 :
  Pos.compare_cont Eq m2 m1 = CompOpp (Pos.compare_cont Eq m1 m2).
Proof. by rewrite Pos.compare_cont_antisym. Qed.

(** Of two numbers, when the first is not below the second, the second
    is at most the first. *)
Lemma not_ltb_leb x y :
  x <> S754_nan -> y <> S754_nan -> num_ltb x y = false -> num_leb y x = true.
Proof.
  unfold num_ltb, num_leb, SFltb, SFleb. intros Hx Hy.
  destruct x as [sx|sx| |sx mx ex], y as [sy|sy| |sy my ey]; try done;
    try (by destruct sx, sy); try (by destruct sx); try (by destruct sy).
  simpl. rewrite (Z.compare_antisym ex ey), (compare_cont_flip mx my).
  destruct sx, sy; try done;
    destruct (ex ?= ey)%Z; simpl; try done;
    by destruct (Pos.compare_cont Eq mx my).
Qed.

(** ** The validated branch *)

Lemma str_eqb_eq a b : str_eqb a b = true <-> a = b.
Proof.
  revert b. induction a as [|x a IH]; intros [|y b]; simpl; try done.
  rewrite andb_true_iff, N.eqb_eq, IH. split; [by intros [-> ->]|by intros [= -> ->]].
Qed.

(** The members of the object that [z.record] returns. *)
Lemma record_of_get k d :
  obj_get k (record_of d)
  = if str_eqb k (lit "__proto__") then None else obj_get k d.
Proof.
  induction d as [|[k' v] d IH]; cbn [record_of obj_get]; [by destruct (str_eqb _ _)|].
  destruct (str_eqb k' (lit "__proto__")) eqn:E1.
  - rewrite IH. destruct (str_eqb k (lit "__proto__")) eqn:E2; [done|].
    apply str_eqb_eq in E1 as ->. by rewrite E2.
  - cbn [obj_get]. destruct (str_eqb k k') eqn:E3; [|exact IH].
    apply str_eqb_eq in E3 as ->. by rewrite E1.
Qed.

Lemma safeParse_object v d : safeParse v = Some d -> is_object v /\ truthy v = true.
Proof. destruct v; try done. intros _. split; [by eexists|done]. Qed.

Ltac field_case := first [by left | right; repeat eexists; done].

Lemma safeParse_fields m d :
  safeParse (JObj m) = Some d ->
  (exists s, obj_get (lit "summary") m = Some (JStr s) /\ s <> [] /\ summary d = s) /\
  ((obj_get (lit "details") m = None /\ details d = JObj []) \/
   (exists dm, obj_get (lit "details") m = Some (JObj dm) /\
      details d = JObj (record_of dm))) /\
  ((obj_get (lit "sources") m = None /\ sources d = None) \/
   (exists items ss, obj_get (lit "sources") m = Some (JArr items) /\
      all_strings items = Some ss /\ sources d = Some ss)) /\
  ((obj_get (lit "confidence") m = None /\ confidence d = num_0_5) \/
   (exists n, obj_get (lit "confidence") m = Some (JNum n) /\ n <> S754_nan /\
      num_ltb n num_0 = false /\ num_ltb num_1 n = false /\ confidence d = n)).
Proof.
  unfold safeParse. intros Hs.
  destruct (obj_get (lit "summary") m) as [[| | |s| |]|]; try done.
  destruct (Nat.leb_spec 1 (length s)) as [Hlen|]; [|done].
  assert (s <> []) as Hne by (destruct s; [simpl in Hlen; lia|done]).
  destruct (obj_get (lit "details") m) as [dv|].
  - destruct dv as [| | | | |dm]; try done.
    destruct (obj_get (lit "sources") m) as [sv|].
    + destruct sv as [| | | |items|]; try done.
      destruct (all_strings items) as [ss|] eqn:Ess; [|done].
      cbn [fmap option_fmap option_map] in Hs.
      destruct (obj_get (lit "confidence") m) as [cv|].
      * destruct cv as [| |n| | |]; try done.
        destruct n as [sn|sn| |sn mn en] eqn:En; try done;
          rewrite <- En in *;
          (destruct (num_ltb n num_0) eqn:H0; [done|]);
          (destruct (num_ltb num_1 n) eqn:H1; [done|]);
          injection Hs as <-; simpl;
          (split_and!; [by exists s|field_case|field_case|]);
          right; exists n; split_and!; try done; by rewrite En.
      * injection Hs as <-. simpl. split_and!; [by exists s|field_case..].
    + destruct (obj_get (lit "confidence") m) as [cv|].
      * destruct cv as [| |n| | |]; try done.
        destruct n as [sn|sn| |sn mn en] eqn:En; try done;
          rewrite <- En in *;
          (destruct (num_ltb n num_0) eqn:H0; [done|]);
          (destruct (num_ltb num_1 n) eqn:H1; [done|]);
          injection Hs as <-; simpl;
          (split_and!; [by exists s|field_case|field_case|]);
          right; exists n; split_and!; try done; by rewrite En.
      * injection Hs as <-. simpl. split_and!; [by exists s|field_case..].
  - destruct (obj_get (lit "sources") m) as [sv|].
    + destruct sv as [| | | |items|]; try done.
      destruct (all_strings items) as [ss|] eqn:Ess; [|done].
      cbn [fmap option_fmap option_map] in Hs.
      destruct (obj_get (lit "confidence") m) as [cv|].
      * destruct cv as [| |n| | |]; try done.
        destruct n as [sn|sn| |sn mn en] eqn:En; try done;
          rewrite <- En in *;
          (destruct (num_ltb n num_0) eqn:H0; [done|]);
          (destruct (num_ltb num_1 n) eqn:H1; [done|]);
          injection Hs as <-; simpl;
          (split_and!; [by exists s|field_case|field_case|]);
          right; exists n; split_and!; try done; by rewrite En.
      * injection Hs as <-. simpl. split_and!; [by exists s|field_case..].
    + destruct (obj_get (lit "confidence") m) as [cv|].
      * destruct cv as [| |n| | |]; try done.
        destruct n as [sn|sn| |sn mn en] eqn:En; try done;
          rewrite <- En in *;
          (destruct (num_ltb n num_0) eqn:H0; [done|]);
          (destruct (num_ltb num_1 n) eqn:H1; [done|]);
          injection Hs as <-; simpl;
          (split_and!; [by exists s|field_case|field_case|]);
          right; exists n; split_and!; try done; by rewrite En.
      * injection Hs as <-. simpl. split_and!; [by exists s|field_case..].
Qed.

(** X1: A result that passes the validation is returned as it was
    validated: its summary is the string of the object, and not empty;
    its confidence is the number of the object, between 0 and 1; its
    details are an object with the members of the object's [details]
    but [__proto__], which [z.record] leaves out; and a missing
    [confidence], [details] or [sources] is 0.5, the empty object or
    absent. *)
Theorem extractResearchResult_validated (text : str) (d : ExtractedResearch) :
  safeParse (extractJSON text) = Some d ->
  extractResearchResult text = Returns (Some d) /\
  summary d <> [] /\
  in_unit (confidence d) = true /\
  is_object (details d) /\
  (forall m, extractJSON text = JObj m ->
     obj_get (lit "summary") m = Some (JStr (summary d)) /\
     (obj_get (lit "confidence") m = None -> confidence d = num_0_5) /\
     (forall n, obj_get (lit "confidence") m = Some (JNum n) -> confidence d = n) /\
     (obj_get (lit "details") m = None -> details d = JObj []) /\
     (forall dm, obj_get (lit "details") m = Some (JObj dm) ->
        exists kept,
          details d = JObj kept /\
          forall k, obj_get k kept
                    = if str_eqb k (lit "__proto__") then None else obj_get k dm) /\
     (obj_get (lit "sources") m = None -> sources d = None) /\
     (forall items, obj_get (lit "sources") m = Some (JArr items) ->
        sources d = all_strings items)).
Proof.
  intros Hs. destruct (safeParse_object _ _ Hs) as [[m Hm] Ht].
  split.
  { unfold extractResearchResult. by rewrite Ht, Hs. }
  rewrite Hm in Hs. apply safeParse_fields in Hs
    as ((s & Hsum & Hne & Hs') & Hdet & Hsrc & Hconf).
  split; [by rewrite Hs'|]. split; [|split].
  - destruct Hconf as [[_ ->]|(n & _ & Hnan & H0 & H1 & ->)]; [by vm_compute|].
    unfold in_unit. apply andb_true_iff. split; by apply not_ltb_leb.
  - destruct Hdet as [[_ ->]|(dm & _ & ->)]; by eexists.
  - intros m' Hm'. rewrite Hm in Hm'. injection Hm' as <-. split_and!.
    + by rewrite Hs'.
    + intros Hn. destruct Hconf as [[_ ->]|(n & Hc & _)]; [done|congruence].
    + intros n Hn. destruct Hconf as [[Hc _]|(n' & Hc & _ & _ & _ & ->)]; congruence.
    + intros Hn. destruct Hdet as [[_ ->]|(dm & Hc & _)]; [done|congruence].
    + intros dm Hn. destruct Hdet as [[Hc _]|(dm' & Hc & ->)]; [congruence|].
      rewrite Hn in Hc. injection Hc as <-.
      exists (record_of dm). split; [done|]. intros k. apply record_of_get.
    + intros Hn. destruct Hsrc as [[_ ->]|(items & ss & Hc & _)]; [done|congruence].
    + intros items Hn. destruct Hsrc as [[Hc _]|(items' & ss & Hc & Hall & ->)];
        [congruence|].
      rewrite Hn in Hc. injection Hc as <-. by rewrite Hall.
Qed.

(** ** [trim] *)

Lemma trimStart_head s c : head (trimStart s) = Some c -> is_space c = false.
Proof.
  induction s as [|x s IH]; simpl; [done|].
  destruct (is_space x) eqn:Hx; [done|]. by intros [= <-].
Qed.

Lemma last_rev {A} (l : list A) : last (rev l) = head l.
Proof. destruct l as [|x l]; [done|]. simpl. apply last_snoc. Qed.

Lemma trimEnd_last s c : last (trimEnd s) = Some c -> is_space c = false.
Proof. unfold trimEnd. rewrite last_rev. apply trimStart_head. Qed.

Lemma trimEnd_prefix s : exists b, s = trimEnd s ++ b.
Proof.
  unfold trimEnd. destruct (trimStart_suffix (rev s)) as [a Ha].
  exists (rev a). rewrite <- rev_app_distr, <- Ha. by rewrite rev_involutive.
Qed.

Lemma trim_idempotent s : trim (trim s) = trim s.
Proof.
  destruct (trim s) as [|c t] eqn:E; [done|]. rewrite <- E.
  destruct (last (trim s)) as [d|] eqn:El; [|rewrite E in El; by apply last_None in El].
  apply (trim_id _ c d).
  - by rewrite E.
  - done.
  - unfold trim in E. destruct (trimEnd_prefix (trimStart s)) as [b Hb].
    rewrite E in Hb. apply (trimStart_head s). by rewrite Hb.
  - unfold trim in El. by apply trimEnd_last in El.
Qed.

(** X2: [extractJSON] sees its input through [trim] only: two texts that
    differ by white space at their ends give the same value and the
    same result, and a text of white space only gives [null]. *)
Theorem extractJSON_trim (text text' : str) :
  trim text = trim text' ->
  extractJSON text = extractJSON text' /\
  extractResearchResult text = extractResearchResult text' /\
  extractJSON (trim text) = extractJSON text /\
  (trim text = [] ->
   extractJSON text = JNull /\ extractResearchResult text = Returns None).
Proof.
  assert (forall t, extractJSON t = extractJSON (trim t)) as Htrim.
  { intros t. unfold extractJSON.
    assert (clean (trim t) = clean t) as Hc by (unfold clean; by rewrite trim_idempotent).
    destruct t as [|c t]; [done|].
    destruct (trim (c :: t)) as [|c' t'] eqn:E.
    - unfold clean. rewrite E. vm_compute. reflexivity.
    - by rewrite Hc. }
  intros H.
  assert (extractJSON text = extractJSON text') as He.
  { by rewrite (Htrim text), (Htrim text'), H. }
  split; [done|]. split; [|split; [by rewrite <- Htrim|]].
  - unfold extractResearchResult. by rewrite He.
  - intros Hblank.
    assert (extractJSON text = JNull) as Hnull by (by rewrite (Htrim text), Hblank).
    split; [done|]. unfold extractResearchResult. by rewrite Hnull.
Qed.

(** ** [findJSONObject] and [createRepairPrompt] *)

(** Where the walk stops: after a closing brace. *)
Lemma scan_stop s : forall i d b e stop,
  scan s i d b e = Some stop ->
  (i < stop <= i + length s)%nat /\ s !! (stop - i - 1)%nat = Some 125.
Proof.
  induction s as [|c s IH]; intros i d b e stop H; [done|].
  cbn [scan] in H.
  assert (forall d' b' e', scan s (S i) d' b' e' = Some stop ->
            (i < stop <= i + length (c :: s))%nat /\
            (c :: s) !! (stop - i - 1)%nat = Some 125) as Hnext.
  { intros d' b' e' H'. destruct (IH _ _ _ _ _ H') as [Hb Hl]. simpl. split; [lia|].
    replace (stop - i - 1)%nat with (S (stop - S i - 1)) by lia. done. }
  destruct e; [by eapply Hnext|].
  destruct ((c =? 92) && b); [by eapply Hnext|].
  destruct (c =? 34); [by eapply Hnext|].
  destruct (negb b); [|by eapply Hnext].
  destruct (c =? 123); [by eapply Hnext|].
  destruct (N.eqb_spec c 125) as [->|]; [|by eapply Hnext].
  destruct (d - 1 =? 0)%Z; [|by eapply Hnext].
  injection H as <-. simpl. split; [lia|].
  by replace (S i - i - 1)%nat with 0%nat by lia.
Qed.

(** X3: [findJSONObject]: nothing without an opening brace; otherwise a
    piece of the text that begins at its first opening brace and ends
    with a closing brace; and for the text of an object after a text
    without an opening brace, that very text. *)
Theorem findJSONObject_cuts (text : str) :
  (indexOf 123 text = None -> findJSONObject text = None) /\
  (forall jsonMatch, findJSONObject text = Some jsonMatch ->
     exists pre post,
       text = pre ++ jsonMatch ++ post /\ indexOf 123 pre = None /\
       head jsonMatch = Some 123 /\ last jsonMatch = Some 125) /\
  (forall pre s post m,
     text = pre ++ s ++ post -> indexOf 123 pre = None ->
     parse s = Some (JObj m) -> head s = Some 123 -> last s = Some 125 ->
     findJSONObject text = Some s).
Proof.
  split_and!.
  - intros H. unfold findJSONObject. by rewrite H.
  - intros jsonMatch. unfold findJSONObject.
    destruct (indexOf 123 text) as [start|] eqn:E; [|done].
    destruct (scan (drop start text) start 0 false false) as [stop|] eqn:Es; [|done].
    intros [= <-]. destruct (indexOf_split _ _ _ E) as [H1 H2].
    destruct (scan_stop _ _ _ _ _ _ Es) as [Hb Hl].
    exists (take start text), (drop (stop - start) (drop start text)).
    unfold slice. split_and!.
    + by rewrite take_drop.
    + clear -E. revert start E. induction text as [|x t IH]; intros start; simpl; [done|].
      destruct (x =? 123) eqn:Hx; [by intros [= <-]|].
      destruct (indexOf 123 t) as [n|] eqn:En; [|done]. simpl. intros [= <-].
      simpl. rewrite Hx. by rewrite (IH n eq_refl).
    + destruct (drop start text) as [|c rest]; [done|].
      destruct (stop - start)%nat as [|n] eqn:En; [lia|]. done.
    + rewrite last_lookup. rewrite length_take, Nat.min_l by lia.
      rewrite lookup_take_lt by lia.
      replace (Nat.pred (stop - start)) with (stop - start - 1)%nat by lia. done.
  - intros pre s post m -> Hpre Hp Hh Hl. unfold findJSONObject.
    rewrite (indexOf_app 123 pre (s ++ post)) by (done || by destruct s).
    rewrite drop_app_length, (scan_object_text s m post) by done.
    unfold slice.
    replace (length s + length pre - length pre)%nat with (length s) by lia.
    by rewrite drop_app_length, take_app_length.
Qed.

(** X4: [createRepairPrompt] quotes at most 500 code units of the answer,
    followed by an ellipsis when it cut it, so that the prompt is no
    longer than the request and a fixed text. *)
Theorem createRepairPrompt_bounded (originalPrompt malformedResponse : str) :
  infix (take 500 malformedResponse) (createRepairPrompt originalPrompt malformedResponse) /\
  infix originalPrompt (createRepairPrompt originalPrompt malformedResponse) /\
  (length (createRepairPrompt originalPrompt malformedResponse)
   <= length originalPrompt + 718)%nat /\
  ((length malformedResponse <= 500)%nat ->
   infix malformedResponse (createRepairPrompt originalPrompt malformedResponse)).
Proof.
  unfold createRepairPrompt, slice. rewrite Nat.sub_0_r, drop_0.
  set (a := lit "The previous response was not valid JSON. Here was the malformed response:").
  set (b := lit "Please provide ONLY a valid JSON object with no additional text.").
  set (c := lit "Original request: ").
  set (d := lit "Remember: Output ONLY the JSON object, nothing else.").
  set (dots := if Nat.ltb 500 (length malformedResponse) then lit "..." else []).
  assert (length dots <= 3)%nat as Hdots.
  { unfold dots. destruct (Nat.ltb 500 (length malformedResponse)); simpl; lia. }
  assert (length a = 74 /\ length b = 64 /\ length c = 18 /\ length d = 52)%nat
    as (Ha & Hb & Hc & Hd) by (by vm_compute).
  split_and!.
  - exists (a ++ [10; 10]),
           (dots ++ [10; 10] ++ b ++ [10] ++ c ++ originalPrompt ++ [10; 10] ++ d).
    by rewrite <- !app_assoc.
  - exists (a ++ [10; 10] ++ take 500 malformedResponse ++ dots ++ [10; 10] ++ b
              ++ [10] ++ c),
           ([10; 10] ++ d).
    by rewrite <- !app_assoc.
  - rewrite !length_app, length_take, Ha, Hb, Hc, Hd. cbn [length]. lia.
  - intros Hlen. rewrite take_ge by done.
    exists (a ++ [10; 10]),
           (dots ++ [10; 10] ++ b ++ [10] ++ c ++ originalPrompt ++ [10; 10] ++ d).
    by rewrite <- !app_assoc.
Qed.

(* ================================================================== *)
(** * The map and reduce phases *)
(* ================================================================== *)

Import MapReduce.

Lemma split_spaces_from_length b cur s :
  (length (split_spaces_from b cur s) <= 1 + spaces_in s)%nat.
Proof.
  revert b cur. induction s as [|c s IH]; intros b cur; simpl; [lia|].
  destruct (is_space c) eqn:Hc.
  - destruct b; [specialize (IH true cur)|specialize (IH true [])]; simpl; lia.
  - apply IH.
Qed.

Lemma split_spaces_from_space_free b cur s :
  space_free cur -> Forall space_free (split_spaces_from b cur s).
Proof.
  revert b cur. induction s as [|c s IH]; intros b cur Hcur; simpl.
  - by constructor.
  - destruct (is_space c) eqn:Hc.
    + destruct b; [by apply IH|]. constructor; [done|]. apply IH. constructor.
    + apply IH. apply Forall_app. split; [done|]. by repeat constructor.
Qed.

Lemma spaces_in_app a b : spaces_in (a ++ b) = (spaces_in a + spaces_in b)%nat.
Proof. induction a as [|c a IH]; simpl; [done|]. rewrite IH. lia. Qed.

Lemma spaces_in_space_free s : space_free s -> spaces_in s = 0%nat.
Proof. induction 1 as [|c s Hc _ IH]; simpl; [done|]. by rewrite Hc, IH. Qed.

Lemma spaces_in_join ws :
  Forall space_free ws -> spaces_in (join [32] ws) = pred (length ws).
Proof.
  induction 1 as [|w ws Hw Hws IH]; [done|].
  destruct ws as [|w' ws].
  - by apply spaces_in_space_free.
  - change (join [32] (w :: w' :: ws)) with (w ++ [32] ++ join [32] (w' :: ws)).
    rewrite !spaces_in_app, IH, (spaces_in_space_free w) by done. done.
Qed.

Lemma ellipsis_space_free : space_free (lit "...").
Proof. by repeat constructor. Qed.

(** The pieces of a truncated text. *)
Lemma truncateToWords_pieces text maxWords :
  (length (split_spaces (truncateToWords text maxWords)) <= Nat.max 1 maxWords)%nat.
Proof.
  unfold truncateToWords.
  destruct (Nat.leb (length (split_spaces text)) maxWords) eqn:Hle.
  - apply Nat.leb_le in Hle. lia.
  - apply Nat.leb_gt in Hle.
    unfold split_spaces at 1. eapply Nat.le_trans; [apply split_spaces_from_length|].
    rewrite spaces_in_app, (spaces_in_space_free _ ellipsis_space_free), spaces_in_join.
    + rewrite length_take. lia.
    + apply Forall_take. apply split_spaces_from_space_free. constructor.
Qed.

Section ReduceFacts.
Variable gemini : nat -> str -> outcome str.

Lemma aggregateSummaries_log summaries q log :
  snd (aggregateSummaries gemini summaries q log) = log ++ [aggregation_prompt summaries q].
Proof. unfold aggregateSummaries. by destruct (gemini _ _). Qed.

Lemma aggregate_each_log chunks q log :
  snd (aggregate_each gemini chunks q log)
  = log ++ map (fun c => aggregation_prompt c q) chunks
  /\ length (fst (aggregate_each gemini chunks q log)) = length chunks.
Proof.
  revert log. induction chunks as [|c chunks IH]; intros log; simpl.
  - by rewrite app_nil_r.
  - unfold seq, ret.
    destruct (aggregateSummaries gemini c q log) as [s log1] eqn:E1.
    destruct (aggregate_each gemini chunks q log1) as [rest log2] eqn:E2. simpl.
    pose proof (aggregateSummaries_log c q log) as H1. rewrite E1 in H1. simpl in H1.
    destruct (IH log1) as [H2 H3]. rewrite E2 in H2, H3. simpl in *.
    subst. by rewrite <- app_assoc, H3.
Qed.

Lemma chunks_of_length fuel (l : list str) :
  (length l <= fuel)%nat ->
  length (chunks_of fuel l) = ((length l + 4) / 5)%nat /\ concat (chunks_of fuel l) = l.
Proof.
  revert l. induction fuel as [|fuel IH]; intros l Hl.
  - destruct l; simpl in *; [done|lia].
  - destruct l as [|x l]; [done|].
    cbn [chunks_of]. unfold AGGREGATION_CHUNK_SIZE.
    destruct (IH (drop 5 (x :: l))) as [IH1 IH2].
    { rewrite length_drop. simpl in *. lia. }
    split.
    + cbn [length]. rewrite IH1, length_drop. cbn [length].
      generalize (length l). intros n. clear.
      destruct (decide (n < 4)%nat).
      * replace (S n - 5)%nat with 0%nat by lia.
        do 4 (destruct n as [|n]; [reflexivity|]). lia.
      * replace (S n + 4)%nat with ((S n - 5 + 4) + 1 * 5)%nat by lia.
        rewrite Nat.div_add by lia. lia.
    + cbn [concat]. rewrite IH2. apply take_drop.
Qed.
End ReduceFacts.

(** C7: [reduceAggregate] issues exactly one aggregation call for at
    most 5 summaries.  For more, it issues one call for each chunk of 5,
    in order, then exactly one call on all the chunk summaries, however
    many they are: there is no third level.  For 12 summaries these are
    3 chunk calls followed by 1 final call. *)
Theorem reduceAggregate_calls (gemini : nat -> str -> outcome str)
    (summaries : list str) (q : str) :
  let n := length summaries in
  let chunks := chunks_of n summaries in
  let prompt := fun c => aggregation_prompt c q in
  let calls := snd (reduceAggregate gemini summaries q []) in
  ((n <= AGGREGATION_CHUNK_SIZE)%nat -> calls = [prompt summaries]) /\
  ((AGGREGATION_CHUNK_SIZE < n)%nat ->
     exists firstLevel,
       length firstLevel = length chunks /\
       length chunks = ((n + 4) / 5)%nat /\
       concat chunks = summaries /\
       calls = map prompt chunks ++ [prompt firstLevel]) /\
  (n = 12%nat ->
     exists c1 c2 c3 firstLevel,
       chunks = [c1; c2; c3] /\ length firstLevel = 3%nat /\
       calls = [prompt c1; prompt c2; prompt c3; prompt firstLevel]).
Proof.
  intros n chunks prompt calls.
  assert ((AGGREGATION_CHUNK_SIZE < n)%nat ->
     exists firstLevel,
       length firstLevel = length chunks /\
       length chunks = ((n + 4) / 5)%nat /\
       concat chunks = summaries /\
       calls = map prompt chunks ++ [prompt firstLevel]) as Hbig.
  { intros Hn. subst calls. unfold reduceAggregate.
    replace (Nat.leb (length summaries) AGGREGATION_CHUNK_SIZE) with false
      by (symmetry; apply Nat.leb_gt; exact Hn).
    unfold seq. fold n. fold chunks.
    destruct (aggregate_each gemini chunks q []) as [firsts log1] eqn:E.
    destruct (aggregate_each_log gemini chunks q []) as [H1 H2].
    rewrite E in H1, H2. simpl in H1, H2.
    exists firsts. destruct (chunks_of_length n summaries) as [H3 H4]; [done|].
    repeat split; try done.
    rewrite aggregateSummaries_log. by subst log1. }
  split; [|split; [exact Hbig|]].
  - intros Hn. subst calls. unfold reduceAggregate.
    replace (Nat.leb (length summaries) AGGREGATION_CHUNK_SIZE) with true
      by (symmetry; apply Nat.leb_le; exact Hn).
    by rewrite aggregateSummaries_log.
  - intros Hn. destruct Hbig as (firsts & H1 & H2 & H3 & H4).
    { unfold AGGREGATION_CHUNK_SIZE. lia. }
    rewrite Hn in H2. change ((12 + 4) / 5)%nat with 3%nat in H2.
    destruct chunks as [|c1 [|c2 [|c3 [|]]]]; try discriminate.
    exists c1, c2, c3, firsts. by rewrite H1, H4.
Qed.

Lemma mapSummarize_Forall2 results outs :
  mapSummarize results = Returns outs ->
  Forall2 (fun r out => summarize_one r = Returns out) results outs.
Proof.
  revert outs. induction results as [|r results IH]; intros outs; simpl.
  - intros [= <-]. constructor.
  - destruct (summarize_one r) as [s|] eqn:E1; [|done]. simpl.
    destruct (mapSummarize results) as [rest|] eqn:E2; [|done]. simpl.
    intros [= <-]. constructor; [done|]. by apply IH.
Qed.

(** C8: every summary that [mapSummarize] returns is the text of
    [summary], followed by up to three findings, cut by
    [truncateToWords]: it has at most 200 words (the pieces of
    [split(/\s+/)]), and when the text has more, it is the first 200
    of them joined by spaces and followed by ["..."]. *)
Theorem mapSummarize_word_limit (results : list ExtractedResearch) (outs : list str) :
  mapSummarize results = Returns outs ->
  Forall2 (fun r out =>
     exists full,
       with_findings r = Returns full /\
       out = truncateToWords full MAX_SUMMARY_WORDS /\
       (length (split_spaces out) <= MAX_SUMMARY_WORDS)%nat /\
       ((MAX_SUMMARY_WORDS < length (split_spaces full))%nat ->
        out = join [32] (take MAX_SUMMARY_WORDS (split_spaces full)) ++ lit "..."))
    results outs.
Proof.
  intros H. apply mapSummarize_Forall2 in H.
  eapply Forall2_impl; [exact H|]. clear. intros r out Hr. simpl in Hr.
  unfold summarize_one in Hr.
  destruct (with_findings r) as [full|] eqn:E; [|done]. simpl in Hr.
  injection Hr as <-. exists full. repeat split.
  - apply (truncateToWords_pieces full MAX_SUMMARY_WORDS).
  - intros Hlong. unfold truncateToWords.
    by replace (Nat.leb (length (split_spaces full)) MAX_SUMMARY_WORDS) with false
      by (symmetry; apply Nat.leb_gt; exact Hlong).
Qed.

(** C8, at a summary of a thousand words. *)
Lemma mapSummarize_word_limit_witness :
  Forall2 (fun r out =>
     exists full,
       with_findings r = Returns full /\
       out = truncateToWords full MAX_SUMMARY_WORDS /\
       (length (split_spaces out) <= MAX_SUMMARY_WORDS)%nat /\
       ((MAX_SUMMARY_WORDS < length (split_spaces full))%nat ->
        out = join [32] (take MAX_SUMMARY_WORDS (split_spaces full)) ++ lit "..."))
    [mkExtracted words1000 (JObj []) None num_0_5]
    [join [32] (replicate 200 (lit "word")) ++ lit "..."].
Proof.
  apply (mapSummarize_word_limit [mkExtracted words1000 (JObj []) None num_0_5]).
  vm_compute. reflexivity.
Defined.

Section MapReduceFacts.
Local Open Scope nat_scope.

Lemma split_spaces_from_nonempty b cur s : split_spaces_from b cur s <> [].
Proof.
  revert b cur. induction s as [|c s IH]; intros b cur; simpl; [done|].
  destruct (is_space c); [destruct b; [apply IH|done]|apply IH].
Qed.

(** X5: [truncateToWords] cuts once: a text it returns is left as it is
    when it is given again; a text of at most [maxWords] pieces is
    returned as it is, a longer one ends with the ellipsis. *)
Theorem truncateToWords_idempotent (text : str) (maxWords : nat) :
  truncateToWords (truncateToWords text maxWords) maxWords = truncateToWords text maxWords /\
  (length (split_spaces text) <= maxWords -> truncateToWords text maxWords = text) /\
  (maxWords < length (split_spaces text) ->
   endsWith (lit "...") (truncateToWords text maxWords) = true /\
   length (split_spaces (truncateToWords text maxWords)) <= Nat.max 1 maxWords).
Proof.
  split_and!.
  - destruct maxWords as [|n].
    + assert (forall t, truncateToWords t 0 = lit "...") as H0.
      { intros t. unfold truncateToWords.
        destruct (split_spaces t) eqn:E; [by apply split_spaces_from_nonempty in E|done]. }
      by rewrite !H0.
    + pose proof (truncateToWords_pieces text (S n)) as Hp.
      unfold truncateToWords at 1.
      destruct (Nat.leb_spec (length (split_spaces (truncateToWords text (S n)))) (S n));
        [done|lia].
  - intros H. unfold truncateToWords. by apply Nat.leb_le in H as ->.
  - intros H. unfold truncateToWords. apply Nat.leb_gt in H as Hb. rewrite Hb.
    split.
    + unfold endsWith. rewrite rev_app_distr. reflexivity.
    + pose proof (truncateToWords_pieces text maxWords) as Hp.
      unfold truncateToWords in Hp. by rewrite Hb in Hp.
Qed.

Lemma join_with_strings sep (ss : list str) :
  join_with (fun x => match x with JNull => Returns [] | _ => to_string x end)
            sep (map JStr ss)
  = Returns (join sep ss).
Proof.
  induction ss as [|s ss IH]; [done|].
  destruct ss as [|s' ss]; [done|].
  change (map JStr (s :: s' :: ss)) with (JStr s :: map JStr (s' :: ss)).
  cbn [join_with] in *. rewrite IH. reflexivity.
Qed.

Lemma all_strings_map items ss : all_strings items = Some ss -> items = map JStr ss.
Proof.
  revert ss. induction items as [|x items IH]; intros ss; simpl.
  - by intros [= <-].
  - destruct x; try done. destruct (all_strings items) as [ss'|]; [|done].
    simpl. intros [= <-]. simpl. f_equal. by apply IH.
Qed.

(** X6: [mapSummarize] returns one summary for each result, in order, when
    the first three findings of every result are strings: the summary,
    then the findings joined by ["; "], cut by [truncateToWords]. *)
Theorem mapSummarize_strings (results : list ExtractedResearch) :
  (forall r f findings, r ∈ results ->
     get (lit "key_findings") (details r) = Some (JArr (f :: findings)) ->
     is_Some (all_strings (take 3 (f :: findings)))) ->
  mapSummarize results
  = Returns (map (fun r => truncateToWords (with_string_findings r) MAX_SUMMARY_WORDS) results).
Proof.
  induction results as [|r results IH]; intros H; [done|].
  cbn [mapSummarize map]. rewrite IH by (intros; eapply H; [by right|done]).
  assert (with_findings r = Returns (with_string_findings r)) as Hw.
  { unfold with_findings, with_string_findings.
    destruct (get (lit "key_findings") (details r)) as [[| | | |[|f findings]|]|] eqn:Eg;
      try (by destruct (truthy (details r) && _)).
    destruct (H r f findings) as [ss Hss]; [by left|done|].
    rewrite Hss. apply all_strings_map in Hss. rewrite Hss, join_with_strings.
    assert (truthy (details r) &&
            match details r with JObj _ | JArr _ => true | _ => false end = true) as ->.
    { destruct (details r) as [| | | |l|m]; try done. }
    reflexivity. }
  unfold summarize_one. rewrite Hw. reflexivity.
Qed.

Section FallbackFacts.
Variable gemini : nat -> str -> outcome str.
Hypothesis refused : forall n prompt, exists e, gemini n prompt = Throws e.

Lemma aggregateSummaries_refused summaries q log :
  fst (aggregateSummaries gemini summaries q log) = join [32%N] (take 3 summaries).
Proof.
  unfold aggregateSummaries.
  by destruct (refused (length log) (aggregation_prompt summaries q)) as [e ->].
Qed.

Lemma aggregate_each_refused chunks q log :
  fst (aggregate_each gemini chunks q log)
  = map (fun chunk => join [32%N] (take 3 chunk)) chunks.
Proof.
  revert log. induction chunks as [|chunk chunks IH]; intros log; [done|].
  cbn [aggregate_each]. unfold seq, ret.
  pose proof (aggregateSummaries_refused chunk q log) as H1.
  destruct (aggregateSummaries gemini chunk q log) as [s log1]. simpl in H1. subst s.
  specialize (IH log1).
  destruct (aggregate_each gemini chunks q log1) as [rest log2]. simpl in IH. subst rest.
  reflexivity.
Qed.
End FallbackFacts.

(** X7: [reduceAggregate] while the provider refuses every call: it still
    returns, with the first three summaries joined by spaces, or, for
    more than 5 summaries, with the first three summaries of each of the
    first three chunks. *)
Theorem reduceAggregate_refused (gemini : nat -> str -> outcome str)
    (summaries : list str) (q : str) :
  (forall n prompt, exists e, gemini n prompt = Throws e) ->
  fst (reduceAggregate gemini summaries q [])
  = if Nat.leb (length summaries) AGGREGATION_CHUNK_SIZE
    then join [32%N] (take 3 summaries)
    else join [32%N]
           (map (fun chunk => join [32%N] (take 3 chunk))
                (take 3 (chunks_of (length summaries) summaries))).
Proof.
  intros Hr. unfold reduceAggregate.
  destruct (Nat.leb (length summaries) AGGREGATION_CHUNK_SIZE).
  - by apply aggregateSummaries_refused.
  - unfold seq.
    pose proof (aggregate_each_refused gemini Hr
                  (chunks_of (length summaries) summaries) q []) as H1.
    destruct (aggregate_each gemini _ q []) as [firstLevel log1]. simpl in H1. subst.
    rewrite aggregateSummaries_refused by done. by rewrite fmap_take.
Qed.
End MapReduceFacts.

(* ================================================================== *)
(** * The runs of the rate limiter *)
(* ================================================================== *)

Import RateLimiter.
Local Open Scope nat_scope.


Section Facts.
Context {T R : Type}.
Variable opts : RateLimiterOptions.
Variable items : list T.
Variable processor : T -> nat -> nat -> outcome R.

Abbreviation step' := (step opts items processor).
Abbreviation run' := (run opts items processor).
Abbreviation consistent' := (consistent opts items processor).
Abbreviation Rmax := (maxRetries opts).

Lemma observed_of_app i (tr1 tr2 : list (event T R)) :
  observed_of i (tr1 ++ tr2) = observed_of i tr1 ++ observed_of i tr2.
Proof.
  induction tr1 as [|e tr1 IH]; simpl; [done|].
  destruct (about i e); simpl; by rewrite IH.
Qed.

Lemma calls_of_app i (tr1 tr2 : list (event T R)) :
  calls_of i (tr1 ++ tr2) = calls_of i tr1 + calls_of i tr2.
Proof. induction tr1 as [|e tr1 IH]; simpl; [done|]. rewrite IH. lia. Qed.

Lemma consistent_init : consistent' (init items).
Proof.
  split; [apply length_replicate|].
  intros i item' t Hi Ht. simpl in *.
  apply lookup_replicate in Ht as [-> _]. done.
Qed.

(** One task changes, and the trace grows by events of that task. *)
Lemma consistent_update st i item0 t0 t1 evs n :
  consistent' st ->
  items !! i = Some item0 ->
  tasks st !! i = Some t0 ->
  (forall j, j <> i -> observed_of j evs = []) ->
  observed_of i evs ++ remaining opts processor item0 i t1 = remaining opts processor item0 i t0 ->
  task_ok opts processor item0 i t1 ->
  consistent' (mkState (<[i := t1]> (tasks st)) n (trace st ++ evs)).
Proof.
  intros [Hlen Hall] Hi Ht0 Hother Hrem Hok. split; simpl.
  - by rewrite length_insert.
  - intros j item' t Hj Ht. rewrite observed_of_app.
    destruct (decide (j = i)) as [->|Hne].
    + rewrite list_lookup_insert_eq in Ht by (by eapply lookup_lt_Some).
      injection Ht as <-. assert (item' = item0) as -> by congruence.
      split; [|done]. rewrite <- app_assoc, Hrem. by apply Hall.
    + rewrite list_lookup_insert_ne in Ht by done.
      rewrite (Hother j Hne), app_nil_r. by apply Hall.
Qed.

Lemma task_events_succ item' i a :
  S a < Rmax ->
  task_events opts processor item' i (Rmax - a) a
  = Call item' i a :: after_call opts processor item' i a.
Proof.
  intros Ha. destruct (Rmax - a) as [|f] eqn:E; [lia|].
  simpl. unfold after_call. by replace (Rmax - S a) with f by lia.
Qed.

Lemma task_events_last item' i a f :
  ~ S a < Rmax ->
  task_events opts processor item' i (S f) a
  = Call item' i a :: after_call opts processor item' i a.
Proof.
  intros Ha. simpl. unfold after_call.
  destruct (processor item' i a); [done|].
  by replace (Nat.ltb (S a) Rmax) with false by (symmetry; apply Nat.ltb_ge; lia).
Qed.

Lemma task_events_call item' i a :
  a < Rmax ->
  task_events opts processor item' i (Rmax - a) a
  = Call item' i a :: after_call opts processor item' i a.
Proof.
  intros Ha. destruct (decide (S a < Rmax)).
  - by apply task_events_succ.
  - destruct (Rmax - a) as [|f] eqn:E; [lia|]. by apply task_events_last.
Qed.

Lemma step_consistent st l st' :
  consistent' st -> step' st l = Some st' -> consistent' st'.
Proof.
  intros Hc Hstep. pose proof Hc as [Hlen Hall].
  destruct l as [i|i|i]; simpl in Hstep;
    destruct (tasks st !! i) as [t|] eqn:Ht; try done;
    destruct t as [|a|a|o]; try done;
    destruct (items !! i) as [item0|] eqn:Hi; try done.
  - (* Start *)
    destruct (Nat.ltb (active st) (concurrency opts)); [|done].
    destruct (Nat.ltb 0 Rmax) eqn:HR.
    + apply Nat.ltb_lt in HR. injection Hstep as <-.
      eapply consistent_update; eauto.
      * intros j Hj. simpl. by replace (Nat.eqb i j) with false
          by (symmetry; apply Nat.eqb_neq; congruence).
      * simpl. rewrite Nat.eqb_refl. simpl.
        rewrite <- (task_events_call item0 i 0) by done. by rewrite Nat.sub_0_r.
      * split; [done|]. exists None. unfold task_outcome. by rewrite Nat.sub_0_r.
    + apply Nat.ltb_ge in HR. injection Hstep as <-. unfold finish.
      eapply consistent_update; eauto.
      * simpl. by replace Rmax with 0 by lia.
      * simpl. unfold task_outcome. by replace Rmax with 0 by lia.
  - (* Settle *)
    destruct (Hall i item0 (Running a) Hi Ht) as [_ [Ha [le Hle]]].
    destruct (processor item0 i a) as [r|e] eqn:Hp.
    + injection Hstep as <-. unfold finish.
      eapply consistent_update; eauto.
      * simpl. unfold after_call. by rewrite Hp.
      * simpl. rewrite Hle. destruct (Rmax - a) as [|f] eqn:E; [lia|].
        simpl. by rewrite Hp.
    + destruct (Nat.ltb (S a) Rmax) eqn:HS.
      * apply Nat.ltb_lt in HS. injection Hstep as <-.
        eapply consistent_update; eauto.
        -- intros j Hj. simpl. by replace (Nat.eqb i j) with false
             by (symmetry; apply Nat.eqb_neq; congruence).
        -- simpl. rewrite Nat.eqb_refl. simpl. unfold after_call.
           rewrite Hp. by replace (Nat.ltb (S a) Rmax) with true
             by (symmetry; apply Nat.ltb_lt; lia).
        -- split; [done|]. exists e. split; [done|]. rewrite Hle.
           destruct (Rmax - a) as [|f] eqn:E; [lia|]. simpl. rewrite Hp.
           by replace (Rmax - S a) with f by lia.
      * apply Nat.ltb_ge in HS. injection Hstep as <-. unfold finish.
        eapply consistent_update; eauto.
        -- simpl. unfold after_call. rewrite Hp.
           by replace (Nat.ltb (S a) Rmax) with false by (symmetry; apply Nat.ltb_ge; lia).
        -- simpl. rewrite Hle. replace (Rmax - a) with 1 by lia. simpl. by rewrite Hp.
  - (* Wake *)
    destruct (Hall i item0 (Sleeping a) Hi Ht) as [_ [Ha [e [Hp Hle]]]].
    injection Hstep as <-.
    eapply consistent_update; eauto.
    + intros j Hj. simpl. by replace (Nat.eqb i j) with false
        by (symmetry; apply Nat.eqb_neq; congruence).
    + simpl. rewrite Nat.eqb_refl. simpl.
      by rewrite (task_events_call item0 i (S a)) by done.
    + split; [done|]. by exists (Some e).
Qed.

Lemma run_consistent schedule st st' :
  consistent' st -> run' st schedule = Some st' -> consistent' st'.
Proof.
  revert st. induction schedule as [|l schedule IH]; intros st Hc Hrun; simpl in Hrun.
  - by injection Hrun as <-.
  - destruct (step' st l) as [st1|] eqn:Hs; [|done].
    eapply IH; [|done]. by eapply step_consistent.
Qed.

Lemma run_app schedule1 schedule2 st :
  run' st (schedule1 ++ schedule2)
  = match run' st schedule1 with
    | Some st1 => run' st1 schedule2
    | None => None
    end.
Proof.
  revert st. induction schedule1 as [|l s1 IH]; intros st; simpl; [done|].
  destruct (step' st l); [apply IH|done].
Qed.

Lemma reachable_consistent schedule st :
  run' (init items) schedule = Some st -> consistent' st.
Proof. apply run_consistent, consistent_init. Qed.

(** *** What the trace of a run shows of one task *)

Lemma observed_prefix schedule st i item' :
  run' (init items) schedule = Some st ->
  items !! i = Some item' ->
  exists rest,
    task_events opts processor item' i Rmax 0 = observed_of i (trace st) ++ rest.
Proof.
  intros Hrun Hi. apply reachable_consistent in Hrun as [Hlen Hall].
  destruct (lookup_lt_is_Some_2 (tasks st) i) as [t Ht].
  { rewrite Hlen. by eapply lookup_lt_Some. }
  destruct (Hall i item' t Hi Ht) as [Heq _]. eauto.
Qed.

Lemma calls_of_observed i (tr : list (event T R)) :
  calls_of i (observed_of i tr) = calls_of i tr.
Proof.
  induction tr as [|e tr IH]; simpl; [done|].
  destruct (about i e) eqn:E; simpl; rewrite ?E; simpl; by rewrite IH.
Qed.

Lemma calls_of_task_events item' i fuel a :
  calls_of i (task_events opts processor item' i fuel a) <= fuel.
Proof.
  revert a. induction fuel as [|fuel IH]; intros a; simpl; [done|].
  rewrite Nat.eqb_refl. simpl.
  destruct (processor item' i a); simpl; [lia|].
  destruct (Nat.ltb (S a) Rmax); simpl; [|lia].
  rewrite Nat.eqb_refl. simpl. specialize (IH (S a)). lia.
Qed.

Lemma sleep_in_task_events item' i fuel a0 j a ms :
  Sleep j a ms ∈ task_events opts processor item' i fuel a0 ->
  j = i /\ a0 <= a /\ S a < Rmax /\
  exists lastError,
    processor item' i a = Throws lastError /\ ms = backoffMs opts lastError a.
Proof.
  revert a0. induction fuel as [|fuel IH]; intros a0; simpl.
  - by intros ?%elem_of_nil.
  - intros [?|Hin]%elem_of_cons; [done|].
    destruct (processor item' i a0) as [r|e] eqn:Hp; [by apply elem_of_nil in Hin|].
    destruct (Nat.ltb (S a0) Rmax) eqn:HS; [|by apply elem_of_nil in Hin].
    apply elem_of_cons in Hin as [[= -> -> ->]|Hin].
    + apply Nat.ltb_lt in HS. repeat split; try done. by exists e.
    + destruct (IH _ Hin) as (-> & Hle & Hlt & Hex). repeat split; try done. lia.
Qed.

Lemma elem_of_observed i (e : event T R) tr :
  e ∈ tr -> about i e = true -> e ∈ observed_of i tr.
Proof.
  induction tr as [|e' tr IH]; [by intros ?%elem_of_nil|].
  intros [->|Hin]%elem_of_cons Hab; simpl.
  - rewrite Hab. by left.
  - destruct (about i e'); [right|]; by apply IH.
Qed.

Lemma step_in_range st l st' :
  Forall (in_range items) (trace st) -> step' st l = Some st' -> Forall (in_range items) (trace st').
Proof.
  intros Htr Hstep.
  destruct l as [i|i|i]; simpl in Hstep;
    destruct (tasks st !! i) as [t|] eqn:Ht; try done;
    destruct t as [|a|a|o]; try done;
    destruct (items !! i) as [item0|] eqn:Hi; try done.
  - destruct (Nat.ltb (active st) (concurrency opts)); [|done].
    destruct (Nat.ltb 0 Rmax); injection Hstep as <-; simpl;
      apply Forall_app; (split; [done|]); repeat constructor; simpl; eauto.
  - destruct (processor item0 i a) as [r|e]; [|destruct (Nat.ltb (S a) Rmax)];
      injection Hstep as <-; simpl;
      apply Forall_app; (split; [done|]); repeat constructor; simpl; eauto.
    by eapply lookup_lt_Some.
  - injection Hstep as <-; simpl.
    apply Forall_app; (split; [done|]); repeat constructor; simpl; eauto.
Qed.

Lemma run_in_range schedule st st' :
  Forall (in_range items) (trace st) -> run' st schedule = Some st' -> Forall (in_range items) (trace st').
Proof.
  revert st. induction schedule as [|l schedule IH]; intros st Hc Hrun; simpl in Hrun.
  - by injection Hrun as <-.
  - destruct (step' st l) as [st1|] eqn:Hs; [|done].
    eapply IH; [|done]. by eapply step_in_range.
Qed.

(** *** The array a complete run resolves with *)

Lemma results_lookup st outs i :
  results st = Some outs ->
  outs !! i = (tasks st !! i) ≫= @outcome_of T R.
Proof.
  unfold results. intros H. apply mapM_Some in H.
  destruct (tasks st !! i) as [t|] eqn:Ht; simpl.
  - destruct (Forall2_lookup_l _ _ _ _ _ H Ht) as (o & Ho & Hto). by rewrite Ho, Hto.
  - apply lookup_ge_None. apply lookup_ge_None in Ht.
    by rewrite <- (Forall2_length _ _ _ H).
Qed.

Lemma results_determined schedule st outs :
  run' (init items) schedule = Some st ->
  results st = Some outs ->
  outs = imap (fun i item' => task_outcome opts processor item' i) items.
Proof.
  intros Hrun Hres. apply reachable_consistent in Hrun as [Hlen Hall].
  apply list_eq. intros i. rewrite (results_lookup st outs i Hres), list_lookup_imap.
  destruct (items !! i) as [item'|] eqn:Hi; simpl.
  - destruct (lookup_lt_is_Some_2 (tasks st) i) as [t Ht].
    { rewrite Hlen. by eapply lookup_lt_Some. }
    rewrite Ht. simpl.
    destruct (Hall i item' t Hi Ht) as [_ Hok].
    unfold results in Hres. apply mapM_Some in Hres.
    destruct (Forall2_lookup_l _ _ _ _ _ Hres Ht) as (o & _ & Hto).
    destruct t; simpl in *; try done. by rewrite Hok.
  - apply lookup_ge_None in Hi. rewrite <- Hlen in Hi.
    apply lookup_ge_None in Hi. by rewrite Hi.
Qed.

Lemma attempt_loop_item item' i fuel a le :
  item (attempt_loop processor item' i fuel a le) = item'.
Proof.
  revert a le. induction fuel as [|fuel IH]; intros a le; simpl; [done|].
  by destruct (processor item' i a).
Qed.

(** *** Every run ends *)

Abbreviation work_left' := (work_left opts).

Lemma work_left_insert (ts : list (task T R)) i t0 t1 :
  ts !! i = Some t0 ->
  sum_list (map (weight opts) (<[i := t1]> ts)) + weight opts t0
  = sum_list (map (weight opts) ts) + weight opts t1.
Proof.
  revert i. induction ts as [|t ts IH]; intros [|i] Hi; simpl in *; try done.
  - injection Hi as ->. lia.
  - specialize (IH i Hi). lia.
Qed.

Lemma step_decreases st l st' :
  consistent' st -> step' st l = Some st' -> work_left' st' < work_left' st.
Proof.
  intros [Hlen Hall] Hstep. unfold work_left.
  destruct l as [i|i|i]; simpl in Hstep;
    destruct (tasks st !! i) as [t|] eqn:Ht; try done;
    destruct t as [|a|a|o]; try done;
    destruct (items !! i) as [item0|] eqn:Hi; try done.
  - destruct (Nat.ltb (active st) (concurrency opts)); [|done].
    destruct (Nat.ltb 0 Rmax); injection Hstep as <-; simpl.
    + pose proof (work_left_insert (tasks st) i _ (Running 0) Ht). simpl in *. lia.
    + pose proof (work_left_insert (tasks st) i _ (Done (mkOutcome item0 None None)) Ht).
      simpl in *. lia.
  - destruct (processor item0 i a) as [r|e]; [|destruct (Nat.ltb (S a) Rmax)];
      injection Hstep as <-; simpl.
    + pose proof (work_left_insert (tasks st) i _
        (Done (mkOutcome item0 (Some r) None)) Ht). simpl in *. lia.
    + pose proof (work_left_insert (tasks st) i _ (Sleeping a) Ht). simpl in *. lia.
    + pose proof (work_left_insert (tasks st) i _
        (Done (mkOutcome item0 None (Some e))) Ht). simpl in *. lia.
  - destruct (Hall i item0 _ Hi Ht) as [_ [Ha _]].
    injection Hstep as <-; simpl.
    pose proof (work_left_insert (tasks st) i _ (Running (S a)) Ht). simpl in *. lia.
Qed.

Lemma run_bounded schedule st st' :
  consistent' st -> run' st schedule = Some st' ->
  length schedule + work_left' st' <= work_left' st.
Proof.
  revert st. induction schedule as [|l schedule IH]; intros st Hc Hrun; simpl in Hrun.
  - injection Hrun as <-. simpl. lia.
  - destruct (step' st l) as [st1|] eqn:Hs; [|done].
    pose proof (step_decreases _ _ _ Hc Hs).
    pose proof (IH st1 (step_consistent _ _ _ Hc Hs) Hrun). simpl. lia.
Qed.

Lemma work_left_init :
  work_left' (@init T R items) = length items * (2 * Rmax + 2).
Proof.
  unfold work_left, init. simpl. induction (length items) as [|n IH]; simpl; [done|].
  rewrite IH. lia.
Qed.

(** *** No run is stuck before its end *)

Lemma active_none (ts : list (task T R)) :
  Forall (fun t => is_active t = false) ts -> length (filter is_active ts) = 0.
Proof.
  induction 1 as [|t ts Ht _ IH]; [done|].
  rewrite filter_cons, decide_False; [exact IH|]. rewrite Ht. intros [].
Qed.

Lemma step_enabled st :
  consistent' st -> 1 <= concurrency opts -> results st = None ->
  exists l st', step' st l = Some st'.
Proof.
  intros [Hlen Hall] HK Hres.
  assert (forall i t, tasks st !! i = Some t -> exists item', items !! i = Some item') as Hitem.
  { intros i t Ht. apply lookup_lt_is_Some_2. rewrite <- Hlen. by eapply lookup_lt_Some. }
  destruct (decide (Exists (fun t => is_active t = true) (tasks st))) as [Hact|Hact].
  - apply Exists_exists in Hact as (t & Hin & Ht).
    apply list_elem_of_lookup in Hin as [i Hi].
    destruct (Hitem i t Hi) as [item' Hit].
    destruct t as [|a|a|o]; try done.
    + exists (Settle i). simpl. rewrite Hi, Hit.
      destruct (processor item' i a); [|destruct (Nat.ltb (S a) Rmax)]; eauto.
    + exists (Wake i). simpl. rewrite Hi, Hit. eauto.
  - assert (Forall (fun t => is_active t = false) (tasks st)) as Hidle.
    { apply Forall_forall. intros t Hin. destruct (is_active t) eqn:E; [|done].
      exfalso. apply Hact, Exists_exists. eauto. }
    assert (exists i, tasks st !! i = Some Queued) as [i Hi].
    { unfold results in Hres.
      destruct (decide (Forall (fun t => is_Some (outcome_of t)) (tasks st))) as [Hall'|Hnot].
      - apply mapM_is_Some in Hall'. rewrite Hres in Hall'. by destruct Hall'.
      - apply not_Forall_Exists in Hnot; [|apply _].
        apply Exists_exists in Hnot as (t & Hin & Ht).
        apply list_elem_of_lookup in Hin as [i Hi]. exists i.
        rewrite Forall_forall in Hidle.
        assert (is_active t = false) as Hia.
        { apply Hidle. apply list_elem_of_lookup. eauto. }
        destruct t; simpl in *; try done. exfalso. apply Ht. eauto. }
    destruct (Hitem i _ Hi) as [item' Hit].
    exists (Start i). simpl. rewrite Hi, Hit.
    unfold active. rewrite (active_none _ Hidle).
    replace (Nat.ltb 0 (concurrency opts)) with true by (symmetry; apply Nat.ltb_lt; lia).
    destruct (Nat.ltb 0 Rmax); eauto.
Qed.

Lemma run_completes st :
  consistent' st -> 1 <= concurrency opts ->
  exists schedule st' outs, run' st schedule = Some st' /\ results st' = Some outs.
Proof.
  intros Hc HK. remember (work_left' st) as n eqn:Hn.
  revert st Hc Hn. induction n as [n IH] using lt_wf_ind. intros st Hc ->.
  destruct (results st) as [outs|] eqn:Hres.
  - exists [], st, outs. done.
  - destruct (step_enabled st Hc HK Hres) as (l & st1 & Hs).
    destruct (IH (work_left' st1) (step_decreases _ _ _ Hc Hs) st1
                (step_consistent _ _ _ Hc Hs) eq_refl)
      as (schedule & st' & outs & Hrun & Hres').
    exists (l :: schedule), st', outs. simpl. by rewrite Hs.
Qed.
End Facts.

Lemma sleep_in_task_events_intro {T R} opts (processor : T -> nat -> nat -> outcome R)
    item' i fuel a0 a :
  a0 <= a -> a - a0 < fuel -> S a < maxRetries opts ->
  (forall a', a0 <= a' <= a -> exists e, processor item' i a' = Throws e) ->
  exists lastError,
    processor item' i a = Throws lastError /\
    Sleep i a (backoffMs opts lastError a) ∈ task_events opts processor item' i fuel a0.
Proof.
  revert a0. induction fuel as [|fuel IH]; intros a0 Hle Hfuel HS Hthrow; [lia|].
  simpl. destruct (Hthrow a0) as [e He]; [lia|]. rewrite He.
  replace (Nat.ltb (S a0) (maxRetries opts)) with true by (symmetry; apply Nat.ltb_lt; lia).
  destruct (decide (a0 = a)) as [->|Hne].
  - exists e. split; [done|]. right. left.
  - destruct (IH (S a0)) as (e' & He' & Hin); [lia|lia|done| |].
    + intros a' Ha'. apply Hthrow. lia.
    + exists e'. split; [done|]. right. by right.
Qed.

Lemma observed_of_sublist {T R} i (tr : list (event T R)) e :
  e ∈ observed_of i tr -> e ∈ tr.
Proof.
  induction tr as [|e' tr IH]; simpl; [done|].
  destruct (about i e'); [intros [->|?]%elem_of_cons|intros ?]; [left|right; auto|right; auto].
Qed.

Lemma attempt_loop_all_throw {T R} (processor : T -> nat -> nat -> outcome R)
    item' i fuel a le :
  (forall a', exists e, processor item' i a' = Throws e) ->
  result (attempt_loop processor item' i fuel a le) = None /\
  (0 < fuel -> exists e, error (attempt_loop processor item' i fuel a le) = Some e).
Proof.
  intros Hthrow. revert a le. induction fuel as [|fuel IH]; intros a le; simpl.
  - split; [done|lia].
  - destruct (Hthrow a) as [e ->]. destruct (IH (S a) (Some e)) as [H1 H2].
    split; [done|]. intros _. destruct fuel; [by exists e|]. apply H2. lia.
Qed.

(** With a concurrency of one or more, a run of [N] items takes at most
    [N * (2 * maxRetries + 2)] steps and can always be continued to a
    complete run. *)
Lemma run_extends {T R : Type} (opts : RateLimiterOptions)
    (items : list T) (processor : T -> nat -> nat -> outcome R) :
  1 <= concurrency opts ->
  forall schedule st,
    run opts items processor (init items) schedule = Some st ->
    length schedule <= length items * (2 * maxRetries opts + 2) /\
    exists schedule' outs tr,
      processWithRetry opts items processor (schedule ++ schedule') = Some (outs, tr).
Proof.
  intros HK schedule st Hrun.
  pose proof (reachable_consistent _ _ _ _ _ Hrun) as Hc.
  split.
  - pose proof (run_bounded _ _ _ _ _ _ (consistent_init opts items processor) Hrun) as Hb.
    rewrite work_left_init in Hb. lia.
  - destruct (run_completes _ _ _ st Hc HK) as (schedule' & st' & outs & Hrun' & Hres).
    exists schedule', outs, (trace st'). unfold processWithRetry.
    by rewrite run_app, Hrun, Hrun', Hres.
Qed.

(** A complete run resolves with an array of the length of [items]
    whose items are the input items, each once and in order; the
    processor was called at most [maxRetries] times for each item; and
    an item whose calls all throw is in the array, with a [null] result
    and, when a call was made, its last error. *)
Lemma resolved_array {T R : Type} (opts : RateLimiterOptions)
    (items : list T) (processor : T -> nat -> nat -> outcome R)
    (schedule : list label) (outs : list (Outcome T R)) (tr : list (event T R)) :
  processWithRetry opts items processor schedule = Some (outs, tr) ->
  length outs = length items /\
  map item outs = items /\
  (forall i, calls_of i tr <= maxRetries opts) /\
  (forall i item',
     items !! i = Some item' ->
     (forall a, exists e, processor item' i a = Throws e) ->
     exists o, outs !! i = Some o /\ item o = item' /\ result o = None /\
               (0 < maxRetries opts -> is_Some (error o))).
Proof.
  intros Hp. unfold processWithRetry in Hp.
  destruct (run opts items processor (init items) schedule) as [st|] eqn:Hrun; [|done].
  destruct (results st) as [outs'|] eqn:Hres; [|done].
  injection Hp as -> <-.
  pose proof (results_determined _ _ _ _ _ _ Hrun Hres) as ->.
  split; [by rewrite length_imap|]. split; [|split].
  - apply list_eq. intros i. rewrite list_lookup_fmap, list_lookup_imap.
    destruct (items !! i); simpl; [|done]. unfold task_outcome.
    by rewrite attempt_loop_item.
  - intros i. destruct (items !! i) as [item'|] eqn:Hi.
    + destruct (observed_prefix _ _ _ _ _ _ _ Hrun Hi) as [rest Hrest].
      rewrite <- calls_of_observed.
      pose proof (calls_of_task_events opts processor item' i (maxRetries opts) 0) as Hc.
      rewrite Hrest, calls_of_app in Hc. lia.
    + pose proof (run_in_range opts items processor schedule (init items) st
                    (Forall_nil_2 _) Hrun) as Hrange.
      simpl in Hrange. clear -Hrange Hi. apply lookup_ge_None in Hi.
      induction Hrange as [|e tr He _ IH]; simpl; [lia|].
      replace (about i e && is_call e) with false; [done|].
      destruct e as [it j a|j a ms|c t o]; simpl in *; try done.
      * apply lookup_lt_Some in He. symmetry. apply andb_false_intro1.
        apply Nat.eqb_neq. lia.
      * by rewrite andb_false_r.
  - intros i item' Hi Hthrow. rewrite list_lookup_imap, Hi. simpl.
    eexists. split; [done|]. unfold task_outcome.
    rewrite attempt_loop_item. split; [done|].
    destruct (attempt_loop_all_throw processor item' i (maxRetries opts) 0 None Hthrow)
      as [H1 H2].
    split; [done|]. intros HR. destruct (H2 HR) as [e He]. rewrite He. eauto.
Qed.

(** ** The runs of [Any] in which nothing else is thrown

    When the processor rejects with [Error]s only and [onProgress]
    returns, the runs of [Any] are the runs above. *)
Section Simulation.
Context {T R : Type}.
Variable opts : RateLimiterOptions.
Variable items : list T.
Variable processor : T -> nat -> nat -> settled R.
Variable onProgress : nat -> option thrown.
Hypothesis errors_only :
  forall item' i a x, processor item' i a = Rejected x -> exists e, x = AnError e.
Hypothesis callback_returns : forall n, onProgress n = None.

Lemma active_lift (st : state T R) : Any.active (lift st) = active st.
Proof.
  unfold Any.active, active, lift. cbn [Any.tasks].
  induction (tasks st) as [|t ts IH]; [done|].
  rewrite fmap_cons, !filter_cons.
  destruct t; simpl; try done; by rewrite IH.
Qed.

Lemma lookup_lift (st : state T R) i :
  Any.tasks (lift st) !! i = lift_task <$> tasks st !! i.
Proof. unfold lift. cbn [Any.tasks]. by rewrite list_lookup_fmap. Qed.

Lemma insert_lift (ts : list (task T R)) i t :
  <[i := lift_task t]> (lift_task <$> ts) = lift_task <$> <[i := t]> ts.
Proof. by rewrite list_fmap_insert. Qed.

Lemma step_lift (st : state T R) l :
  Any.step opts items processor onProgress (lift st) l
  = lift <$> step opts items (fun item' i a => as_outcome (processor item' i a)) st l.
Proof.
  destruct l as [i|i|i]; cbn [Any.step step]; rewrite lookup_lift.
  - destruct (tasks st !! i) as [[| | |]|]; cbn [fmap option_fmap option_map lift_task];
      try done.
    destruct (items !! i) as [item'|]; [|done].
    rewrite active_lift. destruct (Nat.ltb (active st) (concurrency opts)); [|done].
    destruct (Nat.ltb 0 (maxRetries opts)).
    + cbn. unfold lift. cbn. by rewrite <- insert_lift.
    + cbn. unfold Any.exhausted, Any.report. rewrite callback_returns.
      unfold Any.returns, finish, lift. cbn. by rewrite <- insert_lift.
  - destruct (tasks st !! i) as [[|a|a|o]|]; cbn [fmap option_fmap option_map lift_task];
      try done.
    destruct (items !! i) as [item'|]; [|done].
    destruct (processor item' i a) as [r|x] eqn:Hp; cbn [as_outcome].
    + unfold Any.report. rewrite callback_returns.
      unfold Any.returns, finish, lift. cbn. by rewrite <- insert_lift.
    + destruct (errors_only _ _ _ _ Hp) as [e ->].
      unfold Any.caught. cbn [Any.as_lastError].
      destruct (Nat.ltb (S a) (maxRetries opts)).
      * unfold lift. cbn. by rewrite <- insert_lift.
      * unfold Any.exhausted, Any.report. rewrite callback_returns.
        unfold Any.returns, finish, lift. cbn. by rewrite <- insert_lift.
  - destruct (tasks st !! i) as [[|a|a|o]|]; cbn [fmap option_fmap option_map lift_task];
      try done.
    destruct (items !! i) as [item'|]; [|done].
    unfold lift. cbn. by rewrite <- insert_lift.
Qed.

Lemma run_lift schedule : forall st : state T R,
  Any.run opts items processor onProgress (lift st) schedule
  = lift <$> run opts items (fun item' i a => as_outcome (processor item' i a)) st schedule.
Proof.
  induction schedule as [|l schedule IH]; intros st; cbn [Any.run run]; [done|].
  rewrite step_lift.
  destruct (step opts items _ st l) as [st'|]; cbn [fmap option_fmap option_map]; [|done].
  apply IH.
Qed.

Lemma init_lift : Any.init items = lift (@init T R items).
Proof. unfold Any.init, init, lift. cbn. by rewrite fmap_replicate. Qed.

Lemma mapM_lift (ts : list (task T R)) :
  mapM Any.outcome_of (lift_task <$> ts) = mapM outcome_of ts.
Proof.
  induction ts as [|t ts IH]; [done|].
  rewrite fmap_cons. cbn [mapM]. rewrite IH. by destruct t.
Qed.

Lemma settlement_lift (st : state T R) :
  Any.settlement (lift st) = Fulfilled <$> results st.
Proof. unfold Any.settlement, results, lift. cbn. by rewrite mapM_lift. Qed.

Lemma processWithRetry_lift schedule :
  Any.processWithRetry opts items processor onProgress schedule
  = (fun p => (Fulfilled p.1, p.2))
    <$> processWithRetry opts items (fun item' i a => as_outcome (processor item' i a))
          schedule.
Proof.
  unfold Any.processWithRetry, processWithRetry. rewrite init_lift, run_lift.
  destruct (run opts items _ (init items) schedule) as [st|];
    cbn [fmap option_fmap option_map]; [|done].
  rewrite settlement_lift. by destruct (results st).
Qed.
End Simulation.

Lemma as_outcome_rejected {R} (x : thrown) : exists e, @as_outcome R (Rejected x) = Throws e.
Proof. destruct x; eexists; reflexivity. Qed.

(** C5, as amended: [processWithRetry] resolves when the processor
    rejects with [Error]s only and [onProgress] does not throw.  With a
    concurrency of one or more, a run of [N] items takes at most
    [N * (2 * maxRetries + 2)] steps and can always be continued to a
    run in which [processWithRetry] resolves.  Whenever it settles, it
    resolves, with an array of the length of [items] whose items are
    the input items, each once and in order; the processor was called
    at most [maxRetries] times for each item; and an item whose calls
    are all rejected is in the array, with a [null] result and, when a
    call was made, its last error. *)
Theorem processWithRetry_settles {T R : Type} (opts : RateLimiterOptions)
    (items : list T) (processor : T -> nat -> nat -> settled R)
    (onProgress : nat -> option thrown) :
  (forall item' i a x, processor item' i a = Rejected x -> exists e, x = AnError e) ->
  (forall n, onProgress n = None) ->
  (1 <= concurrency opts ->
   forall schedule st,
     Any.run opts items processor onProgress (Any.init items) schedule = Some st ->
     length schedule <= length items * (2 * maxRetries opts + 2) /\
     exists schedule' outs tr,
       Any.processWithRetry opts items processor onProgress (schedule ++ schedule')
       = Some (Fulfilled outs, tr)) /\
  (forall schedule s tr,
     Any.processWithRetry opts items processor onProgress schedule = Some (s, tr) ->
     exists outs,
       s = Fulfilled outs /\
       length outs = length items /\
       map item outs = items /\
       (forall i, calls_of i tr <= maxRetries opts) /\
       (forall i item',
          items !! i = Some item' ->
          (forall a, exists x, processor item' i a = Rejected x) ->
          exists o, outs !! i = Some o /\ item o = item' /\ result o = None /\
                    (0 < maxRetries opts -> is_Some (error o)))).
Proof.
  intros Herr Hcb.
  set (processor' := fun item' i a => as_outcome (processor item' i a)).
  split.
  - intros HK schedule st Hrun.
    rewrite init_lift, (run_lift opts items processor onProgress Herr Hcb) in Hrun.
    fold processor' in Hrun.
    destruct (run opts items processor' (init items) schedule) as [st0|] eqn:Hrun0;
      [|done].
    destruct (run_extends opts items processor' HK schedule st0 Hrun0)
      as (Hb & schedule' & outs & tr & Hp).
    split; [done|]. exists schedule', outs, tr.
    rewrite (processWithRetry_lift opts items processor onProgress Herr Hcb).
    fold processor'. by rewrite Hp.
  - intros schedule s tr Hp.
    rewrite (processWithRetry_lift opts items processor onProgress Herr Hcb) in Hp.
    fold processor' in Hp.
    destruct (processWithRetry opts items processor' schedule) as [[outs tr']|] eqn:Hp0;
      [|done].
    injection Hp as <- <-. exists outs. split; [done|].
    destruct (resolved_array opts items processor' schedule outs tr' Hp0)
      as (Hlen & Hitems & Hcalls & Hfail).
    split_and!; try done.
    intros i item' Hi Hthrow. apply (Hfail i item' Hi).
    intros a. destruct (Hthrow a) as [x Hx]. unfold processor'. rewrite Hx.
    apply as_outcome_rejected.
Qed.

(** No task returns when every call of the processor is rejected with a
    value that is not an [Error]. *)
Lemma step_none_done {T R} opts (items : list T)
    (processor : T -> nat -> nat -> settled R) onProgress (st st' : Any.state T R) l :
  0 < maxRetries opts ->
  (forall item' i a, processor item' i a = Rejected NoMessage) ->
  Any.step opts items processor onProgress st l = Some st' ->
  Forall (fun t => Any.outcome_of t = None) (Any.tasks st) ->
  Forall (fun t => Any.outcome_of t = None) (Any.tasks st') /\
  length (Any.tasks st') = length (Any.tasks st).
Proof.
  intros HR Hp Hs Hall. destruct l as [i|i|i]; cbn [Any.step] in Hs.
  - destruct (Any.tasks st !! i) as [[| | | |]|]; try done.
    destruct (items !! i); [|done].
    destruct (Nat.ltb (Any.active st) (concurrency opts)); [|done].
    apply Nat.ltb_lt in HR. rewrite HR in Hs. injection Hs as <-. cbn.
    rewrite length_insert. split; [|done]. by apply Forall_insert.
  - destruct (Any.tasks st !! i) as [[|a| | |]|]; try done.
    destruct (items !! i) as [item'|]; [|done].
    rewrite Hp in Hs. injection Hs as <-. cbn.
    rewrite length_insert. split; [|done]. by apply Forall_insert.
  - destruct (Any.tasks st !! i) as [[| |a| |]|]; try done.
    destruct (items !! i); [|done]. injection Hs as <-. cbn.
    rewrite length_insert. split; [|done]. by apply Forall_insert.
Qed.

Lemma run_none_done {T R} opts (items : list T)
    (processor : T -> nat -> nat -> settled R) onProgress schedule :
  0 < maxRetries opts ->
  (forall item' i a, processor item' i a = Rejected NoMessage) ->
  forall st st' : Any.state T R,
  Any.run opts items processor onProgress st schedule = Some st' ->
  Forall (fun t => Any.outcome_of t = None) (Any.tasks st) ->
  Forall (fun t => Any.outcome_of t = None) (Any.tasks st') /\
  length (Any.tasks st') = length (Any.tasks st).
Proof.
  intros HR Hp. induction schedule as [|l schedule IH]; intros st st' Hrun Hall;
    cbn [Any.run] in Hrun.
  - by injection Hrun as <-.
  - destruct (Any.step opts items processor onProgress st l) as [st1|] eqn:Hs; [|done].
    destruct (step_none_done _ _ _ _ _ _ _ HR Hp Hs Hall) as [Hall1 Hlen1].
    destruct (IH _ _ Hrun Hall1) as [Hall' Hlen']. split; [done|congruence].
Qed.

Lemma never_resolves {T R} opts (items : list T)
    (processor : T -> nat -> nat -> settled R) onProgress schedule outs tr :
  0 < maxRetries opts -> items <> [] ->
  (forall item' i a, processor item' i a = Rejected NoMessage) ->
  Any.processWithRetry opts items processor onProgress schedule <> Some (Fulfilled outs, tr).
Proof.
  intros HR Hne Hp. unfold Any.processWithRetry.
  destruct (Any.run opts items processor onProgress (Any.init items) schedule)
    as [st|] eqn:Hrun; [|done].
  destruct (run_none_done _ _ _ _ _ HR Hp _ _ Hrun) as [Hall Hlen].
  { apply Forall_replicate. reflexivity. }
  unfold Any.settlement. destruct (Any.rejected st); [done|].
  destruct (Any.tasks st) as [|t ts].
  - cbn in Hlen. rewrite length_replicate in Hlen. by destruct items.
  - apply Forall_cons in Hall as [Ht _]. cbn [mapM]. by rewrite Ht.
Qed.

(** C10: whatever the schedule of a complete run, the element [i] of
    the array [processWithRetry] resolves with has the item [items[i]];
    it is the outcome of the loop of that item run on its own. *)
Theorem processWithRetry_order {T R : Type} (opts : RateLimiterOptions)
    (items : list T) (processor : T -> nat -> nat -> outcome R)
    (schedule : list label) (outs : list (Outcome T R)) (tr : list (event T R))
    (i : nat) :
  processWithRetry opts items processor schedule = Some (outs, tr) ->
  item <$> outs !! i = items !! i /\
  outs !! i = (fun item' => task_outcome opts processor item' i) <$> items !! i.
Proof.
  intros Hp. unfold processWithRetry in Hp.
  destruct (run opts items processor (init items) schedule) as [st|] eqn:Hrun; [|done].
  destruct (results st) as [outs'|] eqn:Hres; [|done].
  injection Hp as -> <-.
  pose proof (results_determined _ _ _ _ _ _ Hrun Hres) as ->.
  rewrite list_lookup_imap. destruct (items !! i); simpl; [|done].
  unfold task_outcome. by rewrite attempt_loop_item.
Qed.

(** C6: in every run, the calls and sleeps of an item follow the order
    of its loop.  The sleep before the retry number [k] of an item comes
    after the failure of its call number [k - 1] while a retry remains,
    and lasts [initialBackoffMs * 2 ^ (k - 1)] when that failure is a
    rate limit and [initialBackoffMs] otherwise; in a complete run an
    item whose calls fail does sleep so before each retry; and for a
    positive [initialBackoffMs] the rate-limit delays grow strictly
    with [k]. *)
Theorem backoff_delays {T R : Type} (opts : RateLimiterOptions)
    (items : list T) (processor : T -> nat -> nat -> outcome R)
    (schedule : list label) (st : state T R) (i : nat) (item' : T) :
  run opts items processor (init items) schedule = Some st ->
  items !! i = Some item' ->
  (* the calls and sleeps of the task follow the order of its loop *)
  (exists rest, task_events opts processor item' i (maxRetries opts) 0
                = observed_of i (trace st) ++ rest) /\
  (* a sleep before the retry number [k] follows a failure and lasts as stated *)
  (forall k ms,
     Sleep i (k - 1) ms ∈ trace st -> 1 <= k ->
     k < maxRetries opts /\
     exists lastError,
       processor item' i (k - 1) = Throws lastError /\
       ms = (if isRateLimit lastError
             then initialBackoffMs opts * 2 ^ (Z.of_nat k - 1)
             else initialBackoffMs opts)%Z) /\
  (* in a complete run, a task whose calls fail sleeps before each retry *)
  (forall k,
     is_Some (results st) -> 1 <= k -> k < maxRetries opts ->
     (forall a, a < k -> exists e, processor item' i a = Throws e) ->
     exists lastError,
       processor item' i (k - 1) = Throws lastError /\
       Sleep i (k - 1) (backoffMs opts lastError (k - 1)) ∈ trace st) /\
  (* the rate-limit delays grow strictly *)
  ((0 < initialBackoffMs opts)%Z ->
   forall k1 k2, 1 <= k1 -> k1 < k2 ->
     (initialBackoffMs opts * 2 ^ (Z.of_nat k1 - 1)
      < initialBackoffMs opts * 2 ^ (Z.of_nat k2 - 1))%Z).
Proof.
  intros Hrun Hi.
  pose proof (observed_prefix _ _ _ _ _ _ _ Hrun Hi) as [rest Hrest].
  split; [by exists rest|]. split; [|split].
  - intros k ms Hin Hk.
    assert (Sleep i (k - 1) ms ∈ task_events opts processor item' i (maxRetries opts) 0) as Hin'.
    { rewrite Hrest. apply elem_of_app. left. by apply elem_of_observed; [|simpl; apply Nat.eqb_refl]. }
    apply sleep_in_task_events in Hin' as (_ & _ & HS & e & He & ->).
    split; [lia|]. exists e. split; [done|]. unfold backoffMs.
    by replace (Z.of_nat k - 1)%Z with (Z.of_nat (k - 1)) by lia.
  - intros k [outs Hres] Hk HkR Hthrow.
    destruct (sleep_in_task_events_intro opts processor item' i (maxRetries opts) 0 (k - 1))
      as (e & He & Hin); [lia|lia|lia| |].
    { intros a' Ha'. apply Hthrow. lia. }
    exists e. split; [done|].
    pose proof (reachable_consistent _ _ _ _ _ Hrun) as [Hlen Hall].
    destruct (lookup_lt_is_Some_2 (tasks st) i) as [t Ht].
    { rewrite Hlen. by eapply lookup_lt_Some. }
    destruct (Hall i item' t Hi Ht) as [Heq _].
    pose proof (results_lookup _ _ i Hres) as Hl. rewrite Ht in Hl. simpl in Hl.
    destruct t as [| | |o]; simpl in Hl.
    1-3: (apply lookup_ge_None in Hl; unfold results in Hres; apply mapM_Some in Hres;
          apply Forall2_length in Hres; apply lookup_lt_Some in Ht; lia).
    simpl in Heq. rewrite app_nil_r in Heq. rewrite <- Heq in Hin.
    by eapply observed_of_sublist.
  - intros Hpos k1 k2 Hk1 Hk12.
    apply Z.mul_lt_mono_pos_l; [done|]. apply Z.pow_lt_mono_r; lia.
Qed.

(** ** [processAll] *)

Lemma processWithRetry_outcomes {T R} opts (items : list T)
    (processor : T -> nat -> nat -> outcome R) schedule outs tr :
  processWithRetry opts items processor schedule = Some (outs, tr) ->
  outs = imap (fun i item' => task_outcome opts processor item' i) items.
Proof.
  unfold processWithRetry. intros Hp.
  destruct (run opts items processor (init items) schedule) as [st|] eqn:Hrun; [|done].
  destruct (results st) as [outs'|] eqn:Hres; [|done].
  injection Hp as -> <-. by eapply results_determined.
Qed.

Lemma length_omap_le {A B} (f : A -> option B) l : length (omap f l) <= length l.
Proof.
  unfold omap. induction l as [|x l IH]; simpl; [done|].
  destruct (f x); simpl; lia.
Qed.

Lemma omap_imap_all {A B C} (F : nat -> A -> B) (k : B -> option C)
    (g : nat -> A -> C) (l : list A) :
  (forall i x, l !! i = Some x -> k (F i x) = Some (g i x)) ->
  omap k (imap F l) = imap g l.
Proof.
  revert F g. induction l as [|x l IH]; intros F g H; [done|].
  rewrite !imap_cons. unfold omap. simpl. rewrite (H 0 x eq_refl).
  f_equal. apply IH. intros i y Hi. apply (H (S i) y Hi).
Qed.

(** X8: [processAll] resolves with the values of the items whose task
    obtained one that is not [null], in the order of the items and
    whatever the schedule: no more values than items, and one value for
    each item when every first call returns a value that is not
    [null]. *)
Theorem processAll_values {T R : Type} (opts : RateLimiterOptions) (items : list T)
    (processor : T -> nat -> nat -> outcome R) (is_null : R -> bool)
    (schedule : list label) (vals : list R) (tr : list (event T R)) :
  processAll opts items processor is_null schedule = Some (vals, tr) ->
  vals = omap (kept is_null)
           (imap (fun i item' => task_outcome opts processor item' i) items) /\
  length vals <= length items /\
  (forall g : nat -> T -> R,
     0 < maxRetries opts ->
     (forall i item', items !! i = Some item' ->
        processor item' i 0 = Returns (g i item') /\ is_null (g i item') = false) ->
     vals = imap g items).
Proof.
  unfold processAll. intros H.
  destruct (processWithRetry opts items processor schedule) as [[outs tr']|] eqn:Hp; [|done].
  injection H as <- <-.
  apply processWithRetry_outcomes in Hp as ->.
  split; [done|]. split.
  - etrans; [apply length_omap_le|]. by rewrite length_imap.
  - intros g Hr Hg. apply omap_imap_all. intros i item' Hi.
    destruct (Hg i item' Hi) as [Hcall Hnull].
    unfold task_outcome, kept. destruct (maxRetries opts) as [|n]; [lia|].
    cbn [attempt_loop]. rewrite Hcall. simpl. by rewrite Hnull.
Qed.

(** ** [chunkArray] and [processInChunks] *)

Section ChunkFacts.
Context {T : Type}.

Lemma ceil_step n size :
  1 <= size -> 1 <= n -> (n + size - 1) / size = S ((n - size + size - 1) / size).
Proof.
  intros Hs Hn. destruct (decide (size <= n)) as [Hle|Hlt].
  - replace (n + size - 1) with ((n - size + size - 1) + 1 * size) by lia.
    rewrite Nat.div_add by lia. lia.
  - replace (n - size + size - 1) with (size - 1) by lia.
    rewrite (Nat.div_small (size - 1)) by lia.
    symmetry. apply (Nat.div_unique _ _ _ (n - 1)); lia.
Qed.

Lemma chunk_loop_spec (array : list T) size :
  1 <= size ->
  forall fuel i, length array - i <= fuel ->
  exists chunks,
    chunk_loop fuel array size i = Some chunks /\
    concat chunks = drop i array /\
    (forall k c, chunks !! k = Some c -> c = take size (drop (i + k * size) array)
                                        /\ i + k * size < length array) /\
    length chunks = (length array - i + size - 1) / size.
Proof.
  intros Hs. induction fuel as [|fuel IH]; intros i Hfuel.
  - exists []. cbn [chunk_loop].
    destruct (Nat.ltb_spec i (length array)) as [Hlt|Hge]; [lia|].
    split; [done|]. split; [by rewrite drop_ge|]. split; [done|].
    replace (length array - i) with 0 by lia. simpl. rewrite Nat.div_small; lia.
  - cbn [chunk_loop].
    destruct (Nat.ltb_spec i (length array)) as [Hlt|Hge].
    + destruct (IH (i + size)) as (chunks & -> & Hcat & Hk & Hlen); [lia|].
      eexists. split; [reflexivity|].
      replace (i + size - i) with size by lia.
      split; [|split].
      * simpl. rewrite Hcat, <- drop_drop. apply take_drop.
      * intros [|k] c Hc; simpl in Hc.
        -- injection Hc as <-. rewrite Nat.add_0_r. done.
        -- destruct (Hk k c Hc) as [-> Hb]. split; [f_equal; f_equal; lia|lia].
      * simpl. rewrite Hlen.
        rewrite (ceil_step (length array - i) size) by lia.
        do 3 f_equal. lia.
    + exists []. split; [done|]. split; [by rewrite drop_ge|]. split; [done|].
      replace (length array - i) with 0 by lia. simpl. rewrite Nat.div_small; lia.
Qed.

(** With a size of zero the loop of [chunkArray] does not move: on an
    array that is not empty it never ends. *)
Lemma chunk_loop_zero (array : list T) fuel :
  array <> [] -> chunk_loop fuel array 0 0 = None.
Proof.
  intros Hne. induction fuel as [|fuel IH]; cbn [chunk_loop].
  - destruct array; [done|]. done.
  - destruct array; [done|]. cbn [length Nat.ltb Nat.leb].
    change (0 + 0) with 0. by rewrite IH.
Qed.
End ChunkFacts.

(** X9: [chunkArray] with a size of one or more returns: its chunks put
    one after the other are the array, there are as many chunks as the
    length divided by the size, rounded up, no chunk is empty or longer
    than the size, and every chunk but the last has that size. *)
Theorem chunkArray_chunks {T : Type} (array : list T) (size : nat) :
  1 <= size ->
  exists chunks,
    chunkArray array size = Some chunks /\
    concat chunks = array /\
    length chunks = (length array + size - 1) / size /\
    (forall k c, chunks !! k = Some c ->
       c = take size (drop (k * size) array) /\
       1 <= length c <= size /\
       (S k < length chunks -> length c = size)).
Proof.
  intros Hs. destruct (chunk_loop_spec array size Hs (length array) 0)
    as (chunks & Hc & Hcat & Hk & Hlen); [lia|].
  exists chunks. split; [done|]. split; [done|].
  rewrite Nat.sub_0_r in Hlen. split; [done|].
  intros k c Hkc. destruct (Hk k c Hkc) as [-> Hb]. simpl in *.
  split; [done|]. rewrite length_take, length_drop. split; [lia|].
  intros Hnext.
  destruct (lookup_lt_is_Some_2 chunks (S k) Hnext) as [c' Hc'].
  destruct (Hk _ _ Hc') as [_ Hb']. simpl in Hb'. lia.
Qed.

(** X10: [chunkArray] with the size 0 on an array that is not empty: the
    loop is still running after any number of iterations, and no array
    of chunks is returned. *)
Theorem chunkArray_size_zero {T : Type} (array : list T) :
  array <> [] ->
  (forall fuel, chunk_loop fuel array 0 0 = None) /\
  chunkArray array 0 = None.
Proof.
  intros Hne. split; [intros fuel|unfold chunkArray]; by apply chunk_loop_zero.
Qed.

Section InChunks.
Context {T R : Type}.
Variable processor : nat -> T -> outcome R.
Variable first_rejection : list Error -> Error.
Variable delay : Z.

Abbreviation call_chunk' := (call_chunk processor).
Abbreviation chunks_loop' := (chunks_loop processor first_rejection delay).

Lemma call_chunk_calls i chunk :
  omap called (call_chunk' i chunk).1 = List.seq i (length chunk) /\
  omap slept (call_chunk' i chunk).1 = [].
Proof.
  revert i. induction chunk as [|x chunk IH]; intros i; simpl; [done|].
  destruct (call_chunk' (S i) chunk) as [calls settled] eqn:E.
  specialize (IH (S i)). rewrite E in IH. simpl in *.
  destruct IH as [IH1 IH2]. unfold omap in *. simpl. by rewrite IH1, IH2.
Qed.

Lemma call_chunk_settled i chunk :
  (call_chunk' i chunk).2 = imap (fun k x => processor (i + k) x) chunk.
Proof.
  revert i. induction chunk as [|x chunk IH]; intros i; simpl; [done|].
  destruct (call_chunk' (S i) chunk) as [calls settled] eqn:E.
  specialize (IH (S i)). rewrite E in IH. simpl in *. rewrite IH.
  rewrite Nat.add_0_r. f_equal. apply imap_ext. intros k y _. simpl. f_equal. lia.
Qed.

Lemma settled_all_return (g : nat -> T -> R) i chunk :
  (forall k x, chunk !! k = Some x -> processor (i + k) x = Returns (g (i + k) x)) ->
  rejections (imap (fun k x => processor (i + k) x) chunk) = [] /\
  fulfilments (imap (fun k x => processor (i + k) x) chunk)
  = imap (fun k x => g (i + k) x) chunk.
Proof.
  revert i. induction chunk as [|x chunk IH]; intros i H; [done|].
  rewrite !imap_cons. rewrite (H 0 x eq_refl). simpl.
  destruct (IH (S i)) as [IH1 IH2].
  { intros k y Hk. replace (S i + k) with (i + S k) by lia. by apply H. }
  split.
  - erewrite imap_ext; [exact IH1|]. intros k y _. simpl. f_equal. lia.
  - f_equal. erewrite imap_ext; [rewrite IH2|].
    + apply imap_ext. intros k y _. simpl. f_equal. lia.
    + intros k y _. simpl. f_equal. lia.
Qed.

Lemma rejections_thrown (settled : list (outcome R)) e :
  e ∈ rejections settled -> Throws e ∈ settled.
Proof.
  induction settled as [|[r|e'] settled IH]; simpl; [by intros ?%elem_of_nil| |].
  - intros H. right. by apply IH.
  - intros [->|H]%elem_of_cons; [left|right; by apply IH].
Qed.

Lemma rejections_nonempty (settled : list (outcome R)) e :
  Throws e ∈ settled -> rejections settled <> [].
Proof.
  induction settled as [|[r|e'] settled IH]; simpl.
  - by intros ?%elem_of_nil.
  - intros [?|H]%elem_of_cons; [done|]. by apply IH.
  - done.
Qed.

(** The loop over chunks whose items all succeed. *)
Lemma chunks_loop_all (g : nat -> T -> R) chunks :
  forall i results' observed,
  (forall p x, concat chunks !! p = Some x -> processor (i + p) x = Returns (g (i + p) x)) ->
  exists log,
    chunks_loop' i chunks results' observed
    = (Returns (results' ++ imap (fun p x => g (i + p) x) (concat chunks)),
       observed ++ log) /\
    omap called log = List.seq i (length (concat chunks)) /\
    omap slept log = replicate (length chunks - 1) delay.
Proof.
  induction chunks as [|chunk chunks IH]; intros i results' observed H.
  - exists []. simpl. by rewrite !app_nil_r.
  - cbn [chunks_loop].
    pose proof (call_chunk_calls i chunk) as [Hcalls Hslept].
    pose proof (call_chunk_settled i chunk) as Hsettled.
    destruct (call_chunk' i chunk) as [calls settled]. simpl in Hcalls, Hslept, Hsettled.
    subst settled.
    destruct (settled_all_return g i chunk) as [Hrej Hful].
    { intros k x Hk. apply H. simpl. by apply lookup_app_l_Some. }
    unfold promise_all. rewrite Hrej, Hful.
    edestruct (IH (i + length chunk)) as (log & -> & Hc & Hs).
    { intros p x Hp. replace (i + length chunk + p) with (i + (length chunk + p)) by lia.
      apply H. simpl. rewrite lookup_app_r by lia.
      by replace (length chunk + p - length chunk) with p by lia. }
    destruct chunks as [|chunk' chunks'].
    + exists (calls ++ log). simpl in *. rewrite !app_nil_r in *.
      split; [|split].
      * by rewrite <- app_assoc.
      * rewrite omap_app, Hcalls, Hc. simpl. by rewrite app_nil_r.
      * rewrite omap_app, Hslept, Hs. done.
    + exists (calls ++ [SleepBetween delay] ++ log).
      split; [|split].
      * f_equal; [f_equal|].
        -- rewrite <- app_assoc. f_equal.
           change (concat (chunk :: chunk' :: chunks'))
             with (chunk ++ concat (chunk' :: chunks')).
           rewrite imap_app. f_equal.
           apply imap_ext. intros p x _. simpl. f_equal. lia.
        -- by rewrite <- !app_assoc.
      * rewrite !omap_app, Hcalls, Hc.
        change (omap called [SleepBetween delay]) with (@nil nat).
        change (concat (chunk :: chunk' :: chunks'))
          with (chunk ++ concat (chunk' :: chunks')).
        by rewrite length_app, List.seq_app.
      * rewrite !omap_app, Hslept, Hs. simpl. by rewrite Nat.sub_0_r.
Qed.

Lemma settled_no_rejection i chunk :
  (forall k x, chunk !! k = Some x -> exists r, processor (i + k) x = Returns r) ->
  rejections (imap (fun k x => processor (i + k) x) chunk) = [].
Proof.
  revert i. induction chunk as [|x chunk IH]; intros i H; [done|].
  rewrite imap_cons. destruct (H 0 x eq_refl) as [r ->]. simpl.
  erewrite imap_ext; [apply (IH (S i))|].
  - intros k y Hk. replace (S i + k) with (i + S k) by lia. by apply H.
  - intros k y _. simpl. f_equal. lia.
Qed.

(** The loop over chunks of which one holds an item that fails. *)
Lemma chunks_loop_fails good bad rest :
  forall i results' observed,
  (forall p x, concat good !! p = Some x -> exists r, processor (i + p) x = Returns r) ->
  (exists k x e, bad !! k = Some x /\
                 processor (i + length (concat good) + k) x = Throws e) ->
  exists log,
    chunks_loop' i (good ++ bad :: rest) results' observed
    = (Throws (first_rejection
         (rejections (imap (fun k x => processor (i + length (concat good) + k) x) bad))),
       observed ++ log) /\
    rejections (imap (fun k x => processor (i + length (concat good) + k) x) bad) <> [] /\
    omap called log = List.seq i (length (concat good) + length bad) /\
    omap slept log = replicate (length good) delay.
Proof.
  induction good as [|chunk good IH]; intros i results' observed Hgood Hbad.
  - cbn [app chunks_loop concat length]. rewrite Nat.add_0_r in *.
    pose proof (call_chunk_calls i bad) as [Hcalls Hslept].
    pose proof (call_chunk_settled i bad) as Hsettled.
    destruct (call_chunk' i bad) as [calls settled]. simpl in Hcalls, Hslept, Hsettled.
    subst settled.
    assert (rejections (imap (fun k x => processor (i + k) x) bad) <> []) as Hne.
    { destruct Hbad as (k & x & e & Hk & He). apply (rejections_nonempty _ e).
      apply list_elem_of_lookup. exists k. by rewrite list_lookup_imap, Hk, <- He. }
    exists calls. unfold promise_all.
    destruct (rejections (imap (fun k x => processor (i + k) x) bad)) as [|e es] eqn:E; [done|].
    done.
  - cbn [app chunks_loop].
    pose proof (call_chunk_calls i chunk) as [Hcalls Hslept].
    pose proof (call_chunk_settled i chunk) as Hsettled.
    destruct (call_chunk' i chunk) as [calls settled]. simpl in Hcalls, Hslept, Hsettled.
    subst settled.
    pose proof (settled_no_rejection i chunk) as Hrej.
    unfold promise_all. rewrite Hrej
      by (intros k x Hk; apply Hgood; simpl; by apply lookup_app_l_Some).
    change (concat (chunk :: good)) with (chunk ++ concat good) in *.
    rewrite length_app in *.
    destruct (IH (i + length chunk)
                (results' ++ fulfilments (imap (fun k x => processor (i + k) x) chunk))
                (observed ++ calls ++ [SleepBetween delay]))
      as (log & Hloop & Hne & Hc & Hs).
    { intros p x Hp. replace (i + length chunk + p) with (i + (length chunk + p)) by lia.
      apply Hgood. rewrite lookup_app_r by lia.
      by replace (length chunk + p - length chunk) with p by lia. }
    { destruct Hbad as (k & x & e & Hk & He). exists k, x, e. split; [done|].
      by rewrite <- He, Nat.add_assoc. }
    exists (calls ++ [SleepBetween delay] ++ log).
    rewrite Nat.add_assoc.
    split; [|split; [|split]].
    + destruct (good ++ bad :: rest) as [|c cs] eqn:E; [by destruct good|].
      rewrite Hloop. by rewrite <- !app_assoc.
    + done.
    + rewrite !omap_app, Hcalls, Hc.
      change (omap called [SleepBetween delay]) with (@nil nat).
      rewrite <- Nat.add_assoc, (List.seq_app (length chunk)). done.
    + rewrite !omap_app, Hslept, Hs. done.
Qed.
End InChunks.

Lemma concat_take_chunks {T} (items : list T) size (chunks : list (list T)) j :
  (forall k c, chunks !! k = Some c -> c = take size (drop (k * size) items)) ->
  j <= length chunks ->
  concat (take j chunks) = take (j * size) items.
Proof.
  intros Hk. induction j as [|j IH]; intros Hj; [done|].
  destruct (lookup_lt_is_Some_2 chunks j) as [c Hc]; [lia|].
  rewrite (take_S_r _ _ _ Hc), concat_app, IH by lia. simpl.
  rewrite app_nil_r, (Hk _ _ Hc), take_take_drop. f_equal. lia.
Qed.

(** X11: [processInChunks] when no item fails: the results in the order of
    the items, every item called once and in order, and a pause after
    every chunk but the last. *)
Theorem processInChunks_all {T R : Type} (processor : nat -> T -> outcome R)
    (first_rejection : list Error -> Error) (items : list T) (chunkSize : nat)
    (delayBetweenChunks : Z) (g : nat -> T -> R) :
  1 <= chunkSize ->
  (forall i x, items !! i = Some x -> processor i x = Returns (g i x)) ->
  exists log,
    processInChunks processor first_rejection items chunkSize delayBetweenChunks
    = Some (Returns (imap g items), log) /\
    omap called log = List.seq 0 (length items) /\
    omap slept log
    = replicate ((length items + chunkSize - 1) / chunkSize - 1) delayBetweenChunks.
Proof.
  intros Hs Hg. unfold processInChunks.
  destruct (chunkArray_chunks items chunkSize Hs) as (chunks & -> & Hcat & Hlen & _).
  destruct (chunks_loop_all processor first_rejection delayBetweenChunks g chunks 0 [] [])
    as (log & -> & Hc & Hsl).
  { intros p x Hp. rewrite Hcat in Hp. by apply Hg. }
  exists log. rewrite Hcat in *. rewrite Hlen in Hsl. done.
Qed.

(** X12: [processInChunks] when an item fails: it rejects with a rejection
    of the first chunk that holds a failing item; the items of that
    chunk and of the chunks before it were called, no item of a later
    chunk is. *)
Theorem processInChunks_rejects {T R : Type} (processor : nat -> T -> outcome R)
    (first_rejection : list Error -> Error) (items : list T) (chunkSize : nat)
    (delayBetweenChunks : Z) (j : nat) :
  1 <= chunkSize ->
  (forall l, l <> [] -> first_rejection l ∈ l) ->
  (forall i x, i < j * chunkSize -> items !! i = Some x ->
               exists r, processor i x = Returns r) ->
  (exists k x e, j * chunkSize <= k < (j + 1) * chunkSize /\
                 items !! k = Some x /\ processor k x = Throws e) ->
  exists e log,
    processInChunks processor first_rejection items chunkSize delayBetweenChunks
    = Some (Throws e, log) /\
    (exists k x, j * chunkSize <= k < (j + 1) * chunkSize /\
                 items !! k = Some x /\ processor k x = Throws e) /\
    omap called log = List.seq 0 (Nat.min (length items) ((j + 1) * chunkSize)) /\
    omap slept log = replicate j delayBetweenChunks.
Proof.
  intros Hs Hfirst Hgood (k & x & e & Hk & Hx & He). unfold processInChunks.
  destruct (chunkArray_chunks items chunkSize Hs) as (chunks & -> & Hcat & Hlen & Hch).
  pose proof (lookup_lt_Some _ _ _ Hx) as Hkn.
  assert (j < length chunks) as Hj.
  { rewrite Hlen. apply Nat.div_le_lower_bound; nia. }
  destruct (lookup_lt_is_Some_2 chunks j Hj) as [bad Hbad].
  assert (forall k c, chunks !! k = Some c -> c = take chunkSize (drop (k * chunkSize) items))
    as Hshape by (intros k' c Hc; by destruct (Hch k' c Hc)).
  pose proof (concat_take_chunks items chunkSize chunks j Hshape ltac:(lia)) as Hpre.
  assert (length (concat (take j chunks)) = j * chunkSize) as Hprelen.
  { rewrite Hpre, length_take. nia. }
  pose proof (Hshape _ _ Hbad) as Hbad_eq.
  rewrite <- (take_drop_middle chunks j bad Hbad).
  destruct (chunks_loop_fails processor first_rejection delayBetweenChunks
              (take j chunks) bad (drop (S j) chunks) 0 [] [])
    as (log & -> & Hne & Hc & Hsl).
  { intros p y Hp. rewrite Hpre in Hp. apply lookup_take_Some in Hp as [Hp Hlt].
    by apply Hgood. }
  { exists (k - j * chunkSize), x, e. split.
    - rewrite Hbad_eq. rewrite lookup_take_lt by nia. rewrite lookup_drop.
      by replace (j * chunkSize + (k - j * chunkSize)) with k by lia.
    - rewrite Hprelen. simpl. by replace (j * chunkSize + (k - j * chunkSize)) with k by lia. }
  rewrite Hprelen in *. simpl in *.
  eexists _, log. split; [reflexivity|]. split; [|split].
  - pose proof (Hfirst _ Hne) as Hin. apply rejections_thrown in Hin.
    apply list_elem_of_lookup in Hin as [k' Hk'].
    rewrite list_lookup_imap in Hk'.
    destruct (bad !! k') as [y|] eqn:Hy; [|done]. simpl in Hk'.
    exists (j * chunkSize + k'), y.
    rewrite Hbad_eq in Hy. apply lookup_take_Some in Hy as [Hy Hlt].
    rewrite lookup_drop in Hy. split; [lia|]. split; [done|]. by injection Hk'.
  - rewrite Hc. f_equal. rewrite Hbad_eq, length_take, length_drop. nia.
  - rewrite Hsl, length_take. f_equal. lia.
Qed.

(** ** The counter of [onProgress] *)

Section CounterFacts.
Context {T R : Type}.
Variable opts : RateLimiterOptions.
Variable items : list T.
Variable processor : T -> nat -> nat -> settled R.
Variable onProgress : nat -> option thrown.

Lemma count_insert {A} (q : A -> bool) (ts : list A) i t0 t1 :
  ts !! i = Some t0 ->
  length (filter q (<[i := t1]> ts)) + (if q t0 then 1 else 0)
  = length (filter q ts) + (if q t1 then 1 else 0).
Proof.
  revert i. induction ts as [|t ts IH]; intros [|i] Hi; simpl in *; try done.
  - injection Hi as ->. rewrite !filter_cons.
    destruct (q t0) eqn:E0, (q t1) eqn:E1; simpl;
      repeat (rewrite decide_True by done); repeat (rewrite decide_False by done);
      simpl; lia.
  - rewrite !filter_cons. specialize (IH i Hi).
    destruct (decide (q t)); simpl; lia.
Qed.

Lemma counted_init : counted items onProgress (@Any.init T R items).
Proof.
  unfold counted, Any.init. cbn.
  assert (forall n, length (filter Any.is_done (replicate n (@Any.Queued T R))) = 0) as H.
  { induction n as [|n IH]; simpl; [done|].
    rewrite filter_cons, decide_False; [exact IH|]. simpl. intros []. }
  rewrite H, length_replicate. split_and!; (done || lia).
Qed.

(** A task goes on without a report. *)
Lemma counted_update (st : Any.state T R) i t0 t1 extra rejected' :
  counted items onProgress st ->
  Any.tasks st !! i = Some t0 -> Any.is_done t0 = false -> Any.is_done t1 = false ->
  omap reported extra = [] ->
  counted items onProgress
    (Any.mkState (<[i := t1]> (Any.tasks st)) (Any.completed st)
                 (Any.trace st ++ extra) rejected').
Proof.
  intros (Hlen & Hr & Hle & Heq) Hi H0 H1 Hex. unfold counted.
  cbn [Any.tasks Any.completed Any.trace].
  pose proof (count_insert Any.is_done (Any.tasks st) i t0 t1 Hi) as Hc.
  rewrite H0, H1 in Hc. rewrite length_insert, omap_app, Hex, app_nil_r.
  split_and!; try done; [lia|]. intros Hcb. specialize (Heq Hcb). lia.
Qed.

(** A report that returns, and the task returns after it. *)
Lemma counted_report_returns (st : Any.state T R) i t0 o o' :
  counted items onProgress st ->
  Any.tasks st !! i = Some t0 -> Any.is_done t0 = false ->
  counted items onProgress (Any.returns (Any.report items onProgress st o).1 i o').
Proof.
  intros (Hlen & Hr & Hle & Heq) Hi H0. unfold counted, Any.returns, Any.report.
  cbn [Any.tasks Any.completed Any.trace fst].
  pose proof (count_insert Any.is_done (Any.tasks st) i t0 (Any.Done o') Hi) as Hc.
  rewrite H0 in Hc. cbn [Any.is_done] in Hc.
  rewrite length_insert, omap_app, Hr, List.seq_S, fmap_app.
  split_and!; try done; [lia|]. intros Hcb. specialize (Heq Hcb). lia.
Qed.

(** A report that throws. *)
Lemma counted_report_threw (st : Any.state T R) o x :
  counted items onProgress st ->
  onProgress (Any.completed st) = Some x ->
  counted items onProgress (Any.report items onProgress st o).1.
Proof.
  intros (Hlen & Hr & Hle & Heq) Hx. unfold counted, Any.report.
  cbn [Any.tasks Any.completed Any.trace fst].
  rewrite omap_app, Hr, List.seq_S, fmap_app.
  split_and!; try done; [lia|]. intros Hcb. by rewrite Hcb in Hx.
Qed.

Lemma report_tasks (st : Any.state T R) o :
  Any.tasks (Any.report items onProgress st o).1 = Any.tasks st.
Proof. reflexivity. Qed.

Lemma counted_throws (st : Any.state T R) i t0 x :
  counted items onProgress st ->
  Any.tasks st !! i = Some t0 -> Any.is_done t0 = false ->
  counted items onProgress (Any.throws st i x).
Proof.
  intros Hc Hi H0. unfold Any.throws.
  rewrite <- (app_nil_r (Any.trace st)).
  by apply (counted_update st i t0 (Any.Failed x) []).
Qed.

Lemma counted_exhausted (st : Any.state T R) i t0 item' lastError :
  counted items onProgress st ->
  Any.tasks st !! i = Some t0 -> Any.is_done t0 = false ->
  counted items onProgress (Any.exhausted items onProgress st i item' lastError).
Proof.
  intros Hc Hi H0. unfold Any.exhausted.
  destruct (Any.report items onProgress st _) as [st' thrown'] eqn:E.
  assert (st' = (Any.report items onProgress st (mkOutcome item' None lastError)).1)
    as -> by (by rewrite E).
  assert (thrown' = onProgress (Any.completed st)) as -> by (by injection E).
  destruct (onProgress (Any.completed st)) as [x|] eqn:Hx.
  - eapply counted_throws; [by eapply counted_report_threw|by rewrite report_tasks|done].
  - by eapply counted_report_returns.
Qed.

Lemma counted_caught (st : Any.state T R) i t0 item' attempt error :
  counted items onProgress st ->
  Any.tasks st !! i = Some t0 -> Any.is_done t0 = false ->
  counted items onProgress (Any.caught opts items onProgress st i item' attempt error).
Proof.
  intros Hc Hi H0. unfold Any.caught.
  destruct (Any.as_lastError error) as [lastError|typeError].
  - destruct (Nat.ltb (S attempt) (maxRetries opts)).
    + by apply (counted_update st i t0 (Any.Sleeping attempt)).
    + by eapply counted_exhausted.
  - by eapply counted_throws.
Qed.

Lemma step_counted (st : Any.state T R) l st' :
  counted items onProgress st ->
  Any.step opts items processor onProgress st l = Some st' ->
  counted items onProgress st'.
Proof.
  intros Hc Hs. destruct l as [i|i|i]; cbn [Any.step] in Hs.
  - destruct (Any.tasks st !! i) as [[| | | |]|] eqn:Hi; try done.
    destruct (items !! i) as [item'|]; [|done].
    destruct (Nat.ltb (Any.active st) (concurrency opts)); [|done].
    destruct (Nat.ltb 0 (maxRetries opts)); injection Hs as <-.
    + by apply (counted_update st i Any.Queued (Any.Running 0)).
    + by eapply counted_exhausted.
  - destruct (Any.tasks st !! i) as [[|a| | |]|] eqn:Hi; try done.
    destruct (items !! i) as [item'|]; [|done].
    destruct (processor item' i a) as [r|x].
    + destruct (Any.report items onProgress st _) as [st1 thrown'] eqn:E.
      assert (st1 = (Any.report items onProgress st (mkOutcome item' (Some r) None)).1)
        as Hst1 by (by rewrite E).
      assert (thrown' = onProgress (Any.completed st)) as -> by (by injection E).
      destruct (onProgress (Any.completed st)) as [x|] eqn:Hx; injection Hs as <-.
      * rewrite Hst1. eapply counted_caught;
          [by eapply counted_report_threw|by rewrite report_tasks|done].
      * rewrite Hst1. by eapply counted_report_returns.
    + injection Hs as <-. by eapply counted_caught.
  - destruct (Any.tasks st !! i) as [[| |a| |]|] eqn:Hi; try done.
    destruct (items !! i) as [item'|]; [|done]. injection Hs as <-.
    by apply (counted_update st i (Any.Sleeping a) (Any.Running (S a))).
Qed.

Lemma run_counted schedule : forall (st st' : Any.state T R),
  counted items onProgress st ->
  Any.run opts items processor onProgress st schedule = Some st' ->
  counted items onProgress st'.
Proof.
  induction schedule as [|l schedule IH]; intros st st' Hc Hrun; cbn [Any.run] in Hrun.
  - by injection Hrun as <-.
  - destruct (Any.step opts items processor onProgress st l) as [st1|] eqn:Hs; [|done].
    eapply IH; [|done]. by eapply step_counted.
Qed.

(** When every function has returned, every task is done. *)
Lemma all_returned (ts : list (Any.task T R)) outs :
  mapM Any.outcome_of ts = Some outs -> length (filter Any.is_done ts) = length ts.
Proof.
  intros H. apply mapM_Some in H.
  induction H as [|t o ts outs' Ho _ IH]; [done|].
  rewrite filter_cons. destruct t; try done. rewrite decide_True by done.
  simpl. by rewrite IH.
Qed.
End CounterFacts.

(** X14: The counter given to [onProgress], whatever the processor and
    [onProgress] do: at every point of every run the reports made so
    far are numbered 1, 2, 3, ... in the order in which they are made,
    each with the number of items as its total, and no more tasks have
    returned than reports were made.  When [onProgress] never throws,
    the counter is the number of tasks that have returned, and it is
    the number of items once [processWithRetry] has resolved. *)
Theorem onProgress_counter {T R : Type} (opts : RateLimiterOptions)
    (items : list T) (processor : T -> nat -> nat -> settled R)
    (onProgress : nat -> option thrown)
    (schedule : list label) (st : Any.state T R) :
  Any.run opts items processor onProgress (Any.init items) schedule = Some st ->
  omap reported (Any.trace st)
  = (fun c => (c, length items)) <$> List.seq 1 (Any.completed st) /\
  length (filter Any.is_done (Any.tasks st)) <= Any.completed st /\
  ((forall n, onProgress n = None) ->
   Any.completed st = length (filter Any.is_done (Any.tasks st)) /\
   forall outs, Any.settlement st = Some (Fulfilled outs) ->
                Any.completed st = length items).
Proof.
  intros Hrun.
  destruct (run_counted opts items processor onProgress _ _ _
              (counted_init items onProgress) Hrun) as (Hlen & Hr & Hle & Heq).
  split; [done|]. split; [done|]. intros Hcb. split; [by apply Heq|].
  intros outs Hs. rewrite (Heq Hcb), <- Hlen. unfold Any.settlement in Hs.
  destruct (Any.rejected st); [done|].
  destruct (mapM Any.outcome_of (Any.tasks st)) as [outs'|] eqn:Hm; [|done].
  by eapply all_returned.
Qed.

(* ================================================================== *)
(** * The row worker *)
(* ================================================================== *)

Import Orchestrator RateLimiter ResearchWorker.

Section TallyFacts.
Context {T R : Type}.
Variable opts : RateLimiterOptions.
Variable items : list T.
Variable processor : T -> nat -> nat -> outcome R.
Variable P : T -> bool.
Hypothesis never_throws : forall item' i a, exists r, processor item' i a = Returns r.
Hypothesis retries : 0 < maxRetries opts.

Lemma tally_insert q (ts : list (task T R)) its i t0 t1 item' :
  ts !! i = Some t0 -> its !! i = Some item' ->
  tally P q (<[i := t1]> ts) its + (if P item' && q t0 then 1 else 0)
  = tally P q ts its + (if P item' && q t1 then 1 else 0).
Proof.
  revert its i. induction ts as [|t ts IH]; intros [|it its] [|i] Ht Hi; simpl in *; try done.
  - injection Ht as ->. injection Hi as ->. lia.
  - specialize (IH its i Ht Hi). lia.
Qed.

Lemma calls_with_app (tr1 tr2 : list (event T R)) :
  calls_with P (tr1 ++ tr2) = calls_with P tr1 + calls_with P tr2.
Proof.
  induction tr1 as [|[] tr1 IH]; simpl; try done. rewrite IH. lia.
Qed.

Lemma progress_with_app (tr1 tr2 : list (event T R)) :
  progress_with P (tr1 ++ tr2) = progress_with P tr1 + progress_with P tr2.
Proof.
  induction tr1 as [|[] tr1 IH]; simpl; try done. rewrite IH. lia.
Qed.

Lemma smooth_init : smooth items processor P (init items).
Proof.
  unfold smooth, init. simpl. split; [constructor|]. split.
  - apply Forall_forall. by intros t [-> _]%elem_of_replicate.
  - induction items as [|it its IH]; simpl; [done|].
    rewrite andb_false_r. simpl. done.
Qed.

Lemma step_smooth st l st' :
  smooth items processor P st -> step opts items processor st l = Some st' ->
  smooth items processor P st'.
Proof.
  intros (Htr & Hts & Hc & Hp) Hstep.
  destruct l as [i|i|i]; simpl in Hstep;
    destruct (tasks st !! i) as [t|] eqn:Ht; try done;
    destruct t as [|a|a|o]; try done;
    destruct (items !! i) as [item0|] eqn:Hi; try done.
  - destruct (Nat.ltb (active st) (concurrency opts)); [|done].
    replace (Nat.ltb 0 (maxRetries opts)) with true in Hstep
      by (symmetry; by apply Nat.ltb_lt).
    injection Hstep as <-. unfold smooth. simpl.
    rewrite calls_with_app, progress_with_app. simpl.
    pose proof (tally_insert (fun t => negb (is_queued t)) _ _ _ _ (Running 0) _ Ht Hi) as H1.
    pose proof (tally_insert is_done _ _ _ _ (Running 0) _ Ht Hi) as H2.
    simpl in H1, H2. rewrite !andb_false_r in *. rewrite andb_true_r in H1.
    repeat split.
    + apply Forall_app. split; [done|]. by repeat constructor.
    + by apply Forall_insert.
    + lia.
    + lia.
  - destruct (never_throws item0 i a) as [r Hr]. rewrite Hr in Hstep.
    injection Hstep as <-. unfold smooth, finish. simpl.
    rewrite calls_with_app, progress_with_app. simpl.
    pose proof (tally_insert (fun t => negb (is_queued t)) _ _ _ _
                  (Done (mkOutcome item0 (Some r) None)) _ Ht Hi) as H1.
    pose proof (tally_insert is_done _ _ _ _
                  (Done (mkOutcome item0 (Some r) None)) _ Ht Hi) as H2.
    simpl in H1, H2. rewrite ?andb_false_r, ?andb_true_r in *.
    repeat split.
    + apply Forall_app. split; [done|]. repeat constructor; simpl; eauto.
    + by apply Forall_insert.
    + lia.
    + lia.
  - exfalso. rewrite Forall_forall in Hts.
    apply (Hts (Sleeping a)). apply list_elem_of_lookup. eauto.
Qed.

Lemma run_smooth schedule st st' :
  smooth items processor P st -> run opts items processor st schedule = Some st' ->
  smooth items processor P st'.
Proof.
  revert st. induction schedule as [|l schedule IH]; intros st Hc Hrun; simpl in Hrun.
  - by injection Hrun as <-.
  - destruct (step opts items processor st l) as [st1|] eqn:Hs; [|done].
    eapply IH; [|done]. by eapply step_smooth.
Qed.

Lemma tally_all_done q (ts : list (task T R)) its :
  length ts = length its ->
  Forall (fun t => q t = true) ts ->
  tally P q ts its = length (filter (fun it => P it = true) its).
Proof.
  intros Hlen Hall. revert its Hlen.
  induction Hall as [|t ts Ht _ IH]; intros [|it its] Hlen; simpl in *; try done.
  rewrite Ht, andb_true_r, filter_cons, IH by lia.
  destruct (P it); [by rewrite decide_True|by rewrite decide_False].
Qed.

Lemma complete_run_counts schedule outs tr :
  processWithRetry opts items processor schedule = Some (outs, tr) ->
  Forall (succeeds processor) tr /\
  calls_with P tr = length (filter (fun it => P it = true) items) /\
  progress_with P tr = length (filter (fun it => P it = true) items).
Proof.
  intros Hp. unfold processWithRetry in Hp.
  destruct (run opts items processor (init items) schedule) as [st|] eqn:Hrun; [|done].
  destruct (results st) as [outs'|] eqn:Hres; [|done].
  injection Hp as -> <-.
  destruct (run_smooth _ _ _ smooth_init Hrun) as (Htr & Hts & Hc & Hpr).
  pose proof (reachable_consistent _ _ _ _ _ Hrun) as [Hlen _].
  unfold results in Hres. apply mapM_Some in Hres.
  assert (Forall (fun t => is_done t = true) (tasks st)) as Hdone.
  { apply Forall_forall. intros t Hin.
    apply list_elem_of_lookup in Hin as [i Hi].
    destruct (Forall2_lookup_l _ _ _ _ _ Hres Hi) as (o & _ & Ho). by destruct t. }
  split; [done|]. rewrite Hc, Hpr. split; apply tally_all_done; try done.
  eapply Forall_impl; [exact Hdone|]. by intros [].
Qed.
End TallyFacts.

Lemma research_loop_outage w query messages :
  outage w ->
  research_loop w query messages (MAX_REPAIR_ATTEMPTS + 1) 0 [] openrouter
  = mkResearch fallback_result openrouter 3.
Proof.
  intros (Hprimary & Hsecondary & Hrepair).
  assert (llmCompletion w messages
          = Throws (mkError (lit "All LLM providers failed. OpenRouter: " ++
               match withTimeout (openrouterCompletion w messages) (lit "OpenRouter timeout") with
               | Throws e => message e | Returns _ => [] end ++
               lit ", Gemini: " ++
               match geminiCompletion w messages with
               | Throws e => message e | Returns _ => [] end))) as Hllm.
  { unfold llmCompletion.
    destruct (Hprimary messages) as [e ->]. by destruct (Hsecondary messages) as [e' ->]. }
  cbn [research_loop MAX_REPAIR_ATTEMPTS Nat.add Nat.ltb Nat.leb Nat.eqb].
  rewrite Hllm. cbn [bind].
  destruct (Hrepair 2 (createRepairPrompt query [])) as [e2 ->]. cbn [bind].
  destruct (Hrepair 3 (createRepairPrompt query [])) as [e3 ->]. cbn [bind].
  reflexivity.
Qed.

Section WorkerFacts.
Variable providers : nat -> nat -> Providers.
Variable clock : nat -> Z.
Variable query : str.
Variable rows : list SpreadsheetRow.

Abbreviation on_event' := (on_event clock).
Abbreviation collect' := (collect clock).

Lemma count_events_app x s evs1 evs2 :
  count_events x s (evs1 ++ evs2) = count_events x s evs1 + count_events x s evs2.
Proof. induction evs1 as [|p evs1 IH]; simpl; [done|]. rewrite IH. lia. Qed.

Lemma count_rows_filter x (l : list SpreadsheetRow) :
  count_rows x l = length (filter (fun r => str_eqb (id r) x = true) l).
Proof.
  induction l as [|r l IH]; simpl; [done|]. rewrite filter_cons, IH.
  destruct (str_eqb (id r) x); [by rewrite decide_True|by rewrite decide_False].
Qed.

Lemma on_events_counts x tr ws :
  Forall succeeded tr ->
  let ws' := foldl (fun ws e => on_event' e ws) ws tr in
  count_events x processing (events ws')
  = count_events x processing (events ws)
    + calls_with (fun r => str_eqb (id r) x) tr /\
  count_events x completed (events ws')
  = count_events x completed (events ws)
    + progress_with (fun r => str_eqb (id r) x) tr /\
  count_events x error_status (events ws') = count_events x error_status (events ws).
Proof.
  intros Htr. revert ws. induction Htr as [|e tr He _ IH]; intros ws; simpl.
  - lia.
  - destruct (IH (on_event' e ws)) as (H1 & H2 & H3). simpl in *.
    rewrite H1, H2, H3. clear IH H1 H2 H3.
    destruct e as [row' i a|i a ms|c t o]; simpl in *.
    + rewrite !count_events_app. simpl. rewrite !andb_false_r, andb_true_r. lia.
    + done.
    + destruct He as [Herr [p Hres]]. rewrite Herr, Hres. simpl.
      rewrite !count_events_app. simpl. rewrite !andb_false_r, andb_true_r. lia.
Qed.

Lemma collect_events outs ws :
  events (foldl (fun ws o => collect' o ws) ws outs) = events ws.
Proof.
  revert ws. induction outs as [|o outs IH]; intros ws; simpl; [done|].
  rewrite IH. unfold collect. by destruct (result o).
Qed.

Lemma collect_holds extracted outs ws :
  Forall (fun o => exists p, result o = Some p /\ research_of p = extracted) outs ->
  (forall k, holds extracted k ws ->
             holds extracted k (foldl (fun ws o => collect' o ws) ws outs)) /\
  (forall o, o ∈ outs ->
             holds extracted (id (item o)) (foldl (fun ws o => collect' o ws) ws outs)).
Proof.
  intros Hall. revert ws. induction Hall as [|o outs (p & Hp & Hr) _ IH]; intros ws; simpl.
  - split; [done|]. by intros o ?%elem_of_nil.
  - destruct (IH (collect' o ws)) as [IH1 IH2].
    assert (forall k, holds extracted k ws -> holds extracted k (collect' o ws)) as Hkeep.
    { intros k [now Hk]. unfold collect, holds. rewrite Hp. simpl.
      destruct (decide (id (item o) = k)) as [<-|Hne].
      - rewrite lookup_insert_eq, Hr. eauto.
      - rewrite lookup_insert_ne by done. eauto. }
    split.
    + intros k Hk. by apply IH1, Hkeep.
    + intros o' [->|Hin]%elem_of_cons; [|by apply IH2].
      apply IH1. unfold collect, holds. rewrite Hp. simpl.
      rewrite lookup_insert_eq, Hr. eauto.
Qed.
End WorkerFacts.

(** C1, as amended: when both backends fail at every call,
    [researchCompletion] does not reject: it resolves with the fixed
    degraded result, provider [openrouter], after 3 attempts.  In every
    complete run of [processRows], whatever its schedule, no ['error']
    event is emitted, every row identifier gets as many ['processing']
    and as many ['completed'] events as there are rows with it (one of
    each when the identifiers are unique), and the map returned holds
    the degraded result for every row. *)
Theorem processRows_outage (providers : nat -> nat -> Providers) (clock : nat -> Z)
    (query : str) (rows : list SpreadsheetRow) (schedule : list label)
    (ws : worker_state) :
  (forall i a, outage (providers i a)) ->
  processRows providers clock query rows schedule = Some ws ->
  (forall i a entityData,
     researchCompletion (providers i a) query entityData
     = Returns (mkResearch fallback_result openrouter 3)) /\
  (forall x,
     count_events x error_status (events ws) = 0 /\
     count_events x processing (events ws) = count_rows x rows /\
     count_events x completed (events ws) = count_rows x rows) /\
  (forall r, r ∈ rows ->
     exists now, results_map ws !! id r = Some (toResearchResult fallback_result now)).
Proof.
  intros Hout Hws.
  assert (forall i a entityData,
     researchCompletion (providers i a) query entityData
     = Returns (mkResearch fallback_result openrouter 3)) as Hresearch.
  { intros i a d. unfold researchCompletion. by rewrite research_loop_outage. }
  split; [exact Hresearch|].
  assert (forall row' i a, processor providers query row' i a
            = Returns (mkProcessed row' fallback_result openrouter)) as Hproc.
  { intros row' i a. unfold processor. by rewrite Hresearch. }
  unfold processRows in Hws.
  destruct (processWithRetry rateLimiter rows (processor providers query) schedule)
    as [[outs tr]|] eqn:Hp; [|done].
  injection Hws as <-.
  assert (Forall (succeeded) tr) as Hsucc.
  { destruct (complete_run_counts rateLimiter rows (processor providers query)
                (fun _ => true)) with (schedule := schedule) (outs := outs) (tr := tr)
      as [Hs _]; eauto.
    { unfold rateLimiter, MAX_RETRIES. simpl. lia. }
    eapply Forall_impl; [exact Hs|]. intros [] H; simpl in *; try done.
    destruct H as [He (i & a & r & _ & ->)]. eauto. }
  split.
  - intros x.
    destruct (complete_run_counts rateLimiter rows (processor providers query)
                (fun r => str_eqb (id r) x)) with (schedule := schedule) (outs := outs) (tr := tr)
      as (_ & Hc & Hpr); eauto.
    { unfold rateLimiter, MAX_RETRIES. simpl. lia. }
    rewrite !collect_events.
    destruct (on_events_counts clock x tr (mkWorker [] ∅ 0) Hsucc) as (H1 & H2 & H3).
    simpl in H1, H2, H3. rewrite H1, H2, H3, Hc, Hpr, <- count_rows_filter. done.
  - intros r Hr.
    assert (outs = imap (fun i item' =>
              task_outcome rateLimiter (processor providers query) item' i) rows) as Houts.
    { unfold processWithRetry in Hp.
      destruct (run rateLimiter rows (processor providers query) (init rows) schedule)
        as [st|] eqn:Hrun; [|done].
      destruct (results st) as [outs'|] eqn:Hres; [|done].
      injection Hp as -> <-. by eapply results_determined. }
    apply list_elem_of_lookup in Hr as [i Hi].
    assert (outs !! i = Some (mkOutcome r (Some (mkProcessed r fallback_result openrouter)) None))
      as Ho.
    { rewrite Houts, list_lookup_imap, Hi. simpl.
      unfold task_outcome, rateLimiter, MAX_RETRIES. cbn [maxRetries attempt_loop].
      by rewrite Hproc. }
    destruct (collect_holds clock fallback_result outs
                (foldl (fun ws e => on_event clock e ws) (mkWorker [] ∅ 0) tr)) as [_ H2].
    + rewrite Houts. apply Forall_forall. intros o Hin.
      apply list_elem_of_lookup in Hin as [j Hj].
      rewrite list_lookup_imap in Hj. destruct (rows !! j) as [rj|]; [|done].
      simpl in Hj. injection Hj as <-.
      unfold task_outcome, rateLimiter, MAX_RETRIES. cbn [maxRetries attempt_loop].
      rewrite Hproc. simpl. eauto.
    + apply (H2 _ (list_elem_of_lookup_2 _ _ _ Ho)).
Qed.


(* ================================================================== *)
(** * More of the orchestrator and of the worker *)
(* ================================================================== *)

(** [llmCompletion]: which backend answers. *)
Lemma llmCompletion_fallback (w : Providers) (messages : list LLMMessage) :
  match withTimeout (openrouterCompletion w messages) (lit "OpenRouter timeout") with
  | Returns r =>
      llmCompletion w messages = Returns (mkOrchestration r openrouter false)
  | Throws e =>
      match geminiCompletion w messages with
      | Returns r =>
          llmCompletion w messages = Returns (mkOrchestration r gemini true)
      | Throws e' =>
          exists err, llmCompletion w messages = Throws err /\
            infix (message e) (message err) /\ infix (message e') (message err)
      end
  end /\
  (forall o, llmCompletion w messages = Returns o ->
     (fallbackUsed o = true <-> provider o = gemini) /\
     (fallbackUsed o = false <-> provider o = openrouter) /\
     (provider o = gemini <->
      exists e, withTimeout (openrouterCompletion w messages) (lit "OpenRouter timeout")
                = Throws e)) /\
  (openrouterCompletion w messages = TooLate ->
   llmCompletion w messages
   = match geminiCompletion w messages with
     | Returns r => Returns (mkOrchestration r gemini true)
     | Throws e' =>
         Throws (mkError (lit "All LLM providers failed. OpenRouter: OpenRouter timeout, Gemini: "
                          ++ message e'))
     end).
Proof.
  unfold llmCompletion. split; [|split].
  - destruct (withTimeout _ _) as [r|e]; [done|].
    destruct (geminiCompletion w messages) as [r|e']; [done|].
    eexists. split; [reflexivity|]. cbn [message]. split.
    + exists (lit "All LLM providers failed. OpenRouter: "),
             (lit ", Gemini: " ++ message e'). reflexivity.
    + exists (lit "All LLM providers failed. OpenRouter: " ++ message e ++ lit ", Gemini: "),
             []. by rewrite app_nil_r, <- !app_assoc.
  - intros o. destruct (withTimeout _ _) as [r|e].
    + intros [= <-]. simpl. repeat split; try done. by intros [? ?].
    + destruct (geminiCompletion w messages) as [r|e']; [|done].
      intros [= <-]. simpl. repeat split; try done. eauto.
  - intros ->. cbn [withTimeout]. destruct (geminiCompletion w messages); [done|].
    reflexivity.
Qed.

(** The loop of [researchCompletion] from any of its states. *)
Lemma research_loop_cases w query messages fuel :
  forall a lastResponse lastProvider,
  a + fuel = MAX_REPAIR_ATTEMPTS + 1 ->
  let r := research_loop w query messages fuel a lastResponse lastProvider in
  a <= attempts r <= MAX_REPAIR_ATTEMPTS + 1 /\
  ((Orchestrator.result r = fallback_result /\ attempts r = MAX_REPAIR_ATTEMPTS + 1) \/
   (a < attempts r /\
    exists text, extractResearchResult text = Returns (Some (Orchestrator.result r)) /\
      (attempts r = 1 ->
         exists o, llmCompletion w messages = Returns o /\
                   content (response o) = text /\ provider o = research_provider r) /\
      (2 <= attempts r ->
         research_provider r = gemini /\
         exists malformed,
           geminiSimpleCompletion w (attempts r) (createRepairPrompt query malformed)
           = Returns text))).
Proof.
  change (MAX_REPAIR_ATTEMPTS + 1) with 3.
  induction fuel as [|fuel IH]; intros a lastResponse lastProvider Ha; cbn [research_loop].
  - simpl. split; [lia|]. left. split; [done|lia].
  - change (MAX_REPAIR_ATTEMPTS + 1) with 3.
    destruct (Nat.ltb_spec a 3) as [Hlt|Hge]; [|lia].
    destruct (Nat.eqb_spec (S a) 1) as [H1|H1].
    + destruct (llmCompletion w messages) as [o|e] eqn:Hllm; cbn [bind].
      * destruct (extractResearchResult (content (response o))) as [[x|]|e'] eqn:Hex.
        -- simpl. split; [lia|]. right. split; [lia|]. exists (content (response o)).
           split; [done|]. split; [eauto|lia].
        -- destruct (IH (S a) (content (response o)) (provider o)) as [Hb Hc]; [lia|].
           split; [lia|]. destruct Hc as [Hc|(Hlt' & text & Hx & Hone & Htwo)]; [by left|].
           right. split; [lia|]. exists text. split; [done|]. split; [lia|done].
        -- destruct (IH (S a) (content (response o)) (provider o)) as [Hb Hc]; [lia|].
           split; [lia|]. destruct Hc as [Hc|(Hlt' & text & Hx & Hone & Htwo)]; [by left|].
           right. split; [lia|]. exists text. split; [done|]. split; [lia|done].
      * destruct (IH (S a) lastResponse lastProvider) as [Hb Hc]; [lia|].
        split; [lia|]. destruct Hc as [Hc|(Hlt' & text & Hx & Hone & Htwo)]; [by left|].
        right. split; [lia|]. exists text. split; [done|]. split; [lia|done].
    + destruct (geminiSimpleCompletion w (S a) (createRepairPrompt query lastResponse))
        as [text|e] eqn:Hrep; cbn [bind].
      * destruct (extractResearchResult text) as [[x|]|e'] eqn:Hex.
        -- simpl. split; [lia|]. right. split; [lia|]. exists text.
           split; [done|]. split; [lia|]. intros _. split; [done|]. eauto.
        -- destruct (IH (S a) text gemini) as [Hb Hc]; [lia|].
           split; [lia|]. destruct Hc as [Hc|(Hlt' & text' & Hx & Hone & Htwo)]; [by left|].
           right. split; [lia|]. exists text'. split; [done|]. split; [lia|done].
        -- destruct (IH (S a) text gemini) as [Hb Hc]; [lia|].
           split; [lia|]. destruct Hc as [Hc|(Hlt' & text' & Hx & Hone & Htwo)]; [by left|].
           right. split; [lia|]. exists text'. split; [done|]. split; [lia|done].
      * destruct (IH (S a) lastResponse lastProvider) as [Hb Hc]; [lia|].
        split; [lia|]. destruct Hc as [Hc|(Hlt' & text & Hx & Hone & Htwo)]; [by left|].
        right. split; [lia|]. exists text. split; [done|]. split; [lia|done].
Qed.

(** X15: [researchCompletion] always resolves, after one to three attempts,
    with the degraded result or with a result extracted from an answer. *)
Theorem researchCompletion_resolves (w : Providers) (query : str)
    (entityData : list (str * str)) :
  researchCompletion w query entityData = Returns (Orchestrator.research w query entityData) /\
  let r := Orchestrator.research w query entityData in
  1 <= attempts r <= 3 /\
  ((Orchestrator.result r = fallback_result /\ attempts r = 3) \/
   (exists text, extractResearchResult text = Returns (Some (Orchestrator.result r)) /\
      (attempts r = 1 ->
         exists o, llmCompletion w (createResearchPrompt query entityData) = Returns o /\
                   content (response o) = text /\ provider o = research_provider r) /\
      (2 <= attempts r ->
         research_provider r = gemini /\
         exists malformed,
           geminiSimpleCompletion w (attempts r) (createRepairPrompt query malformed)
           = Returns text))).
Proof.
  split; [done|].
  destruct (research_loop_cases w query (createResearchPrompt query entityData)
              (MAX_REPAIR_ATTEMPTS + 1) 0 [] openrouter eq_refl) as [Hb Hc].
  unfold Orchestrator.research. unfold MAX_REPAIR_ATTEMPTS in *. simpl in Hb, Hc |- *.
  destruct Hc as [[Hf Ha]|(Hlt & text & Hx & H1 & H2)].
  - split; [lia|]. by left.
  - split; [lia|]. right. by exists text.
Qed.

(** X16: A first answer that holds a valid result is returned at once. *)
Theorem researchCompletion_first_answer (w : Providers) (query : str)
    (entityData : list (str * str)) (o : OrchestrationResult) (x : ExtractedResearch) :
  llmCompletion w (createResearchPrompt query entityData) = Returns o ->
  extractResearchResult (content (response o)) = Returns (Some x) ->
  researchCompletion w query entityData = Returns (mkResearch x (provider o) 1).
Proof.
  intros Hllm Hx. unfold researchCompletion.
  cbn [research_loop MAX_REPAIR_ATTEMPTS Nat.add Nat.ltb Nat.leb Nat.eqb].
  rewrite Hllm. cbn [bind]. by rewrite Hx.
Qed.

Section BatchFacts.
Variable backends : nat -> Providers.
Variable query : str.
Variable onProgress : nat -> option thrown.

(** The result of the research of the entity at the index [i], and what
    [onProgress] is told about it. *)
Abbreviation found i e :=
  (Orchestrator.result (Orchestrator.research (backends i) query (entity_data e))).
Abbreviation told i e := (mkBatchProgress (entity_id e) (Some (found i e)) None).

(** What the map holds after the loop, from what it holds after the
    first entity. *)
Definition map_facts (i : nat) (entities : list Entity)
    (m m' : gmap str ExtractedResearch) : Prop :=
  (forall k, is_Some (m' !! k) <-> is_Some (m !! k) \/ k ∈ map entity_id entities) /\
  (forall k, k ∉ map entity_id entities -> m' !! k = m !! k) /\
  (forall j e, entities !! j = Some e ->
     (forall j' e', j < j' -> entities !! j' = Some e' -> entity_id e' <> entity_id e) ->
     m' !! entity_id e = Some (found (i + j) e)).

Lemma map_facts_cons i e0 entities m m' :
  map_facts (S i) entities (<[entity_id e0 := found i e0]> m) m' ->
  map_facts i (e0 :: entities) m m'.
Proof.
  intros (Hdom & Hout & Hin). split_and!.
  - intros k. rewrite Hdom, lookup_insert_is_Some, fmap_cons, elem_of_cons.
    destruct (decide (entity_id e0 = k)) as [->|Hne]; [tauto|].
    split; [intros [[?|[_ ?]]|?]|intros [?|[?|?]]]; try tauto; try congruence.
  - intros k Hk. rewrite fmap_cons, not_elem_of_cons in Hk. destruct Hk as [Hne Hk].
    rewrite (Hout k Hk). by rewrite lookup_insert_ne.
  - intros [|j] e He Hlast; simpl in He.
    + injection He as ->. rewrite Nat.add_0_r.
      rewrite Hout; [by rewrite lookup_insert_eq|].
      intros Hin'. apply list_elem_of_fmap in Hin' as (e' & Hid & Hin').
      apply list_elem_of_lookup in Hin' as [j' Hj'].
      apply (Hlast (S j') e'); [lia|done|done].
    + replace (i + S j) with (S i + j) by lia. apply Hin; [done|].
      intros j' e' Hlt He'. apply (Hlast (S j') e'); [lia|done].
Qed.

Lemma imap_shift {A B} (f : nat -> A -> B) i (l : list A) :
  imap (fun k e => f (i + S k) e) l = imap (fun k e => f (S i + k) e) l.
Proof. apply imap_ext. intros k e _. by replace (i + S k) with (S i + k) by lia. Qed.

(** The loop: the reports it adds, and the map it resolves with. *)
Lemma batch_loop_spec entities :
  forall i m reports,
  exists more,
    (batch_loop backends query onProgress i entities m reports).2 = reports ++ more /\
    (forall n p, more !! n = Some p -> progress_result p = None ->
       exists n', n = S n' /\ is_Some (onProgress (length reports + n'))) /\
    (forall m', (batch_loop backends query onProgress i entities m reports).1
                = Fulfilled m' ->
       omap with_result more = imap (fun k e => (entity_id e, found (i + k) e)) entities /\
       map_facts i entities m m') /\
    ((forall n, onProgress n = None) ->
     (exists m', (batch_loop backends query onProgress i entities m reports).1
                 = Fulfilled m') /\
     more = imap (fun k e => told (i + k) e) entities).
Proof.
  induction entities as [|e0 entities IH]; intros i m reports.
  - exists []. cbn [batch_loop fst snd]. rewrite app_nil_r. split_and!; try done.
    + intros m' [= <-]. split; [done|]. split_and!; try done.
      intros k. rewrite elem_of_nil. tauto.
    + intros _. split; [by eexists|done].
  - cbn [batch_loop].
    change (researchCompletion (backends i) query (entity_data e0))
      with (Returns (Orchestrator.research (backends i) query (entity_data e0))).
    cbv beta iota zeta.
    set (m1 := <[entity_id e0 := found i e0]> m).
    set (reports1 := reports ++ [told i e0]).
    assert (length reports1 = S (length reports)) as Hlen1
      by (unfold reports1; rewrite length_app; simpl; lia).
    destruct (onProgress (length reports)) as [error|] eqn:Hfirst.
    + destruct (message_of error) as [message'|typeError].
      * set (failed := mkBatchProgress (entity_id e0) None message').
        destruct (onProgress (length reports1)) as [thrown'|] eqn:Hsecond.
        -- exists [told i e0; failed]. cbn [fst snd]. split_and!.
           ++ unfold reports1. by rewrite <- app_assoc.
           ++ intros [|[|n]] p Hp Hres; simpl in Hp; try done.
              ** injection Hp as <-. done.
              ** exists 0. rewrite Nat.add_0_r, Hfirst. split; [done|by eexists].
           ++ done.
           ++ intros Hcb. by rewrite Hcb in Hfirst.
        -- destruct (IH (S i) m1 (reports1 ++ [failed]))
             as (more & Heq & Herr & Hful & _).
           exists (told i e0 :: failed :: more). split_and!.
           ++ rewrite Heq. unfold reports1. by rewrite <- !app_assoc.
           ++ intros [|[|n]] p Hp Hres; simpl in Hp.
              ** injection Hp as <-. done.
              ** exists 0. rewrite Nat.add_0_r, Hfirst. split; [done|by eexists].
              ** destruct (Herr n p Hp Hres) as (n' & -> & Hn').
                 exists (S (S n')). split; [done|].
                 rewrite length_app, Hlen1 in Hn'. simpl in Hn'.
                 by replace (length reports + S (S n'))
                      with (S (length reports) + 1 + n') by lia.
           ++ intros m' Hm'. destruct (Hful m' Hm') as [Hrep Hmap].
              split; [|by apply map_facts_cons].
              change (omap with_result (told i e0 :: failed :: more))
                with ((entity_id e0, found i e0) :: omap with_result more).
              rewrite Hrep, imap_cons, Nat.add_0_r. f_equal. unfold compose.
              symmetry. apply (imap_shift (fun k e => (entity_id e, found k e))).
           ++ intros Hcb. by rewrite Hcb in Hfirst.
      * exists [told i e0]. cbn [fst snd]. split_and!; try done.
        -- intros [|n] p Hp Hres; simpl in Hp; [|done]. injection Hp as <-. done.
        -- intros Hcb. by rewrite Hcb in Hfirst.
    + destruct (IH (S i) m1 reports1) as (more & Heq & Herr & Hful & Hret).
      exists (told i e0 :: more). split_and!.
      * rewrite Heq. unfold reports1. by rewrite <- app_assoc.
      * intros [|n] p Hp Hres; simpl in Hp.
        -- injection Hp as <-. done.
        -- destruct (Herr n p Hp Hres) as (n' & -> & Hn').
           exists (S n'). split; [done|]. rewrite Hlen1 in Hn'.
           by replace (length reports + S n') with (S (length reports) + n') by lia.
      * intros m' Hm'. destruct (Hful m' Hm') as [Hrep Hmap].
        split; [|by apply map_facts_cons].
        change (omap with_result (told i e0 :: more))
          with ((entity_id e0, found i e0) :: omap with_result more).
        rewrite Hrep, imap_cons, Nat.add_0_r. f_equal. unfold compose.
        symmetry. apply (imap_shift (fun k e => (entity_id e, found k e))).
      * intros Hcb. destruct (Hret Hcb) as [Hm' ->]. split; [done|].
        rewrite imap_cons, Nat.add_0_r. f_equal. unfold compose.
        symmetry. apply (imap_shift (fun k e => told k e)).
Qed.
End BatchFacts.

(** X17: [batchResearchCompletion], whatever the backends and
    [onProgress] do.  When [onProgress] never throws, it resolves, and
    its reports are one for each entity, in order and with the result.
    A report without a result is made only right after a call of
    [onProgress] that threw, never because of the backends.  Whenever
    it resolves, the reports with a result are one for each entity, in
    order; the map holds an entry for every identifier, the one of the
    last entity that has it. *)
Theorem batchResearchCompletion_reports (backends : nat -> Providers) (query : str)
    (onProgress : nat -> option thrown) (entities : list Entity) :
  let research_of i e :=
    Orchestrator.result (Orchestrator.research (backends i) query (entity_data e)) in
  ((forall n, onProgress n = None) ->
   (exists results,
      (batchResearchCompletion backends query onProgress entities).1 = Fulfilled results) /\
   (batchResearchCompletion backends query onProgress entities).2
   = imap (fun i e => mkBatchProgress (entity_id e) (Some (research_of i e)) None)
          entities) /\
  (forall n p,
     (batchResearchCompletion backends query onProgress entities).2 !! n = Some p ->
     progress_result p = None ->
     exists n', n = S n' /\ is_Some (onProgress n')) /\
  (forall results,
     (batchResearchCompletion backends query onProgress entities).1 = Fulfilled results ->
     omap with_result (batchResearchCompletion backends query onProgress entities).2
     = imap (fun i e => (entity_id e, research_of i e)) entities /\
     (forall k, is_Some (results !! k) <-> k ∈ map entity_id entities) /\
     (forall i e, entities !! i = Some e ->
        (forall j e', i < j -> entities !! j = Some e' -> entity_id e' <> entity_id e) ->
        results !! entity_id e = Some (research_of i e))).
Proof.
  cbn zeta. unfold batchResearchCompletion.
  destruct (batch_loop_spec backends query onProgress entities 0 ∅ [])
    as (more & Heq & Herr & Hful & Hret).
  rewrite app_nil_l in Heq. rewrite Heq. split_and!.
  - intros Hcb. destruct (Hret Hcb) as [Hm ->]. done.
  - intros n p Hp Hres. destruct (Herr n p Hp Hres) as (n' & -> & Hn'). eauto.
  - intros results Hm. destruct (Hful results Hm) as (Hrep & Hdom & _ & Hin).
    split; [done|]. split; [|done].
    intros k. rewrite Hdom, lookup_empty. split; [intros [[? ?]|?]; done|by right].
Qed.

Section WorkerRuns.
Variable providers : nat -> nat -> Providers.
Variable clock : nat -> Z.
Variable query : str.
Variable rows : list SpreadsheetRow.

(** The research of the row at an index: its first call settles it. *)
Abbreviation found i r :=
  (Orchestrator.result (Orchestrator.research (providers i 0) query (data r))).

Lemma processor_returns row' i a :
  processor providers query row' i a
  = Returns (mkProcessed row'
               (Orchestrator.result (Orchestrator.research (providers i a) query (data row')))
               (research_provider (Orchestrator.research (providers i a) query (data row')))).
Proof. reflexivity. Qed.

Lemma worker_outcomes schedule outs tr :
  processWithRetry rateLimiter rows (processor providers query) schedule = Some (outs, tr) ->
  outs = imap (fun i r =>
           mkOutcome r (Some (mkProcessed r (found i r)
                        (research_provider
                           (Orchestrator.research (providers i 0) query (data r))))) None)
         rows.
Proof.
  intros Hp. apply processWithRetry_outcomes in Hp as ->.
  apply imap_ext. intros i r _. reflexivity.
Qed.

Lemma on_events_ticks tr ws :
  Forall succeeded tr ->
  ticks (foldl (fun ws e => on_event clock e ws) ws tr)
  = ticks ws + progress_with (fun _ => true) tr.
Proof.
  intros Htr. revert ws. induction Htr as [|e tr He _ IH]; intros ws; simpl; [lia|].
  rewrite IH. destruct e as [row' i a|i a ms|c t o]; simpl in *; try lia.
  destruct He as [Herr [p Hres]]. rewrite Herr, Hres. simpl. lia.
Qed.

Lemma on_events_keys tr ws :
  Forall (in_range rows) tr ->
  (forall k, is_Some (results_map ws !! k) -> k ∈ map id rows) ->
  forall k, is_Some (results_map (foldl (fun ws e => on_event clock e ws) ws tr) !! k) ->
            k ∈ map id rows.
Proof.
  intros Htr. revert ws. induction Htr as [|e tr He _ IH]; intros ws Hws; simpl; [done|].
  apply IH. intros k. destruct e as [row' i a|i a ms|c t o]; simpl in *; try apply Hws.
  destruct (error o), (result o); simpl; try apply Hws.
  rewrite lookup_insert_is_Some. intros [<-|[_ Hk]]; [|by apply Hws].
  destruct He as [i Hi]. apply list_elem_of_fmap. exists (item o).
  split; [done|]. by eapply list_elem_of_lookup_2.
Qed.

(** The loop that collects the results again: every row is stored with
    a new reading of the clock. *)
Lemma collect_rows (l : list SpreadsheetRow) :
  forall i ws,
  let outs := imap (fun k r =>
                mkOutcome r (Some (mkProcessed r (found (i + k) r)
                   (research_provider
                      (Orchestrator.research (providers (i + k) 0) query (data r)))))
                  None) l in
  let ws' := foldl (fun ws o => collect clock o ws) ws outs in
  (forall k, is_Some (results_map ws' !! k)
             <-> is_Some (results_map ws !! k) \/ k ∈ map id l) /\
  (forall k, k ∉ map id l -> results_map ws' !! k = results_map ws !! k) /\
  (forall j r, l !! j = Some r ->
     (forall j' r', j < j' -> l !! j' = Some r' -> id r' <> id r) ->
     results_map ws' !! id r
     = Some (toResearchResult (found (i + j) r) (clock (ticks ws + j)))).
Proof.
  induction l as [|r0 l IH]; intros i ws; cbn zeta.
  - simpl. split_and!; try done. intros k. rewrite elem_of_nil. tauto.
  - rewrite imap_cons. cbn [foldl]. rewrite Nat.add_0_r.
    set (ws1 := collect clock _ ws).
    assert (results_map ws1
            = <[id r0 := toResearchResult (found i r0) (clock (ticks ws))]> (results_map ws))
      as Hmap by reflexivity.
    assert (ticks ws1 = S (ticks ws)) as Hticks by reflexivity.
    specialize (IH (S i) ws1). cbn zeta in IH.
    erewrite imap_ext in IH; [destruct IH as (Hdom & Hout & Hin)|].
    2:{ intros k r _. simpl. by replace (S (i + k)) with (i + S k) by lia. }
    unfold compose. split_and!.
    + intros k. rewrite Hdom, Hmap, lookup_insert_is_Some, fmap_cons, elem_of_cons.
      destruct (decide (id r0 = k)) as [->|Hne]; [tauto|].
      split; [intros [[?|[_ ?]]|?]|intros [?|[?|?]]]; try tauto; try congruence.
    + intros k Hk. rewrite fmap_cons, not_elem_of_cons in Hk. destruct Hk as [Hne Hk].
      rewrite (Hout k Hk), Hmap. by rewrite lookup_insert_ne.
    + intros [|j] r Hr Hlast; simpl in Hr.
      * injection Hr as ->. rewrite !Nat.add_0_r.
        rewrite Hout; [by rewrite Hmap, lookup_insert_eq|].
        intros Hin'. apply list_elem_of_fmap in Hin' as (r' & Hid & Hin').
        apply list_elem_of_lookup in Hin' as [j' Hj'].
        apply (Hlast (S j') r'); [lia|done|done].
      * rewrite (Hin j r Hr).
        -- rewrite Hticks.
           replace (S i + j) with (i + S j) by lia.
           by replace (S (ticks ws) + j) with (ticks ws + S j) by lia.
        -- intros j' r' Hlt Hr'. apply (Hlast (S j') r'); [lia|done].
Qed.
End WorkerRuns.

(** X18: [processRows], whatever the backends do: no row is reported as an
    error, every row is reported once as processing and once as
    completed, and the map returned holds, for every row, the research
    of the last row with its identifier, stamped by a reading of the
    clock made after all the reports. *)
Theorem processRows_every_row (providers : nat -> nat -> Providers) (clock : nat -> Z)
    (query : str) (rows : list SpreadsheetRow) (schedule : list label)
    (ws : worker_state) :
  processRows providers clock query rows schedule = Some ws ->
  (forall x,
     count_events x error_status (events ws) = 0 /\
     count_events x processing (events ws) = count_rows x rows /\
     count_events x completed (events ws) = count_rows x rows) /\
  (forall k, is_Some (results_map ws !! k) <-> k ∈ map id rows) /\
  (forall i r, rows !! i = Some r ->
     (forall j r', i < j -> rows !! j = Some r' -> id r' <> id r) ->
     results_map ws !! id r
     = Some (toResearchResult
               (Orchestrator.result (Orchestrator.research (providers i 0) query (data r)))
               (clock (length rows + i)))).
Proof.
  intros Hws. unfold processRows in Hws.
  destruct (processWithRetry rateLimiter rows (processor providers query) schedule)
    as [[outs tr]|] eqn:Hp; [|done].
  injection Hws as <-.
  assert (forall item' i a, exists r, processor providers query item' i a = Returns r)
    as Hnever by (intros; eexists; apply processor_returns).
  assert (0 < maxRetries rateLimiter) as Hretries by (simpl; unfold MAX_RETRIES; lia).
  assert (Forall succeeded tr) as Hsucc.
  { destruct (complete_run_counts rateLimiter rows (processor providers query)
                (fun _ => true) Hnever Hretries schedule outs tr Hp) as [Hs _].
    eapply Forall_impl; [exact Hs|]. intros [] H; simpl in *; try done.
    destruct H as [He (i & a & r & _ & ->)]. eauto. }
  assert (Forall (in_range rows) tr) as Hrange.
  { unfold processWithRetry in Hp.
    destruct (run rateLimiter rows (processor providers query) (init rows) schedule)
      as [st|] eqn:Hrun; [|done].
    destruct (results st); [|done]. injection Hp as _ <-.
    eapply run_in_range; [|exact Hrun]. constructor. }
  pose proof (worker_outcomes providers query rows schedule outs tr Hp) as Houts.
  set (ws0 := foldl (fun ws e => on_event clock e ws) (mkWorker [] ∅ 0) tr).
  assert (ticks ws0 = length rows) as Hticks.
  { unfold ws0. rewrite on_events_ticks by done. simpl.
    destruct (complete_run_counts rateLimiter rows (processor providers query)
                (fun _ => true) Hnever Hretries schedule outs tr Hp) as (_ & _ & ->).
    clear. induction rows as [|r l IH]; [done|].
    rewrite filter_cons, decide_True by done. simpl. by rewrite IH. }
  pose proof (collect_rows providers clock query rows 0 ws0) as Hcollect.
  cbn zeta in Hcollect. simpl in Hcollect. rewrite <- Houts in Hcollect.
  destruct Hcollect as (Hdom & _ & Hin).
  split_and!.
  - intros x.
    destruct (complete_run_counts rateLimiter rows (processor providers query)
                (fun r => str_eqb (id r) x) Hnever Hretries schedule outs tr Hp)
      as (_ & Hc & Hpr).
    rewrite !collect_events.
    destruct (on_events_counts clock x tr (mkWorker [] ∅ 0) Hsucc) as (H1 & H2 & H3).
    simpl in H1, H2, H3. fold ws0 in H1, H2, H3.
    rewrite H1, H2, H3, Hc, Hpr, <- count_rows_filter. done.
  - intros k. rewrite Hdom. split; [|by right].
    intros [Hk|Hk]; [|done].
    apply (on_events_keys clock rows tr (mkWorker [] ∅ 0) Hrange); [|exact Hk].
    simpl. intros k'. rewrite lookup_empty. by intros [? ?].
  - intros i r Hr Hlast. rewrite (Hin i r Hr Hlast), Hticks. done.
Qed.

(** X19: [processSingleRow].  When its two reports return, it reports
    the row as processing, then as completed with the result, and
    returns that result, which is the fixed degraded one when both
    backends are down.  Whatever the backends do, it returns another
    value, reports an error or rejects only when [options.onProgress]
    has thrown at one of these two reports.  When the first report
    throws an [Error] and the report of the error returns, the events
    are the processing and the error with the message of that [Error],
    and it returns [null]. *)
Theorem processSingleRow_completes (w : Providers) (now : Z)
    (onProgress : nat -> option thrown) (query : str) (row' : SpreadsheetRow) :
  let r := Orchestrator.research w query (data row') in
  let researchResult := toResearchResult (Orchestrator.result r) now in
  let started := mkProgress (id row') processing None None in
  (onProgress 0 = None -> onProgress 1 = None ->
   processSingleRow w now onProgress query row'
   = (Fulfilled (Some researchResult),
      [started; mkProgress (id row') completed (Some researchResult) None])) /\
  ((processSingleRow w now onProgress query row').1 <> Fulfilled (Some researchResult) ->
   is_Some (onProgress 0) \/ is_Some (onProgress 1)) /\
  (forall p, p ∈ (processSingleRow w now onProgress query row').2 ->
     p_status p = error_status ->
     is_Some (onProgress 0) \/ is_Some (onProgress 1)) /\
  (forall e, onProgress 0 = Some (AnError e) -> onProgress 1 = None ->
     processSingleRow w now onProgress query row'
     = (Fulfilled None,
        [started; mkProgress (id row') error_status None (Some (message e))])) /\
  r_summary researchResult = summary (Orchestrator.result r) /\
  r_confidence researchResult = confidence (Orchestrator.result r) /\
  timestamp researchResult = now /\
  (outage w -> Orchestrator.result r = fallback_result).
Proof.
  cbn zeta. unfold processSingleRow.
  change (researchCompletion w query (data row'))
    with (Returns (Orchestrator.research w query (data row'))).
  split_and!; try reflexivity.
  - by intros -> ->.
  - destruct (onProgress 0); [by left; eexists|].
    destruct (onProgress 1); [by right; eexists|]. done.
  - intros p. destruct (onProgress 0); [by left; eexists|].
    destruct (onProgress 1); [by right; eexists|].
    cbn [snd]. intros Hp Hst. apply elem_of_cons in Hp as [->|Hp]; [done|].
    apply list_elem_of_singleton in Hp as ->. done.
  - intros e H0 H1. rewrite H0. cbn [message_of length app]. by rewrite H1.
  - intros Hout. unfold Orchestrator.research. by rewrite research_loop_outage.
Qed.

(* ================================================================== *)
(** * The sentences of a stream *)
(* ================================================================== *)

Section StreamFacts.
Local Open Scope nat_scope.

Lemma star_greedy_all (k : str -> option str -> option (option str)) rest cap :
  (forall r c, is_Some (k r c)) ->
  star_greedy is_space rest cap k = k (trimStart rest) cap.
Proof.
  intros Hk. induction rest as [|c rest IH]; simpl; [done|].
  destruct (is_space c); [|done]. rewrite IH.
  destruct (Hk (trimStart rest) cap) as [r ->]. done.
Qed.

(** A match of [sentenceEndRegex] at the front of a text. *)
Lemma sentence_end_here rest :
  Regex.run false 0 sentenceEndRegex rest None (fun rest' _ => Some (Some rest'))
  = match rest with
    | c :: d :: rest' =>
        if is_sentence_end c && is_space d then Some (Some (trimStart rest')) else None
    | _ => None
    end.
Proof.
  unfold sentenceEndRegex. cbn [Regex.run].
  destruct rest as [|c [|d rest']]; [done|by destruct (is_sentence_end c)|].
  destruct (is_sentence_end c); [|done]. destruct (is_space d); [|done]. simpl.
  by apply star_greedy_all.
Qed.

Lemma sentence_end_not_space c : is_sentence_end c = true -> is_space c = false.
Proof.
  unfold is_sentence_end. intros H.
  apply orb_true_iff in H as [H|H]; [apply orb_true_iff in H as [H|H]|];
    apply N.eqb_eq in H; by subst c.
Qed.

(** What [exec] finds: the first mark that white space follows, and the
    text after that white space. *)
Lemma exec_from_Some rest : forall skipped index after,
  exec_from skipped rest = Some (index, after) ->
  exists pre c d ws,
    rest = pre ++ c :: d :: ws /\ index = skipped + length pre /\
    is_sentence_end c = true /\ is_space d = true /\ after = trimStart ws.
Proof.
  induction rest as [|x rest IH]; intros skipped index after H;
    cbn [exec_from] in H; rewrite sentence_end_here in H; [done|].
  destruct rest as [|d ws].
  - cbn [exec_from] in H. by rewrite sentence_end_here in H.
  - destruct (is_sentence_end x && is_space d) eqn:E.
    + injection H as <- <-. apply andb_true_iff in E as [Hx Hd].
      exists [], x, d, ws. simpl. split_and!; (done || lia).
    + destruct (IH _ _ _ H) as (pre & c & d' & ws' & Hr & Hi & Hc & Hd & Ha).
      exists (x :: pre), c, d', ws'. rewrite Hr. simpl. split_and!; (done || lia).
Qed.

Lemma trimStart_length s : length (trimStart s) <= length s.
Proof. destruct (trimStart_suffix s) as [a Ha]. rewrite Ha at 2. rewrite length_app. lia. Qed.

(** The loop of [onChunk]: what it gives to [onSentence] is [spoken],
    what it keeps holds no end of sentence and is an end of the
    buffer. *)
Lemma sentence_loop_spec fuel : forall rest sentences kept,
  length rest <= fuel ->
  sentence_loop fuel rest = (sentences, kept) ->
  Forall spoken sentences /\ exec_from 0 kept = None /\ kept `suffix_of` rest.
Proof.
  induction fuel as [|fuel IH]; intros rest sentences kept Hfuel; cbn [sentence_loop].
  - destruct rest; [|simpl in Hfuel; lia]. intros [= <- <-].
    split_and!; try done; try apply Forall_nil_2; try (by exists []).
  - destruct (exec_from 0 rest) as [[index after]|] eqn:E.
    + destruct (exec_from_Some _ _ _ _ E) as (pre & c & d & ws & -> & -> & Hc & Hd & ->).
      destruct (sentence_loop fuel (trimStart ws)) as [sentences' kept'] eqn:El.
      intros [= <- <-].
      assert (length (trimStart ws) <= fuel) as Hless.
      { pose proof (trimStart_length ws). rewrite length_app in Hfuel.
        cbn [length] in Hfuel. lia. }
      destruct (IH _ _ _ Hless El) as (Hs & Hk & Hsuf).
      split_and!.
      * apply Forall_app. split; [|done].
        destruct (Nat.ltb_spec 10 (length (trim (take (length pre + 1) (pre ++ c :: d :: ws)))))
          as [Hlen|]; [|apply Forall_nil_2].
        apply Forall_cons; split; [|apply Forall_nil_2].
        pose proof (sentence_end_not_space c Hc) as Hns.
        assert (trim (take (length pre + 1) (pre ++ c :: d :: ws)) = trimStart pre ++ [c])
          as Ht.
        { replace (length pre + 1) with (length (pre ++ [c]))
            by (rewrite length_app; cbn [length]; lia).
          change (pre ++ c :: d :: ws) with (pre ++ [c] ++ d :: ws).
          rewrite app_assoc, take_app_length.
          pose proof (trim_around pre [c] [] c c eq_refl eq_refl Hns Hns) as Ha.
          change (trimEnd []) with (@nil N) in Ha.
          by rewrite !app_nil_r in Ha. }
        rewrite Ht in Hlen |- *.
        split_and!; [done| |].
        -- destruct (trimStart pre) as [|p ps] eqn:Ep.
           ++ by apply (trim_id _ c c).
           ++ apply (trim_id _ p c); [done|by rewrite last_app| |done].
              apply (trimStart_head pre). by rewrite Ep.
        -- exists c. by rewrite last_app.
      * done.
      * etrans; [exact Hsuf|].
        destruct (trimStart_suffix ws) as [a Ha].
        exists (pre ++ c :: d :: a). rewrite <- app_assoc. cbn [app]. by rewrite <- Ha.
    + intros [= <- <-]. split_and!; try done; try apply Forall_nil_2; try (by exists []).
Qed.

Lemma omap_chunk_of_sentences sentences :
  omap chunk_of (map OnSentence sentences) = [].
Proof. induction sentences as [|s l IH]; [done|]. by cbn [map omap list_omap chunk_of]. Qed.

Lemma omap_sentence_of_sentences sentences :
  omap sentence_of (map OnSentence sentences) = sentences.
Proof.
  induction sentences as [|s l IH]; [done|].
  cbn [map]. change (omap sentence_of (OnSentence s :: map OnSentence l))
    with (s :: omap sentence_of (map OnSentence l)). by rewrite IH.
Qed.

(** One call of [onChunk]. *)
Lemma onChunk_spec sentenceBuffer chunk calls kept :
  onChunk sentenceBuffer chunk = (calls, kept) ->
  omap chunk_of calls = [chunk] /\
  Forall spoken (omap sentence_of calls) /\
  exec_from 0 kept = None /\ kept `suffix_of` (sentenceBuffer ++ chunk).
Proof.
  unfold onChunk.
  destruct (sentence_loop _ _) as [sentences kept0] eqn:E. intros [= <- <-].
  destruct (sentence_loop_spec _ _ _ _ (le_n _) E) as (Hs & Hk & Hsuf).
  change (omap chunk_of (OnChunk chunk :: map OnSentence sentences))
    with (chunk :: omap chunk_of (map OnSentence sentences)).
  change (omap sentence_of (OnChunk chunk :: map OnSentence sentences))
    with (omap sentence_of (map OnSentence sentences)).
  by rewrite omap_chunk_of_sentences, omap_sentence_of_sentences.
Qed.

Lemma stream_chunks_spec chunks : forall sentenceBuffer calls kept,
  stream_chunks sentenceBuffer chunks = (calls, kept) ->
  omap chunk_of calls = chunks /\
  Forall spoken (omap sentence_of calls) /\
  (exec_from 0 sentenceBuffer = None -> exec_from 0 kept = None) /\
  kept `suffix_of` (sentenceBuffer ++ concat chunks).
Proof.
  induction chunks as [|chunk chunks IH]; intros sentenceBuffer calls kept;
    cbn [stream_chunks].
  - intros [= <- <-]. rewrite app_nil_r. split_and!; try done; apply Forall_nil_2.
  - destruct (onChunk sentenceBuffer chunk) as [calls1 kept1] eqn:E1.
    destruct (stream_chunks kept1 chunks) as [calls2 kept2] eqn:E2.
    intros [= <- <-].
    destruct (onChunk_spec _ _ _ _ E1) as (Hc1 & Hs1 & Hk1 & Hsuf1).
    destruct (IH _ _ _ E2) as (Hc2 & Hs2 & Hk2 & Hsuf2).
    rewrite !omap_app. split_and!.
    + by rewrite Hc1, Hc2.
    + apply Forall_app. by split.
    + intros _. by apply Hk2.
    + etrans; [exact Hsuf2|]. cbn [concat]. rewrite app_assoc.
      by apply suffix_app.
Qed.

(** X20: The sentences that [llmStreamCompletion] gives to [onSentence] while
    the chunks arrive: every chunk is passed on to [onChunk], in order;
    every sentence given is longer than 10 code units, has no white
    space at its ends and ends with [.], [!] or [?]; and what stays in
    the buffer is an end of the text received, in which no such mark is
    followed by white space. *)
Theorem onChunk_sentences (chunks : list str) :
  omap chunk_of (stream_chunks [] chunks).1 = chunks /\
  Forall spoken (omap sentence_of (stream_chunks [] chunks).1) /\
  exec_from 0 (stream_chunks [] chunks).2 = None /\
  (stream_chunks [] chunks).2 `suffix_of` concat chunks.
Proof.
  destruct (stream_chunks [] chunks) as [calls kept] eqn:E.
  destruct (stream_chunks_spec _ _ _ _ E) as (Hc & Hs & Hk & Hsuf).
  cbn [fst snd]. split_and!; try done. apply Hk.
  cbn [exec_from]. by rewrite sentence_end_here.
Qed.

End StreamFacts.

(* ================================================================== *)
(** * The messages of the secondary backend *)
(* ================================================================== *)

Lemma convert_from_systems sc systems rest :
  Forall (fun m => Gemini.is_system m = true) systems ->
  Gemini.convert_from sc (systems ++ rest)
  = Gemini.convert_from (sc ++ Gemini.preamble systems) rest.
Proof.
  intros H. revert sc. induction H as [|m systems Hm _ IH]; intros sc; simpl.
  - by rewrite app_nil_r.
  - unfold Gemini.is_system in Hm. destruct (msg_role m); try done.
    rewrite IH. by rewrite <- !app_assoc.
Qed.

Lemma convert_from_only_systems sc systems :
  Forall (fun m => Gemini.is_system m = true) systems -> Gemini.convert_from sc systems = [].
Proof.
  intros H. rewrite <- (app_nil_r systems). by rewrite convert_from_systems.
Qed.

(** A user message after a system text that is not empty. *)
Lemma convert_from_user sc text rest :
  Gemini.convert_from sc (mkMessage user text :: rest)
  = Gemini.mkGemini Gemini.g_user [sc ++ text] :: Gemini.convert_from [] rest.
Proof. simpl. by destruct sc. Qed.

Lemma convert_from_app sc ms rest :
  exists sc', Gemini.convert_from sc (ms ++ rest)
              = Gemini.convert_from sc ms ++ Gemini.convert_from sc' rest.
Proof.
  revert sc. induction ms as [|m ms IH]; intros sc; simpl; [by exists sc|].
  destruct (msg_role m).
  - apply IH.
  - destruct (IH []) as [sc' ->]. by exists sc'.
  - destruct (IH sc) as [sc' ->]. by exists sc'.
Qed.

Lemma convert_from_roles sc ms :
  map Gemini.g_role (Gemini.convert_from sc ms)
  = omap (fun m => Gemini.to_gemini_role (msg_role m)) ms /\
  Forall (fun g => length (Gemini.parts g) = 1) (Gemini.convert_from sc ms).
Proof.
  revert sc. induction ms as [|m ms IH]; intros sc; simpl; [done|].
  unfold omap in *. simpl.
  destruct (msg_role m); simpl.
  - apply IH.
  - destruct (IH []) as [-> H]. split; [done|]. by constructor.
  - destruct (IH sc) as [-> H]. split; [done|]. by constructor.
Qed.

(** X21: [convertToGeminiMessages]: the messages that are not system
    messages, in order and with the roles of the provider, each with
    one part.  The system messages are put, each followed by an empty
    line, before the text of the next user message; an assistant
    message in between is left as it is; the system messages after
    the last user message are dropped. *)
Theorem convertToGeminiMessages_system (systems messages : list LLMMessage)
    (text answer : str) :
  Forall (fun m => Gemini.is_system m = true) systems ->
  (map Gemini.g_role (Gemini.convertToGeminiMessages messages)
   = omap (fun m => Gemini.to_gemini_role (msg_role m)) messages /\
   Forall (fun g => length (Gemini.parts g) = 1) (Gemini.convertToGeminiMessages messages)) /\
  Gemini.convertToGeminiMessages (systems ++ mkMessage user text :: messages)
  = Gemini.mkGemini Gemini.g_user [Gemini.preamble systems ++ text]
    :: Gemini.convertToGeminiMessages messages /\
  Gemini.convertToGeminiMessages
    (systems ++ mkMessage assistant answer :: mkMessage user text :: messages)
  = Gemini.mkGemini Gemini.g_model [answer]
    :: Gemini.mkGemini Gemini.g_user [Gemini.preamble systems ++ text]
    :: Gemini.convertToGeminiMessages messages /\
  Gemini.convertToGeminiMessages (messages ++ systems) = Gemini.convertToGeminiMessages messages.
Proof.
  intros Hs. unfold Gemini.convertToGeminiMessages. split_and!.
  - apply convert_from_roles.
  - apply convert_from_roles.
  - rewrite convert_from_systems by done. simpl.
    by destruct (Gemini.preamble systems).
  - rewrite convert_from_systems by done. simpl.
    by destruct (Gemini.preamble systems).
  - destruct (convert_from_app [] messages systems) as [sc' ->].
    rewrite <- (app_nil_r systems), convert_from_systems by done. simpl.
    by rewrite app_nil_r.
Qed.

Section CompletionFacts.
Variable sendMessage : list Gemini.GeminiMessage -> str -> outcome str.
Variable generateContent : str -> outcome str.

Lemma geminiCompletion_user text :
  Gemini.geminiCompletion sendMessage [mkMessage user text]
  = bind (sendMessage [] (Gemini.STRICT_JSON_SYSTEM ++ [10; 10]%N ++ text))
         (fun content' => Returns (mkResponse content' Gemini.DEFAULT_MODEL)).
Proof.
  unfold Gemini.geminiCompletion, Gemini.convertToGeminiMessages.
  change (Gemini.convert_from [] [mkMessage system Gemini.STRICT_JSON_SYSTEM; mkMessage user text])
    with (Gemini.convert_from ([] ++ Gemini.STRICT_JSON_SYSTEM ++ [10; 10]%N)
            [mkMessage user text]).
  rewrite convert_from_user. cbn [Gemini.convert_from length Nat.sub take lookup list_lookup app].
  by rewrite <- app_assoc.
Qed.

(** X22: [geminiCompletion]: with no message but system messages it throws
    before anything is sent; a single user message is sent after the
    strict JSON instruction and an empty line, on an empty history,
    which is the text that [geminiSimpleCompletion] sends for it. *)
Theorem geminiCompletion_sends (systems : list LLMMessage) (prompt : str)
    (query : str) (entityData : list (str * str)) :
  Forall (fun m => Gemini.is_system m = true) systems ->
  Gemini.geminiCompletion sendMessage systems = Throws Gemini.no_last_message /\
  Gemini.geminiCompletion sendMessage [mkMessage user prompt]
  = bind (sendMessage [] (Gemini.STRICT_JSON_SYSTEM ++ [10; 10]%N ++ prompt))
         (fun content' => Returns (mkResponse content' Gemini.DEFAULT_MODEL)) /\
  Gemini.geminiSimpleCompletion generateContent prompt
  = generateContent (Gemini.STRICT_JSON_SYSTEM ++ [10; 10]%N ++ prompt) /\
  exists text,
    createResearchPrompt query entityData = [mkMessage user text] /\
    Gemini.geminiCompletion sendMessage (createResearchPrompt query entityData)
    = bind (sendMessage [] (Gemini.STRICT_JSON_SYSTEM ++ [10; 10]%N ++ text))
           (fun content' => Returns (mkResponse content' Gemini.DEFAULT_MODEL)).
Proof.
  intros Hs. split_and!.
  - unfold Gemini.geminiCompletion, Gemini.convertToGeminiMessages.
    rewrite convert_from_only_systems; [reflexivity|by constructor].
  - apply geminiCompletion_user.
  - reflexivity.
  - eexists. split; [reflexivity|]. apply geminiCompletion_user.
Qed.
End CompletionFacts.

Import Examples.

(* ================================================================== *)
(** * Concrete inputs *)
(* ================================================================== *)

(** Both backends of [down] fail at every call. *)
Lemma outage_down : outage down.
Proof. repeat split; intros; eexists; reflexivity. Qed.

(** C1, counterexample: with both backends down for the only row of a
    batch, the research call resolves with the fixed degraded result,
    the worker reports the row as completed, reports no error, and maps
    the row to that result. *)
Lemma outage_completes_row :
  outage down /\
  researchCompletion down (lit "revenue") (data one_row)
  = Returns (mkResearch fallback_result openrouter 3) /\
  processRows (fun _ _ => down) tick (lit "revenue") [one_row] one_row_schedule
  = Some one_row_state /\
  events one_row_state
  = [ mkProgress (id one_row) processing None None;
      mkProgress (id one_row) completed
        (Some (toResearchResult fallback_result (tick 0))) None ] /\
  count_events (id one_row) error_status (events one_row_state) = 0 /\
  results_map one_row_state !! id one_row
  = Some (toResearchResult fallback_result (tick 1)).
Proof.
  split; [apply outage_down|]. repeat split; vm_compute; reflexivity.
Qed.

(** C1, at the batch of one row with both backends down. *)
Lemma processRows_outage_witness :
  (forall (i a : nat) entityData,
     researchCompletion down (lit "revenue") entityData
     = Returns (mkResearch fallback_result openrouter 3)) /\
  (forall x,
     count_events x error_status (events one_row_state) = 0 /\
     count_events x processing (events one_row_state) = count_rows x [one_row] /\
     count_events x completed (events one_row_state) = count_rows x [one_row]) /\
  (forall r, r ∈ [one_row] ->
     exists now,
       results_map one_row_state !! id r = Some (toResearchResult fallback_result now)).
Proof.
  apply (processRows_outage (fun _ _ => down) tick (lit "revenue") [one_row]
           one_row_schedule one_row_state).
  - intros i a. apply outage_down.
  - vm_compute. reflexivity.
Defined.

(** C2, at the failing inputs: an object with a string summary and the
    confidence 5 fails the validation, because 5 is above 1, and the
    salvaged result keeps the confidence 5, which is not between 0 and
    1.  Besides, a summary that is an empty array is salvaged as the
    empty string, and a summary that is an object with a member
    [toString] makes the conversion throw. *)
Lemma salvage_confidence_out_of_range :
  (extractJSON confidence_five
   = JObj [(lit "summary", JStr (lit "x"));
           (lit "confidence", JNum (number_of_decimal false 5 0))] /\
   safeParse (extractJSON confidence_five) = None /\
   exists r,
     extractResearchResult confidence_five = Returns (Some r) /\
     confidence r = number_of_decimal false 5 0 /\
     in_unit (confidence r) = false) /\
  (safeParse (extractJSON summary_array) = None /\
   exists r,
     extractResearchResult summary_array = Returns (Some r) /\ summary r = []) /\
  (safeParse (extractJSON summary_object) = None /\
   extractResearchResult summary_object = Throws cannot_convert).
Proof.
  split; [|split].
  - split; [vm_compute; reflexivity|]. split; [vm_compute; reflexivity|].
    eexists. split; [vm_compute; reflexivity|]. split; vm_compute; reflexivity.
  - split; [vm_compute; reflexivity|].
    eexists. split; vm_compute; reflexivity.
  - split; vm_compute; reflexivity.
Qed.

(** C3, counterexample: the text [5] holds no brace at all, and
    [extractJSON] returns the number 5, from which
    [extractResearchResult] salvages a result. *)
Lemma extractJSON_number_text :
  has_region (lit "5") = false /\
  indexOf 123%N (lit "5") = None /\
  extractJSON (lit "5") = JNum (number_of_decimal false 5 0) /\
  extractResearchResult (lit "5")
  = Returns (Some (mkExtracted placeholder (JObj []) None num_0_3)).
Proof. repeat split; vm_compute; reflexivity. Qed.

(** C3, at a text whose braces do not balance. *)
Lemma extractJSON_without_region_witness :
  extractJSON unbalanced = match parse (clean unbalanced) with
                           | Some v => v
                           | None => JNull
                           end /\
  forall m, extractJSON unbalanced <> JObj m.
Proof.
  apply (extractJSON_without_region unbalanced). vm_compute. reflexivity.
Defined.

(** C4, counterexample: the object [{"b":2}] stands after the prose
    [{"a":1} ], and [extractJSON] returns the object of the prose.
    Besides, around the same object the prose [[] and []] makes an
    array, and [extractJSON] returns the array. *)
Lemma extractJSON_first_object :
  (parse object_b = Some (JObj [(lit "b", JNum (number_of_decimal false 2 0))]) /\
   two_objects = (object_a ++ lit " ") ++ object_b ++ [] /\
   extractJSON two_objects = JObj [(lit "a", JNum (number_of_decimal false 1 0))] /\
   deep_equal (extractJSON two_objects)
              (JObj [(lit "b", JNum (number_of_decimal false 2 0))]) = false) /\
  (in_array = lit "[" ++ object_b ++ lit "]" /\
   indexOf 123%N (lit "[") = None /\
   extractJSON in_array
   = JArr [JObj [(lit "b", JNum (number_of_decimal false 2 0))]]).
Proof. repeat split; vm_compute; reflexivity. Qed.

(** C4, at the object [{"b":2}] in prose and in a fence tagged [json]. *)
Lemma extractJSON_embedded_witness :
  extractJSON in_prose = JObj [(lit "b", JNum (number_of_decimal false 2 0))] /\
  extractJSON in_fence = JObj [(lit "b", JNum (number_of_decimal false 2 0))].
Proof.
  destruct (extractJSON_embedded object_b
              [(lit "b", JNum (number_of_decimal false 2 0))])
    as (_ & Hprose & Hfence).
  - vm_compute. reflexivity.
  - vm_compute. reflexivity.
  - vm_compute. reflexivity.
  - split.
    + apply (Hprose (lit "Sure, the object you asked for is ")
                    (lit " and nothing else.")).
      * vm_compute. reflexivity.
      * vm_compute. reflexivity.
      * intros v H. vm_compute in H. discriminate H.
    + apply (Hfence (lit "json")). vm_compute. set_solver.
Defined.

(** C9, at the four falsy texts. *)
Lemma extractResearchResult_falsy_witness :
  (extractJSON (lit "0") = JNum (S754_zero false) /\
   extractResearchResult (lit "0") = Returns None) /\
  (extractJSON (lit "false") = JBool false /\
   extractResearchResult (lit "false") = Returns None) /\
  (extractJSON (lit "null") = JNull /\
   extractResearchResult (lit "null") = Returns None) /\
  (extractJSON (quoted []) = JStr [] /\
   extractResearchResult (quoted []) = Returns None).
Proof.
  split; [|split; [|split]].
  - apply (extractResearchResult_falsy (lit "0") (JNum (S754_zero false)));
      vm_compute; reflexivity.
  - apply (extractResearchResult_falsy (lit "false") (JBool false));
      vm_compute; reflexivity.
  - apply (extractResearchResult_falsy (lit "null") JNull);
      vm_compute; reflexivity.
  - apply (extractResearchResult_falsy (quoted []) (JStr []));
      vm_compute; reflexivity.
Defined.

(** A complete run of three items in which the tasks overlap and the
    refused item finishes last. *)
Lemma overlapping_run :
  processWithRetry default_options three_items refuse_twenty overlapping
  = Some (overlapping_outcomes, trace overlapping_state).
Proof. vm_compute. reflexivity. Qed.

(** C5, counterexample: a processor that rejects with a string makes
    the test of the [catch] block throw a [TypeError], with which
    [processWithRetry] rejects, and no run of it resolves.  Besides, with
    a processor that never fails and an [onProgress] that always throws,
    the item is processed three times, reported four times, and
    [processWithRetry] rejects with what [onProgress] threw. *)
Lemma processWithRetry_rejects :
  (Any.processWithRetry default_options [10] reject_with_string no_callback
     [Start 0; Settle 0]
   = Some (Rejected (AnError no_includes_of_undefined), [Call 10 0 0]) /\
   forall schedule outs tr,
     Any.processWithRetry default_options [10] reject_with_string no_callback schedule
     <> Some (Fulfilled outs, tr)) /\
  Any.processWithRetry default_options [10] add_attempt throwing_callback
    [Start 0; Settle 0; Wake 0; Settle 0; Wake 0; Settle 0]
  = Some (Rejected (AnError socket_closed),
          [Call 10 0 0; Progress 1 1 (mkOutcome 10 (Some 10) None); Sleep 0 0 1000;
           Call 10 0 1; Progress 2 1 (mkOutcome 10 (Some 11) None); Sleep 0 1 1000;
           Call 10 0 2; Progress 3 1 (mkOutcome 10 (Some 12) None);
           Progress 4 1 (mkOutcome 10 None (Some socket_closed))]).
Proof.
  split; [split|].
  - vm_compute. reflexivity.
  - intros schedule outs tr. apply never_resolves; [vm_compute; lia|done|done].
  - vm_compute. reflexivity.
Qed.

(** The overlapping run, in [Any]. *)
Lemma overlapping_run_any :
  Any.processWithRetry default_options three_items refuse_twenty_settled no_callback
    overlapping
  = Some (Fulfilled overlapping_outcomes, trace overlapping_state).
Proof. vm_compute. reflexivity. Qed.

(** C5, at the overlapping run and at its first two steps. *)
Lemma processWithRetry_settles_witness :
  (length [Start 0; Start 1]
   <= length three_items * (2 * maxRetries default_options + 2) /\
   exists schedule' outs tr,
     Any.processWithRetry default_options three_items refuse_twenty_settled no_callback
       ([Start 0; Start 1] ++ schedule') = Some (Fulfilled outs, tr)) /\
  exists outs,
    Fulfilled overlapping_outcomes = Fulfilled outs /\
    length outs = length three_items /\
    map item outs = three_items /\
    (forall i, calls_of i (trace overlapping_state) <= maxRetries default_options) /\
    (forall i item',
       three_items !! i = Some item' ->
       (forall a, exists x, refuse_twenty_settled item' i a = Rejected x) ->
       exists o, outs !! i = Some o /\ item o = item' /\
                 result o = None /\
                 (0 < maxRetries default_options -> is_Some (error o))).
Proof.
  destruct (processWithRetry_settles default_options three_items refuse_twenty_settled
              no_callback) as [Hruns Hdone].
  - intros item' i a x H. unfold refuse_twenty_settled in H.
    destruct (Nat.eqb item' 20); [|done]. injection H as <-. by eexists.
  - done.
  - split.
    + eapply (Hruns ltac:(vm_compute; lia) [Start 0; Start 1]).
      vm_compute. reflexivity.
    + apply (Hdone overlapping). apply overlapping_run_any.
Defined.

(** C10, at the refused item of the overlapping run. *)
Lemma processWithRetry_order_witness :
  item <$> overlapping_outcomes !! 1 = three_items !! 1 /\
  overlapping_outcomes !! 1
  = (fun item' => task_outcome default_options refuse_twenty item' 1)
    <$> three_items !! 1.
Proof.
  apply (processWithRetry_order default_options three_items refuse_twenty
           overlapping overlapping_outcomes (trace overlapping_state) 1).
  vm_compute. reflexivity.
Defined.

(** The delays of the refused item under the default options: one
    second, then two. *)
Lemma default_delays :
  observed_of 1 (trace overlapping_state)
  = [Call 20 1 0; Sleep 1 0 1000; Call 20 1 1; Sleep 1 1 2000; Call 20 1 2].
Proof. vm_compute. reflexivity. Qed.

(** C6, at the refused item of the overlapping run. *)
Lemma backoff_delays_witness :
  (exists rest,
     task_events default_options refuse_twenty 20 1 (maxRetries default_options) 0
     = observed_of 1 (trace overlapping_state) ++ rest) /\
  (forall k ms,
     Sleep 1 (k - 1) ms ∈ trace overlapping_state -> 1 <= k ->
     k < maxRetries default_options /\
     exists lastError,
       refuse_twenty 20 1 (k - 1) = Throws lastError /\
       ms = (if isRateLimit lastError
             then initialBackoffMs default_options * 2 ^ (Z.of_nat k - 1)
             else initialBackoffMs default_options)%Z) /\
  (forall k,
     is_Some (results overlapping_state) -> 1 <= k -> k < maxRetries default_options ->
     (forall a, a < k -> exists e, refuse_twenty 20 1 a = Throws e) ->
     exists lastError,
       refuse_twenty 20 1 (k - 1) = Throws lastError /\
       Sleep 1 (k - 1) (backoffMs default_options lastError (k - 1))
         ∈ trace overlapping_state) /\
  ((0 < initialBackoffMs default_options)%Z ->
   forall k1 k2, 1 <= k1 -> k1 < k2 ->
     (initialBackoffMs default_options * 2 ^ (Z.of_nat k1 - 1)
      < initialBackoffMs default_options * 2 ^ (Z.of_nat k2 - 1))%Z).
Proof.
  apply (backoff_delays default_options three_items refuse_twenty overlapping
           overlapping_state 1 20).
  - vm_compute. reflexivity.
  - vm_compute. reflexivity.
Defined.

(** C7, at 12 summaries while the provider refuses every call. *)
Lemma reduceAggregate_calls_witness :
  exists c1 c2 c3 firstLevel,
    chunks_of 12 (replicate 12 (lit "summary")) = [c1; c2; c3] /\
    length firstLevel = 3 /\
    snd (reduceAggregate (fun _ _ => Throws (mkError (lit "quota")))
           (replicate 12 (lit "summary")) (lit "revenue") [])
    = [ aggregation_prompt c1 (lit "revenue"); aggregation_prompt c2 (lit "revenue");
        aggregation_prompt c3 (lit "revenue");
        aggregation_prompt firstLevel (lit "revenue") ].
Proof.
  destruct (reduceAggregate_calls (fun _ _ => Throws (mkError (lit "quota")))
              (replicate 12 (lit "summary")) (lit "revenue")) as (_ & _ & H).
  apply H. reflexivity.
Defined.

(* ================================================================== *)
(** * More concrete inputs *)
(* ================================================================== *)

(** X8, an instance: [processAll] at the overlapping run: the refused item
    has no value. *)
Lemma processAll_values_witness :
  [10; 30]
  = omap (kept never_null)
      (imap (fun i item' => task_outcome default_options refuse_twenty item' i)
            three_items) /\
  length [10; 30] <= length three_items /\
  (forall g : nat -> nat -> nat,
     0 < maxRetries default_options ->
     (forall i item', three_items !! i = Some item' ->
        refuse_twenty item' i 0 = Returns (g i item') /\
        never_null (g i item') = false) ->
     [10; 30] = imap g three_items).
Proof.
  apply (processAll_values default_options three_items refuse_twenty never_null
           overlapping [10; 30] (trace overlapping_state)).
  vm_compute. reflexivity.
Defined.

(** X9, an instance: [chunkArray] at five items and the size 2. *)
Lemma chunkArray_chunks_witness :
  exists chunks,
    chunkArray five_items 2 = Some chunks /\
    concat chunks = five_items /\
    length chunks = (length five_items + 2 - 1) / 2 /\
    (forall k c, chunks !! k = Some c ->
       c = take 2 (drop (k * 2) five_items) /\
       1 <= length c <= 2 /\
       (S k < length chunks -> length c = 2)).
Proof. apply (chunkArray_chunks five_items 2). lia. Defined.

(** X10, an instance: [chunkArray] at five items and the size 0. *)
Lemma chunkArray_size_zero_witness :
  (forall fuel, chunk_loop fuel five_items 0 0 = None) /\
  chunkArray five_items 0 = None.
Proof. apply (chunkArray_size_zero five_items). unfold five_items. discriminate. Defined.

(** X11, an instance: [processInChunks] at five items in chunks of two, none
    refused. *)
Lemma processInChunks_all_witness :
  exists log,
    processInChunks add_index first_of five_items 2 1000
    = Some (Returns (imap (fun i item' => item' + i) five_items), log) /\
    omap called log = List.seq 0 (length five_items) /\
    omap slept log = replicate ((length five_items + 2 - 1) / 2 - 1) 1000%Z.
Proof.
  apply (processInChunks_all add_index first_of five_items 2 1000
           (fun i item' => item' + i)).
  - lia.
  - intros i x _. reflexivity.
Defined.

(** X12, an instance: [processInChunks] at five items in chunks of two, the
    item 40 of the second chunk refused: four items are called, and there is
    one pause. *)
Lemma processInChunks_rejects_witness :
  exists e log,
    processInChunks refuse_forty first_of five_items 2 1000 = Some (Throws e, log) /\
    (exists k x, 1 * 2 <= k < (1 + 1) * 2 /\
                 five_items !! k = Some x /\ refuse_forty k x = Throws e) /\
    omap called log = List.seq 0 (Nat.min (length five_items) ((1 + 1) * 2)) /\
    omap slept log = replicate 1 1000%Z.
Proof.
  apply (processInChunks_rejects refuse_forty first_of five_items 2 1000 1).
  - lia.
  - intros [|e l] Hl; [done|]. apply elem_of_cons. by left.
  - intros i x Hi Hx. destruct i as [|[|i]]; [| |lia];
      injection Hx as <-; eexists; reflexivity.
  - exists 3, 40, (mkError (lit "Request failed with status code 500")).
    split; [lia|]. split; reflexivity.
Defined.

(** X14, an instance: the run of one item whose first report throws.
    The item is processed twice, and the reports carry 1 of 1, then 2
    of 1. *)
Lemma onProgress_counter_witness :
  (Any.trace retried_state
   = [Call 10 0 0; Progress 1 1 (mkOutcome 10 (Some 10) None); Sleep 0 0 1000;
      Call 10 0 1; Progress 2 1 (mkOutcome 10 (Some 11) None)] /\
   Any.tasks retried_state = [Any.Done (mkOutcome 10 (Some 11) None)]) /\
  omap reported (Any.trace retried_state)
  = (fun c => (c, length [10])) <$> List.seq 1 (Any.completed retried_state) /\
  length (filter Any.is_done (Any.tasks retried_state)) <= Any.completed retried_state /\
  ((forall n, throwing_once n = None) ->
   Any.completed retried_state = length (filter Any.is_done (Any.tasks retried_state)) /\
   forall outs, Any.settlement retried_state = Some (Fulfilled outs) ->
                Any.completed retried_state = length [10]).
Proof.
  split; [split_and!; vm_compute; reflexivity|].
  apply (onProgress_counter default_options [10] add_attempt throwing_once
           [Start 0; Settle 0; Wake 0; Settle 0] retried_state).
  vm_compute. reflexivity.
Defined.

(** X16, an instance: [researchCompletion] at a primary backend that answers
    a valid object at once. *)
Lemma researchCompletion_first_answer_witness :
  researchCompletion answering (lit "revenue") (data one_row)
  = Returns (mkResearch summary_only_result openrouter 1).
Proof.
  apply (researchCompletion_first_answer answering (lit "revenue") (data one_row)
           (mkOrchestration (mkResponse summary_only (lit "openai/gpt-4o-2024-08-06"))
                            openrouter false)
           summary_only_result).
  - reflexivity.
  - vm_compute. reflexivity.
Defined.

(** X17, an instance: two entities while both backends are down and the
    first call of [onProgress] throws.  The first entity is reported
    twice, with its result and then with the message of what was
    thrown, and both entities are in the map. *)
Lemma batchResearchCompletion_reports_witness :
  (batchResearchCompletion (fun _ => down) (lit "revenue") throwing_once two_entities).2
  = [mkBatchProgress (lit "acme") (Some fallback_result) None;
     mkBatchProgress (lit "acme") None (Some (lit "socket closed"));
     mkBatchProgress (lit "globex") (Some fallback_result) None] /\
  (exists n', 1 = S n' /\ is_Some (throwing_once n')) /\
  (exists results,
     (batchResearchCompletion (fun _ => down) (lit "revenue") throwing_once
        two_entities).1 = Fulfilled results /\
     results !! lit "acme" = Some fallback_result /\
     results !! lit "globex" = Some fallback_result).
Proof.
  destruct (batchResearchCompletion_reports (fun _ => down) (lit "revenue")
              throwing_once two_entities) as (_ & Herr & Hmap).
  split; [vm_compute; reflexivity|]. split.
  - apply (Herr 1 (mkBatchProgress (lit "acme") None (Some (lit "socket closed"))));
      vm_compute; reflexivity.
  - destruct (batchResearchCompletion (fun _ => down) (lit "revenue") throwing_once
                two_entities).1 as [results|x] eqn:E; [|vm_compute in E; discriminate E].
    exists results. split; [done|].
    destruct (Hmap results eq_refl) as (_ & _ & Hlast). split.
    + apply (Hlast 0 (mkEntity (lit "acme") [(lit "name", lit "Acme")]) eq_refl).
      intros [|[|j]] e' Hj He'; [lia| |done].
      injection He' as <-. vm_compute. discriminate.
    + apply (Hlast 1 (mkEntity (lit "globex") [(lit "name", lit "Globex")]) eq_refl).
      intros [|[|j]] e' Hj He'; [lia|lia|done].
Defined.

(** X18, an instance: [processRows] at the batch of one row. *)
Lemma processRows_every_row_witness :
  (forall x,
     count_events x error_status (events one_row_state) = 0 /\
     count_events x processing (events one_row_state) = count_rows x [one_row] /\
     count_events x completed (events one_row_state) = count_rows x [one_row]) /\
  (forall k, is_Some (results_map one_row_state !! k) <-> k ∈ map id [one_row]) /\
  (forall i r, [one_row] !! i = Some r ->
     (forall j r', i < j -> [one_row] !! j = Some r' -> id r' <> id r) ->
     results_map one_row_state !! id r
     = Some (toResearchResult
               (Orchestrator.result (Orchestrator.research down (lit "revenue") (data r)))
               (tick (length [one_row] + i)))).
Proof.
  apply (processRows_every_row (fun _ _ => down) tick (lit "revenue") [one_row]
           one_row_schedule one_row_state).
  vm_compute. reflexivity.
Defined.

(** X21, an instance: [convertToGeminiMessages] at one system message around
    a question, an answer and a second question. *)
Lemma convertToGeminiMessages_system_witness :
  Gemini.convertToGeminiMessages
    ([be_brief] ++ mkMessage user (lit "Who makes anvils?")
       :: [mkMessage assistant (lit "Acme.")])
  = Gemini.mkGemini Gemini.g_user [Gemini.preamble [be_brief] ++ lit "Who makes anvils?"]
    :: Gemini.convertToGeminiMessages [mkMessage assistant (lit "Acme.")] /\
  Gemini.convertToGeminiMessages ([mkMessage assistant (lit "Acme.")] ++ [be_brief])
  = Gemini.convertToGeminiMessages [mkMessage assistant (lit "Acme.")].
Proof.
  destruct (convertToGeminiMessages_system [be_brief] [mkMessage assistant (lit "Acme.")]
              (lit "Who makes anvils?") (lit "And hammers?"))
    as (_ & Huser & _ & Hlast).
  - apply Forall_cons; split; [reflexivity|apply Forall_nil_2].
  - split; [exact Huser|exact Hlast].
Defined.

(** X22, an instance: [geminiCompletion] at one system message alone, and at one
    question, with backends that echo what they are sent. *)
Lemma geminiCompletion_sends_witness :
  Gemini.geminiCompletion echo_chat [be_brief] = Throws Gemini.no_last_message /\
  Gemini.geminiCompletion echo_chat [mkMessage user (lit "Who makes anvils?")]
  = Returns (mkResponse (Gemini.STRICT_JSON_SYSTEM ++ [10; 10]%N ++ lit "Who makes anvils?")
                        Gemini.DEFAULT_MODEL) /\
  Gemini.geminiSimpleCompletion echo (lit "Who makes anvils?")
  = Returns (Gemini.STRICT_JSON_SYSTEM ++ [10; 10]%N ++ lit "Who makes anvils?").
Proof.
  destruct (geminiCompletion_sends echo_chat echo [be_brief] (lit "Who makes anvils?")
              (lit "revenue") (data one_row))
    as (Hnone & Hone & Hsimple & _).
  - apply Forall_cons; split; [reflexivity|apply Forall_nil_2].
  - split; [exact Hnone|]. split; [exact Hone|exact Hsimple].
Defined.

(** X1, an instance: [extractResearchResult] at an object with a summary
    only, and at an object whose details hold a member [__proto__]. *)
Lemma extractResearchResult_validated_witness :
  extractResearchResult summary_only = Returns (Some summary_only_result) /\
  extractResearchResult with_proto = Returns (Some with_proto_result) /\
  details with_proto_result = JObj [(lit "a", JNum (number_of_decimal false 2 0))].
Proof.
  split; [|split; [|reflexivity]].
  - apply (extractResearchResult_validated summary_only summary_only_result).
    vm_compute. reflexivity.
  - apply (extractResearchResult_validated with_proto with_proto_result).
    vm_compute. reflexivity.
Defined.

(** X2, an instance: [extractJSON] at an object with white space around it,
    and at a text of white space only. *)
Lemma extractJSON_trim_witness :
  (extractJSON ([32; 10]%N ++ object_b ++ [32]%N) = extractJSON object_b /\
   extractResearchResult ([32; 10]%N ++ object_b ++ [32]%N)
   = extractResearchResult object_b) /\
  (extractJSON [32; 9; 10]%N = JNull /\
   extractResearchResult [32; 9; 10]%N = Returns None).
Proof.
  split.
  - destruct (extractJSON_trim ([32; 10]%N ++ object_b ++ [32]%N) object_b)
      as (Hv & Hr & _).
    + vm_compute. reflexivity.
    + split; [exact Hv|exact Hr].
  - destruct (extractJSON_trim [32; 9; 10]%N []) as (_ & _ & _ & Hblank).
    + vm_compute. reflexivity.
    + apply Hblank. vm_compute. reflexivity.
Defined.

(** X6, an instance: [mapSummarize] at a result with two findings that are
    strings. *)
Lemma mapSummarize_strings_witness :
  mapSummarize [two_findings]
  = Returns (map (fun r => truncateToWords (with_string_findings r) MAX_SUMMARY_WORDS)
                 [two_findings]).
Proof.
  apply (mapSummarize_strings [two_findings]).
  intros r f findings Hr Hf. apply list_elem_of_singleton in Hr as ->.
  vm_compute in Hf. injection Hf as <- <-. vm_compute. eexists. reflexivity.
Defined.

(** X7, an instance: [reduceAggregate] at 12 summaries while the provider
    refuses every call. *)
Lemma reduceAggregate_refused_witness :
  fst (reduceAggregate (fun _ _ => Throws (mkError (lit "quota")))
         (replicate 12 (lit "summary")) (lit "revenue") [])
  = if Nat.leb (length (replicate 12 (lit "summary"))) AGGREGATION_CHUNK_SIZE
    then join [32%N] (take 3 (replicate 12 (lit "summary")))
    else join [32%N]
           (map (fun chunk => join [32%N] (take 3 chunk))
                (take 3 (chunks_of (length (replicate 12 (lit "summary")))
                                   (replicate 12 (lit "summary"))))).
Proof.
  apply (reduceAggregate_refused (fun _ _ => Throws (mkError (lit "quota")))
           (replicate 12 (lit "summary")) (lit "revenue")).
  intros n prompt. eexists. reflexivity.
Defined.

(** X3, an instance: [findJSONObject] at an object in prose. *)
Lemma findJSONObject_cuts_witness : findJSONObject in_prose = Some object_b.
Proof.
  destruct (findJSONObject_cuts in_prose) as (_ & _ & Hobject).
  apply (Hobject (lit "Sure, the object you asked for is ") object_b
                 (lit " and nothing else.")
                 [(lit "b", JNum (number_of_decimal false 2 0))]);
    vm_compute; reflexivity.
Defined.

(** X5, an instance: [truncateToWords] at a text of 1000 words and the
    limit 200. *)
Lemma truncateToWords_idempotent_witness :
  truncateToWords (truncateToWords words1000 200) 200 = truncateToWords words1000 200 /\
  endsWith (lit "...") (truncateToWords words1000 200) = true /\
  length (split_spaces (truncateToWords words1000 200)) <= Nat.max 1 200.
Proof.
  destruct (truncateToWords_idempotent words1000 200) as (Hagain & _ & Hcut).
  split; [exact Hagain|]. apply Hcut. apply Nat.ltb_lt. vm_compute. reflexivity.
Defined.

(** X20, an instance: the stream of two chunks gives two sentences and
    keeps the beginning of the third. *)
Lemma onChunk_sentences_witness :
  (omap sentence_of (stream_chunks [] two_chunks).1
   = [lit "Acme makes anvils."; lit "It is very old!"] /\
   (stream_chunks [] two_chunks).2 = lit "Yes") /\
  omap chunk_of (stream_chunks [] two_chunks).1 = two_chunks /\
  Forall spoken (omap sentence_of (stream_chunks [] two_chunks).1) /\
  exec_from 0 (stream_chunks [] two_chunks).2 = None /\
  (stream_chunks [] two_chunks).2 `suffix_of` concat two_chunks.
Proof.
  split; [split; vm_compute; reflexivity|].
  apply (onChunk_sentences two_chunks).
Defined.


(** X19, an instance: the first report of [processSingleRow] throws. *)
Lemma processSingleRow_completes_witness :
  processSingleRow down (tick 0) throwing_once (lit "revenue") one_row
  = (Fulfilled None,
     [mkProgress (id one_row) processing None None;
      mkProgress (id one_row) error_status None (Some (lit "socket closed"))]) /\
  processSingleRow down (tick 0) no_callback (lit "revenue") one_row
  = (Fulfilled (Some (toResearchResult fallback_result (tick 0))),
     [mkProgress (id one_row) processing None None;
      mkProgress (id one_row) completed
        (Some (toResearchResult fallback_result (tick 0))) None]).
Proof.
  destruct (processSingleRow_completes down (tick 0) throwing_once (lit "revenue") one_row)
    as (_ & _ & _ & Hthrew & _).
  destruct (processSingleRow_completes down (tick 0) no_callback (lit "revenue") one_row)
    as (Hreturned & _).
  split.
  - apply (Hthrew socket_closed); reflexivity.
  - apply Hreturned; reflexivity.
Defined.
